(** * genpass: random passwords and collision estimates

    A shallow embedding of the Go package [github.com/calico32/genpass]
    (files [genpass.go] and [collision.go]) and of its command
    ([bin/genpass/main.go]) together with the parts of the Go runtime and
    standard library they rely on, followed by the properties that were
    checked against it. *)

From Stdlib Require Import ZArith Lia Ascii String List Reals Lra.
From stdpp Require Import base list sorting pretty.

Local Open Scope string_scope.
Local Open Scope Z_scope.

(** ** Go runtime: panics, bytes, strings and runes *)

(** A Go call either returns or panics; the message is the text of the
    panic value: the string itself, [Error()] of an error, and for an error
    of the runtime that text starts with ["runtime error: "]. *)
Inductive outcome (A : Type) : Type :=
| Ok (a : A)
| Panic (msg : string).
Arguments Ok {A} a.
Arguments Panic {A} msg.

(** A Go [string] is a sequence of bytes: Rocq's [string] of 8-bit [ascii]. *)
Definition byte_val (c : ascii) : Z := Z.of_N (N_of_ascii c).
(** The conversion [byte(x)] keeps the low eight bits. *)
Definition to_byte (x : Z) : ascii := ascii_of_N (Z.to_N (x mod 256)).

(** Constants of [runtime/utf8.go]. *)
Definition runeError : Z := 0xFFFD.
Definition runeSelf : Z := 0x80.
Definition maxRune : Z := 0x10FFFF.
Definition surrogateMin : Z := 0xD800.
Definition surrogateMax : Z := 0xDFFF.
Definition tx : Z := 0x80.
Definition t2 : Z := 0xC0.
Definition t3 : Z := 0xE0.
Definition t4 : Z := 0xF0.
Definition t5 : Z := 0xF8.
Definition maskx : Z := 0x3F.
Definition mask2 : Z := 0x1F.
Definition mask3 : Z := 0x0F.
Definition mask4 : Z := 0x07.
Definition rune1Max : Z := 0x7F.
Definition rune2Max : Z := 0x7FF.
Definition rune3Max : Z := 0xFFFF.
Definition locb : Z := 0x80.
Definition hicb : Z := 0xBF.

(** A rune is an [int32] code point. *)
Definition rune := Z.

(** [locb <= b && b <= hicb]: [b] is a UTF-8 continuation byte. *)
Definition is_cont (b : Z) : bool := (locb <=? b) && (b <=? hicb).

(** [s[i]] for an index in range. *)
Definition byte_at (s : string) (i : nat) : Z :=
  match String.get i s with
  | Some c => byte_val c
  | None => 0
  end.

(** [s[k:]] *)
Fixpoint string_drop (k : nat) (s : string) : string :=
  match k, s with
  | S k', String _ s' => string_drop k' s'
  | _, _ => s
  end.

(** [runtime.decoderune(s, k)], given the suffix [s[k:]]: the rune and the
    number of bytes to advance by.  A sequence that is cut short, has a bad
    continuation byte, is overlong, or encodes a surrogate or a value beyond
    [maxRune] gives [runeError] and an advance of one byte. *)
Definition decoderune (s : string) : rune * nat :=
  let len := String.length s in
  let s0 := byte_at s 0 in
  let s1 := byte_at s 1 in
  let s2 := byte_at s 2 in
  let s3 := byte_at s 3 in
  if (t2 <=? s0) && (s0 <? t3) then
    let r := Z.lor (Z.shiftl (Z.land s0 mask2) 6) (Z.land s1 maskx) in
    if (1 <? len)%nat && is_cont s1 && (rune1Max <? r)
    then (r, 2%nat) else (runeError, 1%nat)
  else if (t3 <=? s0) && (s0 <? t4) then
    let r := Z.lor (Z.lor (Z.shiftl (Z.land s0 mask3) 12)
                          (Z.shiftl (Z.land s1 maskx) 6))
                   (Z.land s2 maskx) in
    if (2 <? len)%nat && is_cont s1 && is_cont s2 && (rune2Max <? r)
       && negb ((surrogateMin <=? r) && (r <=? surrogateMax))
    then (r, 3%nat) else (runeError, 1%nat)
  else if (t4 <=? s0) && (s0 <? t5) then
    let r := Z.lor (Z.lor (Z.lor (Z.shiftl (Z.land s0 mask4) 18)
                                 (Z.shiftl (Z.land s1 maskx) 12))
                          (Z.shiftl (Z.land s2 maskx) 6))
                   (Z.land s3 maskx) in
    if (3 <? len)%nat && is_cont s1 && is_cont s2 && is_cont s3
       && (rune3Max <? r) && (r <=? maxRune)
    then (r, 4%nat) else (runeError, 1%nat)
  else (runeError, 1%nat).

(** The loop [for _, r := range s] over what is left of the string: a byte
    below [runeSelf] stands for itself, any other goes through
    [decoderune].  Every round advances by at least one byte, so a [fuel]
    of the length of the string is enough. *)
Fixpoint range_runes (fuel : nat) (s : string) : list rune :=
  match fuel with
  | O => []
  | S fuel' =>
    match s with
    | EmptyString => []
    | String c0 s1 =>
      if byte_val c0 <? runeSelf then byte_val c0 :: range_runes fuel' s1
      else
        let '(r, k) := decoderune s in
        r :: range_runes fuel' (string_drop k s)
    end
  end.

(** [[]rune(s)] ([runtime.stringtoslicerune]). *)
Definition stringtoslicerune (s : string) : list rune :=
  range_runes (String.length s) s.

(** The three- and four-byte arms of [runtime.encoderune]. *)
Definition encode3 (r : rune) : string :=
  String (to_byte (Z.lor t3 (Z.shiftr r 12)))
 (String (to_byte (Z.lor tx (Z.land (Z.shiftr r 6) maskx)))
 (String (to_byte (Z.lor tx (Z.land r maskx))) EmptyString)).

Definition encode4 (r : rune) : string :=
  String (to_byte (Z.lor t4 (Z.shiftr r 18)))
 (String (to_byte (Z.lor tx (Z.land (Z.shiftr r 12) maskx)))
 (String (to_byte (Z.lor tx (Z.land (Z.shiftr r 6) maskx)))
 (String (to_byte (Z.lor tx (Z.land r maskx))) EmptyString))).

(** [runtime.encoderune]: the switch is on [i := uint32(r)]; runes beyond
    [maxRune] and surrogates are written as [runeError]. *)
Definition encoderune (r : rune) : string :=
  let i := r mod 2 ^ 32 in
  if i <=? rune1Max then String (to_byte r) EmptyString
  else if i <=? rune2Max then
    String (to_byte (Z.lor t2 (Z.shiftr r 6)))
   (String (to_byte (Z.lor tx (Z.land r maskx))) EmptyString)
  else if (maxRune <? i) || ((surrogateMin <=? i) && (i <=? surrogateMax))
  then encode3 runeError
  else if i <=? rune3Max then encode3 r
  else encode4 r.

(** [string(rs)] for a rune slice ([runtime.slicerunetostring]). *)
Fixpoint slicerunetostring (rs : list rune) : string :=
  match rs with
  | [] => EmptyString
  | r :: rs' => encoderune r ++ slicerunetostring rs'
  end.

(** The runes that are Unicode scalar values: the ones [encoderune] writes
    as they are. *)
Definition valid_rune (r : rune) : Prop :=
  0 <= r <= maxRune /\ ~ (surrogateMin <= r <= surrogateMax).

(** [slices.Sort] on a slice of an ordered type leaves the ascending
    arrangement of its elements; on integers that arrangement is unique,
    so any sorting function stands for the library's pattern-defeating
    quicksort. *)
Definition slices_Sort (l : list rune) : list rune := merge_sort Z.le l.

(** ** math/big and crypto/rand *)

(** [big.Int.BitLen]: the length of the absolute value in bits, 0 for 0. *)
Definition BitLen (x : Z) : Z :=
  if x =? 0 then 0 else Z.log2 (Z.abs x) + 1.

(** [big.Int.SetBytes]: the bytes read as a big-endian unsigned integer. *)
Definition SetBytes (bytes : list ascii) : Z :=
  fold_left (fun acc c => acc * 256 + byte_val c) bytes 0.

(** [big.Int.Div] is Euclidean division (a division by zero panics; no
    divisor of this package is zero). *)
Definition big_Div (x y : Z) : Z := Z.sgn y * (x / Z.abs y).

(** *** big.Float

    A [big.Float] of precision [prec] is a signed zero, an infinity, or a
    finite number [mant * 2 ^ exp] whose mantissa has at most [prec] bits
    (Go keeps the mantissa left-aligned as a fraction of [[0.5, 1)], the
    same numbers written differently).  Every operation is modelled by the
    result the package documents for it: the exact result rounded to the
    precision of the destination in the default mode [ToNearestEven]; for
    [Sqrt], "the rounded square root", which the library reaches by Newton
    iteration on a wider precision.  Go's exponent, the one of the fraction,
    is [BitLen mant + exp] here; it is an [int32], and a result beyond
    [MaxExp] is an infinity, one below [MinExp] a zero. *)
Inductive form : Type := zero | finite | inf.

Record Float : Type := mkFloat {
  prec : Z;
  neg : bool;
  fform : form;
  mant : Z;
  exp : Z
}.

(** [n / 2 ^ d] for [0 <= n], rounded to the nearest integer, ties to even. *)
Definition rnd_shift (d n : Z) : Z :=
  let q := Z.shiftr n d in
  let r := n - Z.shiftl q d in
  let half := Z.shiftl 1 (d - 1) in
  if (half <? r) || ((r =? half) && Z.odd q) then q + 1 else q.

(** The positive number [m * 2 ^ e] rounded to [p] bits, as mantissa and
    exponent; a mantissa carried to [2 ^ p] is renormalised. *)
Definition round (p m e : Z) : Z * Z :=
  let d := BitLen m - p in
  if d <=? 0 then (m, e)
  else
    let q := rnd_shift d m in
    if q =? 2 ^ p then (2 ^ (p - 1), e + d + 1) else (q, e + d).

(** The largest and the smallest exponent of a [big.Float]. *)
Definition MaxExp : Z := 2 ^ 31 - 1.
Definition MinExp : Z := - 2 ^ 31.

(** [z.setExpAndRound(exp, 0)] on the mantissa [m] for [exp = BitLen m + e]:
    an exponent out of the range of [int32] underflows to zero or
    overflows to an infinity; otherwise the mantissa is rounded, and a
    carry that takes the exponent past [MaxExp] is an infinity too. *)
Definition finite_rounded (p : Z) (sign : bool) (m e : Z) : Float :=
  let exp := BitLen m + e in
  if exp <? MinExp then mkFloat p sign zero 0 0
  else if MaxExp <? exp then mkFloat p sign inf 0 0
  else
    let '(m', e') := round p m e in
    if MaxExp <? BitLen m' + e' then mkFloat p sign inf 0 0
    else mkFloat p sign finite m' e'.

(** [new(big.Float).SetInt(x)]: with [bits := uint32(x.BitLen())], the
    precision is [max(bits, 64)] and the exponent is [bits].  Short of 2^31
    bits the value is [x], exact; from 2^31 bits on the exponent is past
    [MaxExp] and the result an infinity; the conversion to [uint32] wraps
    the count of bits at 2^32. *)
Definition Float_SetInt (x : Z) : Float :=
  let bits := BitLen x mod 2 ^ 32 in
  let p := Z.max bits 64 in
  if x =? 0 then mkFloat p false zero 0 0
  else finite_rounded p (x <? 0) (Z.abs x) (bits - BitLen x).

(** A finite [float64]: the number [f64_mant * 2 ^ f64_exp], with
    [|f64_mant| < 2 ^ 53]. *)
Record float64 : Type := { f64_mant : Z; f64_exp : Z }.

(** [2 * x] in [float64] arithmetic is exact short of overflow. *)
Definition f64_double (x : float64) : float64 :=
  {| f64_mant := f64_mant x; f64_exp := f64_exp x + 1 |}.

(** [new(big.Float).SetFloat64(x)] for a finite [x]: precision 53, exact. *)
Definition Float_SetFloat64 (x : float64) : Float :=
  if f64_mant x =? 0 then mkFloat 53 false zero 0 0
  else mkFloat 53 (f64_mant x <? 0) finite (Z.abs (f64_mant x)) (f64_exp x).

(** [new(big.Float).Mul(x, y)]: the destination has precision 0, so it
    takes the larger of the operands' precisions. *)
Definition Float_Mul (x y : Float) : outcome Float :=
  let p := Z.max (prec x) (prec y) in
  let sign := xorb (neg x) (neg y) in
  match fform x, fform y with
  | finite, finite =>
    Ok (finite_rounded p sign (mant x * mant y) (exp x + exp y))
  | zero, inf | inf, zero =>
    Panic "multiplication of zero with infinity"
  | inf, _ | _, inf => Ok (mkFloat p sign inf 0 0)
  | _, _ => Ok (mkFloat p sign zero 0 0)
  end.

(** The integer square root of [N] followed by one more bit, which is set
    when the root is not exact: enough to round the real square root. *)
Definition sqrt_sticky (N : Z) : Z :=
  let root := Z.sqrt N in
  let sticky := if root * root =? N then 0 else 1 in
  2 * root + sticky.

(** The scaling [sqrt_round] applies to its radicand: an even distance from
    the exponent, and enough for an integer of more than [2 * p + 1] bits. *)
Definition sqrt_scale (p m e : Z) : Z :=
  let k := Z.max 0 (2 * p + 2 - BitLen m) in
  if Z.odd (e - k) then k + 1 else k.

(** The square root of [m * 2 ^ e] rounded to [p] bits: the root of the
    scaled radicand, with its extra bit, is rounded. *)
Definition sqrt_round (p m e : Z) : Z * Z :=
  let k := sqrt_scale p m e in
  let N := m * 2 ^ k in
  round p (sqrt_sticky N) ((e - k) / 2 - 1).

(** [new(big.Float).Sqrt(x)]: the destination takes the precision of [x];
    a negative operand panics, zero and infinity are returned as they are. *)
Definition Float_Sqrt (x : Float) : outcome Float :=
  let p := prec x in
  match fform x with
  | finite =>
    if neg x then Panic "square root of negative operand"
    else let '(m', e') := sqrt_round p (mant x) (exp x) in
         Ok (mkFloat p false finite m' e')
  | inf =>
    if neg x then Panic "square root of negative operand"
    else Ok (mkFloat p false inf 0 0)
  | zero => Ok (mkFloat p (neg x) zero 0 0)
  end.

(** The integer part of the positive number [m * 2 ^ e]. *)
Definition trunc (m e : Z) : Z :=
  if 0 <=? e then m * 2 ^ e else m / 2 ^ (- e).

(** [x.Int(n)]: [x] truncated towards zero is stored in [n]; for an
    infinity [n] is left as it is. *)
Definition Float_Int (x : Float) (n : Z) : Z :=
  match fform x with
  | finite =>
    let a := trunc (mant x) (exp x) in
    if neg x then - a else a
  | zero => 0
  | inf => n
  end.

(** The entropy source [rand.Reader], as the finite sequence of bytes it
    still has to give: running out of bytes is the failure of the source. *)
Definition Reader := list ascii.

(** The errors of a read that comes short, and the text of [Error()]. *)
Inductive io_error : Type := io_EOF | io_ErrUnexpectedEOF.

Definition io_error_Error (err : io_error) : string :=
  match err with
  | io_EOF => "EOF"
  | io_ErrUnexpectedEOF => "unexpected EOF"
  end.

(** [io.ReadFull] into a buffer of [k] bytes: the bytes and the rest of the
    source, or an error once the source is short: [io.EOF] when no byte
    was read, [io.ErrUnexpectedEOF] after some. *)
Definition io_ReadFull (k : nat) (rd : Reader)
  : (list ascii + io_error) * Reader :=
  if decide (k <= length rd)%nat then (inl (take k rd), drop k rd)
  else
    match rd with
    | [] => (inr io_EOF, [])
    | _ :: _ => (inr io_ErrUnexpectedEOF, [])
    end.

(** [bytes[0] &= uint8(int(1<<b) - 1)] *)
Definition mask_first (b : Z) (bytes : list ascii) : list ascii :=
  match bytes with
  | [] => []
  | c :: t =>
    to_byte (Z.land (byte_val c) (byte_val (to_byte (Z.shiftl 1 b - 1)))) :: t
  end.

(** The sampling loop of [rand.Int]: read [k] bytes, clear the bits above
    [b] in the first one, accept the candidate when it is below [max] and
    draw again otherwise.  Every round consumes [k >= 1] bytes of the finite
    source, so [fuel] beyond its length is never used up. *)
Fixpoint rand_Int_loop (fuel k : nat) (b max : Z) (rd : Reader)
  : (Z + io_error) * Reader :=
  match fuel with
  | O => (inr io_EOF, [])
  | S fuel' =>
    match io_ReadFull k rd with
    | (inr err, rd') => (inr err, rd')
    | (inl bytes, rd') =>
      let n := SetBytes (mask_first b bytes) in
      if n <? max then (inl n, rd')
      else rand_Int_loop fuel' k b max rd'
    end
  end.

(** [rand.Int(rand.Reader, max)]: a uniform integer of [[0, max)], or the
    error of the source.  It panics when [max <= 0]. *)
Definition rand_Int (max : Z) (rd : Reader)
  : outcome ((Z + io_error) * Reader) :=
  if max <=? 0 then Panic "crypto/rand: argument to Int is <= 0"
  else
    let n := max - 1 in
    let bitLen := BitLen n in
    if bitLen =? 0 then Ok (inl n, rd)
    else
      let k := (bitLen + 7) / 8 in
      let b := bitLen mod 8 in
      let b := if b =? 0 then 8 else b in
      Ok (rand_Int_loop (S (length rd)) (Z.to_nat k) b max rd).

(** ** genpass.go *)

Definition CharsetHex : string := "abcdef0123456789".
Definition CharsetLower : string := "abcdefghijklmnopqrstuvwxyz".
Definition CharsetUpper : string := "ABCDEFGHIJKLMNOPQRSTUVWXYZ".
Definition CharsetAlpha : string := CharsetLower ++ CharsetUpper.
Definition CharsetNum : string := "0123456789".
Definition CharsetAlphaNum : string := CharsetAlpha ++ CharsetNum.
Definition CharsetSpecial : string := "!@#$%^&*()_".
Definition CharsetAll : string := CharsetAlpha ++ CharsetNum ++ CharsetSpecial.

(** The text of the panic of an index [i] out of the range of a slice of
    length [n]. *)
Definition index_out_of_range (i n : Z) : string :=
  "runtime error: index out of range [" +:+ pretty i +:+ "] with length "
  +:+ pretty n.

(** The largest allocation of the runtime on the 64-bit platforms, whose
    heap addresses have 48 bits; a rune takes 4 bytes. *)
Definition maxAlloc : Z := 2 ^ 48.

(** The loop [for i := range length] of [Generate], from index [i] on with
    [n] rounds left: [password[i] = chars[j.Int64()]] for a fresh [j]; an
    error of the source is [panic(err)]. *)
Fixpoint Generate_loop (n i : nat) (chars : list rune) (charsetLen : Z)
    (password : list rune) (rd : Reader) : outcome (list rune * Reader) :=
  match n with
  | O => Ok (password, rd)
  | S n' =>
    match rand_Int charsetLen rd with
    | Panic msg => Panic msg
    | Ok (inr err, _) => Panic (io_error_Error err)
    | Ok (inl j, rd') =>
      match chars !! Z.to_nat j with
      | None => Panic (index_out_of_range j (Z.of_nat (List.length chars)))
      | Some c =>
        Generate_loop n' (S i) chars charsetLen (<[i := c]> password) rd'
      end
    end
  end.

(** [Generate]: the password and what is left of the entropy source.
    [make([]rune, length)] panics for a negative length and for one whose
    runes would take more than [maxAlloc] bytes. *)
Definition Generate (charset : string) (length : Z) (rd : Reader)
  : outcome (string * Reader) :=
  let chars := stringtoslicerune charset in
  let chars := slices_Sort chars in
  let charsetLen := Z.of_nat (List.length chars) in
  if (length <? 0) || (maxAlloc <? 4 * length)
  then Panic "runtime error: makeslice: len out of range"
  else
    let password := replicate (Z.to_nat length) 0 in
    match Generate_loop (Z.to_nat length) 0 chars charsetLen password rd with
    | Panic msg => Panic msg
    | Ok (password, rd') => Ok (slicerunetostring password, rd')
    end.

(** [NormalizeCharset]: convert to runes, sort, convert back. *)
Definition NormalizeCharset (charset : string) : string :=
  let chars := stringtoslicerune charset in
  let chars := slices_Sort chars in
  slicerunetostring chars.

(** ** collision.go: durations *)

(** [strings.Contains(s, substr)] *)
Fixpoint strings_Contains (s substr : string) : bool :=
  String.prefix substr s ||
  match s with
  | EmptyString => false
  | String _ s' => strings_Contains s' substr
  end.

Definition oneYear : Z := 31536000.

Definition log10years (pow : Z) : Z :=
  let i := 10 ^ pow in
  i * oneYear.

(** An entry of the table [units]. *)
Record durationUnit := { name : string; value : Z }.

Definition units : list durationUnit :=
  [ {| name := "second"; value := 1 |};
    {| name := "minute"; value := 60 |};
    {| name := "hour"; value := 3600 |};
    {| name := "day"; value := 86400 |};
    {| name := "year"; value := oneYear |};
    {| name := "thousand years"; value := log10years 3 |};
    {| name := "million years"; value := log10years 6 |};
    {| name := "billion years"; value := log10years 9 |};
    {| name := "trillion years"; value := log10years 12 |};
    {| name := "quadrillion years"; value := log10years 15 |};
    {| name := "quintillion years"; value := log10years 18 |};
    {| name := "sextillion years"; value := log10years 21 |};
    {| name := "septillion years"; value := log10years 24 |};
    {| name := "octillion years"; value := log10years 27 |};
    {| name := "nonillion years"; value := log10years 30 |};
    {| name := "decillion years"; value := log10years 33 |};
    {| name := "undecillion years"; value := log10years 36 |};
    {| name := "duodecillion years"; value := log10years 39 |};
    {| name := "tredecillion years"; value := log10years 42 |};
    {| name := "quattuordecillion years"; value := log10years 45 |};
    {| name := "quindecillion years"; value := log10years 48 |};
    {| name := "sexdecillion years"; value := log10years 51 |};
    {| name := "septendecillion years"; value := log10years 54 |};
    {| name := "octodecillion years"; value := log10years 57 |};
    {| name := "novemdecillion years"; value := log10years 60 |};
    {| name := "vigintillion years"; value := log10years 63 |};
    {| name := "unvigintillion years"; value := log10years 66 |};
    {| name := "duovigintillion years"; value := log10years 69 |};
    {| name := "trevigintillion years"; value := log10years 72 |};
    {| name := "quattuorvigintillion years"; value := log10years 75 |};
    {| name := "quinvigintillion years"; value := log10years 78 |};
    {| name := "sexvigintillion years"; value := log10years 81 |};
    {| name := "septenvigintillion years"; value := log10years 84 |};
    {| name := "octovigintillion years"; value := log10years 87 |};
    {| name := "novemvigintillion years"; value := log10years 90 |};
    {| name := "trigintillion years"; value := log10years 93 |};
    {| name := "untrigintillion years"; value := log10years 96 |};
    {| name := "duotrigintillion years"; value := log10years 99 |};
    {| name := "googol years"; value := log10years 100 |} ].

(** The body of the loop of [FormatDuration] once [units[i]] was chosen:
    the quotient, the name with an ["s"] appended under the condition the
    source writes, and [fmt.Sprintf("%s %s", ...)]. *)
Definition formatUnit (seconds : Z) (u : durationUnit) : string :=
  let unitName := name u in
  let unitSeconds := value u in
  let result := big_Div seconds unitSeconds in
  let unitName :=
    if negb (strings_Contains unitName " ") then
      if result =? 1 then unitName +:+ "s" else unitName
    else unitName in
  pretty result +:+ " " +:+ unitName.

(** [for i := len(units) - 1; i >= 0; i--], entered with [n = i + 1]. *)
Fixpoint FormatDuration_loop (n : nat) (seconds : Z) : string :=
  match n with
  | O => "less than a second"
  | S i =>
    match units !! i with
    | Some u =>
      if value u <=? seconds then formatUnit seconds u
      else FormatDuration_loop i seconds
    | None => FormatDuration_loop i seconds
    end
  end.

Definition FormatDuration (seconds : Z) : string :=
  let limitSeconds := log10years 100 * 999 in
  if limitSeconds <=? seconds then "an eternity"
  else FormatDuration_loop (length units) seconds.


(** ** collision.go: the collision estimate *)

Section Collision.

(** [lnFactor := math.Log(1 / (1 - p))] for [p := 0.01], the [float64] that
    the logarithm of the mathematics library returns. *)
Variable lnFactor : float64.

(** Errors of [big.Float] operations are panics; they propagate. *)
Definition bind {A B : Type} (x : outcome A) (f : A -> outcome B) : outcome B :=
  match x with
  | Ok a => f a
  | Panic msg => Panic msg
  end.

Definition GetCollisionSeconds (possiblePasswords : Z) : outcome Z :=
  let N := Float_SetInt possiblePasswords in
  let factor := Float_SetFloat64 (f64_double lnFactor) in
  bind (Float_Mul N factor) (fun mul =>
  bind (Float_Sqrt mul) (fun sqrt =>
  let n := 0 in
  let n := Float_Int sqrt n in
  Ok n)).

(** [GetCollisionSecondsFromLength]: the space is
    [charsetLen ^ passwordLen] ([big.Int.Exp] with a [nil] modulus returns
    1 when the exponent is not positive). *)
Definition GetCollisionSecondsFromLength (charsetLen passwordLen : Z)
  : outcome Z :=
  let possiblePasswords :=
    if passwordLen <=? 0 then 1 else charsetLen ^ passwordLen in
  GetCollisionSeconds possiblePasswords.

End Collision.

(** The logarithm as IEEE double arithmetic gives it:
    [1 - 0.01 = 0x1.fae147ae147aep-1], its inverse [0x1.0295fad40a57fp+0],
    whose logarithm rounds to [0x1.495453e6fd4dcp-7]. *)
Definition lnFactor_double : float64 :=
  {| f64_mant := 5793624167011548; f64_exp := -59 |}.


(** ** Libraries of the command: strconv, encoding/hex, encoding/base64 *)

(** An [int] of 64 bits: arithmetic wraps around. *)
Definition int_wrap (x : Z) : Z := (x + 2 ^ 63) mod 2 ^ 64 - 2 ^ 63.

(** The digits of [strconv.Atoi]: [ch -= '0'; if ch > 9 { error }],
    [n = n*10 + int(ch)]. *)
Fixpoint atoi_digits (s : string) (n : Z) : option Z :=
  match s with
  | EmptyString => Some n
  | String ch s' =>
    let ch := (byte_val ch - 48) mod 256 in
    if 9 <? ch then None else atoi_digits s' (n * 10 + ch)
  end.

(** [strconv.Atoi]: an optional sign and at least one decimal digit; the
    error ([None]) is a syntax error or a value out of the range of [int]. *)
Definition strconv_Atoi (s : string) : option Z :=
  let '(minus, digits) :=
    match s with
    | String "-" s' => (true, s')
    | String "+" s' => (false, s')
    | _ => (false, s)
    end in
  match digits with
  | EmptyString => None
  | _ =>
    match atoi_digits digits 0 with
    | None => None
    | Some n =>
      let n := if minus : bool then - n else n in
      if (- 2 ^ 63 <=? n) && (n <? 2 ^ 63) then Some n else None
    end
  end.

(** The value of a hexadecimal digit ([reverseHexTable] of [encoding/hex]):
    both cases of the letters are digits. *)
Definition fromHexChar (c : ascii) : option Z :=
  let c := byte_val c in
  if (48 <=? c) && (c <=? 57) then Some (c - 48)
  else if (97 <=? c) && (c <=? 102) then Some (c - 97 + 10)
  else if (65 <=? c) && (c <=? 70) then Some (c - 65 + 10)
  else None.

Inductive hex_error : Type :=
| InvalidByteError (b : ascii)
| ErrLength.

(** [hex.Decode(dst, src)], from index [i] of [dst] on: pairs of digits
    become bytes; a byte that is no digit, then an odd length, is an error;
    writing past the end of [dst] panics. *)
Fixpoint hex_Decode_loop (src : list ascii) (i : nat) (dst : list ascii)
  : outcome (list ascii * option hex_error) :=
  match src with
  | [] => Ok (dst, None)
  | [p] =>
    match fromHexChar p with
    | None => Ok (dst, Some (InvalidByteError p))
    | Some _ => Ok (dst, Some ErrLength)
    end
  | p :: q :: src' =>
    match fromHexChar p, fromHexChar q with
    | None, _ => Ok (dst, Some (InvalidByteError p))
    | Some _, None => Ok (dst, Some (InvalidByteError q))
    | Some a, Some b =>
      if decide (i < List.length dst)%nat
      then hex_Decode_loop src' (S i)
             (<[i := to_byte (Z.lor (Z.shiftl a 4) b)]> dst)
      else Panic (index_out_of_range (Z.of_nat i)
                    (Z.of_nat (List.length dst)))
    end
  end.

Definition hex_Decode (dst src : list ascii)
  : outcome (list ascii * option hex_error) :=
  hex_Decode_loop src 0 dst.

(** The alphabet of [base64.URLEncoding]. *)
Definition encodeURL : string :=
  "ABCDEFGHIJKLMNOPQRSTUVWXYZabcdefghijklmnopqrstuvwxyz0123456789-_".

(** [enc.encode[v & 0x3F]] *)
Definition base64_char (v : Z) : ascii :=
  match String.get (Z.to_nat (Z.land v 0x3F)) encodeURL with
  | Some c => c
  | None => to_byte 0
  end.

(** [base64.RawURLEncoding.EncodeToString]: three bytes give four
    characters; one or two bytes left over give two or three, and nothing
    pads them. *)
Fixpoint base64_RawURLEncoding_EncodeToString (src : list ascii) : string :=
  match src with
  | [] => EmptyString
  | [a] =>
    let v := Z.shiftl (byte_val a) 16 in
    String (base64_char (Z.shiftr v 18))
   (String (base64_char (Z.shiftr v 12)) EmptyString)
  | [a; b] =>
    let v := Z.lor (Z.shiftl (byte_val a) 16) (Z.shiftl (byte_val b) 8) in
    String (base64_char (Z.shiftr v 18))
   (String (base64_char (Z.shiftr v 12))
   (String (base64_char (Z.shiftr v 6)) EmptyString))
  | a :: b :: c :: src' =>
    let v := Z.lor (Z.lor (Z.shiftl (byte_val a) 16) (Z.shiftl (byte_val b) 8))
                   (byte_val c) in
    String (base64_char (Z.shiftr v 18))
   (String (base64_char (Z.shiftr v 12))
   (String (base64_char (Z.shiftr v 6))
   (String (base64_char v)
           (base64_RawURLEncoding_EncodeToString src'))))
  end.

(** ** bin/genpass/main.go *)

(** The flags of the command line after [getopt.Parse]. *)
Record flags : Type := {
  flagHex : bool;
  flagAlpha : bool;
  flagLower : bool;
  flagUpper : bool;
  flagNumber : bool;
  flagSpecial : bool;
  flagBytes : bool;
  flagBase64 : bool;
  flagEntropy : bool;
  flagCollisions : bool
}.

(** How a run of the command ends: [main] returns, [os.Exit] is called, or
    a panic unwinds it. *)
Inductive status : Type :=
| Returned
| Exited (code : Z)
| Panicked (msg : string).

(** What a run writes to the standard output and to the standard error,
    one entry for each call that prints, and how it ends. *)
Record run : Type := {
  stdout : list string;
  stderr : list string;
  result : status
}.

(** The end of a line. *)
Definition nl : string := String "010" EmptyString.

(** The charset [main] assembles from the flags: the sets are appended in
    the order of the tests, and no flag at all selects [CharsetAll]. *)
Definition main_charset (f : flags) : string :=
  let charset := "" in
  let charset := if flagHex f then charset +:+ CharsetHex else charset in
  let charset := if flagAlpha f then charset +:+ CharsetAlpha else charset in
  let charset := if flagLower f then charset +:+ CharsetLower else charset in
  let charset := if flagUpper f then charset +:+ CharsetUpper else charset in
  let charset := if flagNumber f then charset +:+ CharsetNum else charset in
  let charset := if flagSpecial f then charset +:+ CharsetSpecial else charset in
  if String.eqb charset "" then CharsetAll else charset.

(** The length [main] settles on: 16 unless the first argument gives one,
    doubled when [-bytes] comes with [-hex]; [None] when the argument is
    not an integer. *)
Definition main_length (f : flags) (args : list string) : option Z :=
  let length := 16 in
  match
    match args with
    | [] => Some length
    | arg0 :: _ => strconv_Atoi arg0
    end
  with
  | None => None
  | Some length =>
    Some (if flagBytes f && flagHex f then int_wrap (length * 2) else length)
  end.

(** The block of [main] that shows the bytes of a hexadecimal password in
    base64: the line it prints, or the way it ends the run and what it
    writes to the standard error. *)
Definition main_base64 (length : Z) (password : string)
  : list string + status * list string :=
  let buf := replicate (Z.to_nat (Z.quot length 2)) (to_byte 0) in
  match hex_Decode buf (list_ascii_of_string password) with
  | Panic msg => inr (Panicked msg, [])
  | Ok (_, Some _) => inr (Exited 1, ["error: failed to decode hex" +:+ nl])
  | Ok (buf, None) =>
    inl ["base64url: " +:+ base64_RawURLEncoding_EncodeToString buf +:+ nl]
  end.

Section Main.

(** The logarithm of [GetCollisionSeconds], and the line that the entropy
    block prints for a charset of [len(charset)] bytes and a length, which
    [float64] arithmetic and the [%.2f] verb settle. *)
Variable lnFactor : float64.
Variable entropy_line : Z -> Z -> string.

Definition main (f : flags) (args : list string) (rd : Reader) : run :=
  let charset := main_charset f in
  match main_length f args with
  | None =>
    {| stdout := [];
       stderr := ["error: invalid length" +:+ nl];
       result := Exited 1 |}
  | Some length =>
    if flagBase64 f && flagHex f && negb (Z.rem length 2 =? 0) then
      {| stdout := [];
         stderr :=
           ["error: length must be a multiple of 2 for base64 encoding" +:+ nl];
         result := Exited 1 |}
    else
      let charset := NormalizeCharset charset in
      match Generate charset length rd with
      | Panic msg => {| stdout := []; stderr := []; result := Panicked msg |}
      | Ok (password, _) =>
        let out := [password +:+ nl] in
        let decoded :=
          if flagBase64 f && flagHex f then main_base64 length password
          else inl [] in
        match decoded with
        | inr (st, err) => {| stdout := out; stderr := err; result := st |}
        | inl line =>
          let out := (out ++ line)%list in
          let len := Z.of_nat (String.length charset) in
          let out :=
            if flagEntropy f then
              (out ++ ["Charset: " +:+ charset +:+ nl;
                       entropy_line len length])%list
            else out in
          if flagCollisions f then
            let out :=
              if negb (flagEntropy f)
              then (out ++ ["Charset: " +:+ charset +:+ nl])%list
              else out in
            let possibilities := if length <=? 0 then 1 else len ^ length in
            let out :=
              (out ++ ["Possible passwords: " +:+ pretty possibilities
                       +:+ nl])%list in
            match GetCollisionSeconds lnFactor possibilities with
            | Panic msg =>
              {| stdout := out; stderr := []; result := Panicked msg |}
            | Ok collisions =>
              {| stdout :=
                   (out ++ ["Time until 1% chance of at least one collision: "
                            +:+ FormatDuration collisions +:+ nl])%list;
                 stderr := [];
                 result := Returned |}
            end
          else {| stdout := out; stderr := []; result := Returned |}
        end
      end
  end.

End Main.


(** ** Notions for the statements *)

(** The number of bytes one draw below [max] reads when its first
    candidate is accepted. *)
Definition draw_bytes (max : Z) : nat :=
  if BitLen (max - 1) =? 0 then 0%nat
  else Z.to_nat ((BitLen (max - 1) + 7) / 8).




(** The number a mantissa and an exponent stand for. *)
Definition val (m e : Z) : R := (IZR m * powerRZ 2 e)%R.

Definition val' (x : Z * Z) : R := val x.1 x.2.

(** The number a [float64] stands for. *)
Definition f64_val (x : float64) : R := val (f64_mant x) (f64_exp x).

(** What [GetCollisionSeconds] computes for a positive space [M] once the
    precision [p] of its [big.Float] values is fixed: the product with the
    factor [mc * 2 ^ -58] is rounded, so is its square root, and the
    integer part is taken. *)
Definition estimate (mc p M : Z) : Z :=
  let '(m1, e1) := round p (M * mc) (- 58) in
  let '(m2, e2) := sqrt_round p m1 e1 in
  trunc m2 e2.

(** The logarithm is a [float64] of the binade [[2 ^ -7, 2 ^ -6)], the one
    that holds [ln (1 / 0.99) = 0.01005...]. *)
Definition lnFactor_range (lnFactor : float64) : Prop :=
  f64_exp lnFactor = - 59 /\ 2 ^ 52 <= f64_mant lnFactor < 2 ^ 53.

(** * Properties *)

(** ** Bytes and bit operations *)

Lemma byte_val_range (c : ascii) : 0 <= byte_val c < 256.
Proof.
  unfold byte_val. pose proof (N_ascii_bounded c). lia.
Qed.

Lemma byte_val_to_byte (x : Z) : 0 <= x < 256 -> byte_val (to_byte x) = x.
Proof.
  intros Hx. unfold byte_val, to_byte.
  rewrite Z.mod_small by lia.
  rewrite N_ascii_embedding by lia. lia.
Qed.

Lemma land_mul_pow2_low (a b n : Z) :
  0 <= n -> 0 <= b < 2 ^ n -> Z.land (a * 2 ^ n) b = 0.
Proof.
  intros Hn Hb. apply Z.bits_inj'. intros i Hi.
  rewrite Z.land_spec, Z.bits_0.
  destruct (Z_lt_dec i n) as [Hlt|Hge].
  - rewrite Z.mul_pow2_bits_low by lia. reflexivity.
  - assert (Z.testbit b i = false) as ->; [|apply andb_false_r].
    destruct (Z.eq_dec b 0) as [->|Hb0]; [apply Z.bits_0|].
    apply Z.bits_above_log2; [lia|].
    assert (Z.log2 b < n) by (apply Z.log2_lt_pow2; lia). lia.
Qed.

Lemma lor_mul_pow2_low (a b n : Z) :
  0 <= n -> 0 <= b < 2 ^ n -> Z.lor (a * 2 ^ n) b = a * 2 ^ n + b.
Proof.
  intros Hn Hb.
  pose proof (Z.add_lor_land (a * 2 ^ n) b) as H.
  rewrite land_mul_pow2_low in H by assumption. lia.
Qed.

Lemma land_low_mask (x n : Z) :
  0 <= n -> Z.land x (2 ^ n - 1) = x mod 2 ^ n.
Proof.
  intros Hn. rewrite <- Z.land_ones by assumption.
  f_equal. rewrite Z.ones_equiv. lia.
Qed.

(** ** Decoding strings into runes *)

Lemma string_drop_length (k : nat) (s : string) :
  String.length (string_drop k s) = (String.length s - k)%nat.
Proof.
  revert s. induction k as [|k IH]; intros [|c s]; simpl; auto with lia.
Qed.

Lemma decoderune_advance (s : string) :
  (1 <= (decoderune s).2 <= 4)%nat.
Proof.
  unfold decoderune.
  repeat match goal with |- context [if ?b then _ else _] => destruct b end;
    simpl; lia.
Qed.

Lemma range_runes_fuel (fuel : nat) (s : string) :
  (String.length s <= fuel)%nat ->
  range_runes fuel s = stringtoslicerune s.
Proof.
  unfold stringtoslicerune.
  remember (String.length s) as n eqn:Hn.
  revert s Hn fuel.
  induction n as [n IH] using lt_wf_ind. intros s Hn fuel Hfuel.
  destruct s as [|c0 s1].
  - subst n. destruct fuel; reflexivity.
  - simpl in Hn. subst n. destruct fuel as [|fuel]; [lia|].
    cbn [range_runes].
    destruct (byte_val c0 <? runeSelf).
    + f_equal. rewrite (IH (String.length s1)) by lia.
      symmetry. apply (IH (String.length s1)); lia.
    + pose proof (decoderune_advance (String c0 s1)) as Hk.
      destruct (decoderune (String c0 s1)) as [r k]. simpl in Hk.
      f_equal.
      pose proof (string_drop_length k (String c0 s1)) as Hd. simpl in Hd.
      rewrite (IH (String.length (string_drop k (String c0 s1)))) by (simpl; lia).
      symmetry. apply (IH (String.length (string_drop k (String c0 s1)))); simpl; lia.
Qed.

(** The loop unfolded once. *)
Lemma stringtoslicerune_cons (c0 : ascii) (s1 : string) :
  stringtoslicerune (String c0 s1) =
  if byte_val c0 <? runeSelf then byte_val c0 :: stringtoslicerune s1
  else (decoderune (String c0 s1)).1
       :: stringtoslicerune (string_drop (decoderune (String c0 s1)).2 (String c0 s1)).
Proof.
  unfold stringtoslicerune at 1. cbn [String.length range_runes].
  destruct (byte_val c0 <? runeSelf).
  - reflexivity.
  - pose proof (decoderune_advance (String c0 s1)) as Hk.
    destruct (decoderune (String c0 s1)) as [r k]. simpl in *.
    f_equal. apply range_runes_fuel.
    pose proof (string_drop_length k (String c0 s1)) as Hd. simpl in Hd. lia.
Qed.

Lemma stringtoslicerune_nil : stringtoslicerune "" = [].
Proof. reflexivity. Qed.


(** The bit operations of the decoder and of the encoder as arithmetic. *)
Lemma land_mask (x m n k : Z) :
  0 <= n -> k = 2 ^ n -> m = k - 1 -> Z.land x m = x mod k.
Proof. intros Hn -> ->. apply land_low_mask. assumption. Qed.

Lemma shiftl_mul (x n k : Z) : 0 <= n -> k = 2 ^ n -> Z.shiftl x n = x * k.
Proof. intros Hn ->. apply Z.shiftl_mul_pow2. assumption. Qed.

Lemma shiftr_div (x n k : Z) : 0 <= n -> k = 2 ^ n -> Z.shiftr x n = x / k.
Proof. intros Hn ->. apply Z.shiftr_div_pow2. assumption. Qed.

Lemma lor_low (a b n k : Z) :
  0 <= n -> k = 2 ^ n -> 0 <= b < k -> Z.lor (a * k) b = a * k + b.
Proof. intros Hn -> Hb. apply lor_mul_pow2_low; assumption. Qed.

Lemma lor_const_low (c x a n k : Z) :
  0 <= n -> k = 2 ^ n -> c = a * k -> 0 <= x < k -> Z.lor c x = c + x.
Proof. intros Hn -> -> Hx. apply lor_mul_pow2_low; assumption. Qed.

Lemma rune2_arith (s0 s1 : Z) :
  Z.lor (Z.shiftl (Z.land s0 mask2) 6) (Z.land s1 maskx)
  = (s0 mod 32) * 64 + s1 mod 64.
Proof.
  unfold mask2, maskx.
  rewrite (land_mask s0 _ 5 32), (land_mask s1 _ 6 64) by (reflexivity || lia).
  rewrite (shiftl_mul _ 6 64) by (reflexivity || lia).
  apply (lor_low _ _ 6); [lia|reflexivity|]. apply Z.mod_pos_bound. lia.
Qed.

Lemma rune3_arith (s0 s1 s2 : Z) :
  Z.lor (Z.lor (Z.shiftl (Z.land s0 mask3) 12) (Z.shiftl (Z.land s1 maskx) 6))
        (Z.land s2 maskx)
  = (s0 mod 16) * 4096 + (s1 mod 64) * 64 + s2 mod 64.
Proof.
  unfold mask3, maskx.
  rewrite (land_mask s0 _ 4 16), (land_mask s1 _ 6 64), (land_mask s2 _ 6 64)
    by (reflexivity || lia).
  rewrite (shiftl_mul _ 6 64), (shiftl_mul _ 12 4096) by (reflexivity || lia).
  pose proof (Z.mod_pos_bound s1 64 ltac:(lia)).
  pose proof (Z.mod_pos_bound s2 64 ltac:(lia)).
  rewrite (lor_low _ _ 12 4096) by (reflexivity || lia).
  replace (s0 mod 16 * 4096 + s1 mod 64 * 64)
    with ((s0 mod 16 * 64 + s1 mod 64) * 64) by lia.
  rewrite (lor_low _ _ 6 64) by (reflexivity || lia). lia.
Qed.

Lemma rune4_arith (s0 s1 s2 s3 : Z) :
  Z.lor (Z.lor (Z.lor (Z.shiftl (Z.land s0 mask4) 18)
                      (Z.shiftl (Z.land s1 maskx) 12))
               (Z.shiftl (Z.land s2 maskx) 6))
        (Z.land s3 maskx)
  = (s0 mod 8) * 262144 + (s1 mod 64) * 4096 + (s2 mod 64) * 64 + s3 mod 64.
Proof.
  unfold mask4, maskx.
  rewrite (land_mask s0 _ 3 8), (land_mask s1 _ 6 64), (land_mask s2 _ 6 64),
    (land_mask s3 _ 6 64) by (reflexivity || lia).
  rewrite (shiftl_mul _ 6 64), (shiftl_mul _ 12 4096), (shiftl_mul _ 18 262144)
    by (reflexivity || lia).
  pose proof (Z.mod_pos_bound s1 64 ltac:(lia)).
  pose proof (Z.mod_pos_bound s2 64 ltac:(lia)).
  pose proof (Z.mod_pos_bound s3 64 ltac:(lia)).
  rewrite (lor_low _ _ 18 262144) by (reflexivity || lia).
  replace (s0 mod 8 * 262144 + s1 mod 64 * 4096)
    with ((s0 mod 8 * 64 + s1 mod 64) * 4096) by lia.
  rewrite (lor_low _ _ 12 4096) by (reflexivity || lia).
  replace ((s0 mod 8 * 64 + s1 mod 64) * 4096 + s2 mod 64 * 64)
    with (((s0 mod 8 * 64 + s1 mod 64) * 64 + s2 mod 64) * 64) by lia.
  rewrite (lor_low _ _ 6 64) by (reflexivity || lia). lia.
Qed.

(** Every rune that comes out of a string is a Unicode scalar value. *)
Lemma decoderune_valid (s : string) : valid_rune (decoderune s).1.
Proof.
  assert (valid_rune runeError) as Herr by (unfold valid_rune; cbv; intuition congruence).
  unfold decoderune.
  rewrite rune2_arith, rune3_arith, rune4_arith.
  set (s0 := byte_at s 0). set (s1 := byte_at s 1).
  set (s2 := byte_at s 2). set (s3 := byte_at s 3).
  pose proof (Z.mod_pos_bound s0 32 ltac:(lia)).
  pose proof (Z.mod_pos_bound s0 16 ltac:(lia)).
  pose proof (Z.mod_pos_bound s0 8 ltac:(lia)).
  pose proof (Z.mod_pos_bound s1 64 ltac:(lia)).
  pose proof (Z.mod_pos_bound s2 64 ltac:(lia)).
  pose proof (Z.mod_pos_bound s3 64 ltac:(lia)).
  repeat match goal with
         | |- context [if ?b then _ else _] => destruct b eqn:?
         end; simpl; try exact Herr;
    repeat match goal with
           | H : _ && _ = true |- _ => apply andb_prop in H; destruct H
           | H : negb _ = true |- _ => apply negb_true_iff in H
           | H : _ && _ = false |- _ => apply andb_false_iff in H
           end;
    unfold valid_rune, maxRune, surrogateMin, surrogateMax, rune1Max, rune2Max,
      rune3Max in *; lia.
Qed.

Lemma stringtoslicerune_valid (s : string) :
  Forall valid_rune (stringtoslicerune s).
Proof.
  remember (String.length s) as n eqn:Hn. revert s Hn.
  induction n as [n IH] using lt_wf_ind. intros [|c0 s1] Hn.
  - constructor.
  - rewrite stringtoslicerune_cons. simpl in Hn.
    destruct (Z.ltb_spec (byte_val c0) runeSelf) as [Hlt|Hge].
    + constructor; [|apply (IH (String.length s1)); [lia|reflexivity]].
      pose proof (byte_val_range c0).
      unfold valid_rune, runeSelf, maxRune, surrogateMin in *. lia.
    + constructor; [apply decoderune_valid|].
      pose proof (decoderune_advance (String c0 s1)).
      pose proof (string_drop_length (decoderune (String c0 s1)).2 (String c0 s1)) as Hd.
      simpl in Hd.
      eapply IH; [|reflexivity]. lia.
Qed.

(** The bytes the encoder writes. *)
Lemma enc_cont (x : Z) :
  byte_val (to_byte (Z.lor tx (Z.land x maskx))) = 128 + x mod 64.
Proof.
  unfold tx, maskx. rewrite (land_mask x _ 6 64) by (reflexivity || lia).
  pose proof (Z.mod_pos_bound x 64 ltac:(lia)).
  rewrite (lor_const_low 128 _ 2 6 64) by (reflexivity || lia).
  apply byte_val_to_byte. lia.
Qed.

Lemma enc2_lead (r : Z) :
  0 <= r <= rune2Max ->
  byte_val (to_byte (Z.lor t2 (Z.shiftr r 6))) = 192 + r / 64.
Proof.
  unfold rune2Max, t2. intros Hr.
  rewrite (shiftr_div _ 6 64) by (reflexivity || lia).
  assert (0 <= r / 64 < 32) by (Z.div_mod_to_equations; lia).
  rewrite (lor_const_low 192 _ 3 6 64) by (reflexivity || lia).
  apply byte_val_to_byte. lia.
Qed.

Lemma enc3_lead (r : Z) :
  0 <= r <= rune3Max ->
  byte_val (to_byte (Z.lor t3 (Z.shiftr r 12))) = 224 + r / 4096.
Proof.
  unfold rune3Max, t3. intros Hr.
  rewrite (shiftr_div _ 12 4096) by (reflexivity || lia).
  assert (0 <= r / 4096 < 16) by (Z.div_mod_to_equations; lia).
  rewrite (lor_const_low 224 _ 14 4 16) by (reflexivity || lia).
  apply byte_val_to_byte. lia.
Qed.

Lemma enc4_lead (r : Z) :
  0 <= r <= maxRune ->
  byte_val (to_byte (Z.lor t4 (Z.shiftr r 18))) = 240 + r / 262144.
Proof.
  unfold maxRune, t4. intros Hr.
  rewrite (shiftr_div _ 18 262144) by (reflexivity || lia).
  assert (0 <= r / 262144 < 8) by (Z.div_mod_to_equations; lia).
  rewrite (lor_const_low 240 _ 30 3 8) by (reflexivity || lia).
  apply byte_val_to_byte. lia.
Qed.

Lemma append_cons (c : ascii) (s1 s2 : string) :
  String c s1 +:+ s2 = String c (s1 +:+ s2).
Proof. reflexivity. Qed.

Lemma append_nil_l (s : string) : "" +:+ s = s.
Proof. reflexivity. Qed.

(** Settle the comparisons of a goal that linear arithmetic decides. *)
Ltac decide_tests :=
  repeat match goal with
  | |- context [(?a <? ?b)%Z] =>
    first [ rewrite (proj2 (Z.ltb_lt a b)) by (Z.div_mod_to_equations; lia)
          | rewrite (proj2 (Z.ltb_ge a b)) by (Z.div_mod_to_equations; lia) ]
  | |- context [(?a <=? ?b)%Z] =>
    first [ rewrite (proj2 (Z.leb_le a b)) by (Z.div_mod_to_equations; lia)
          | rewrite (proj2 (Z.leb_gt a b)) by (Z.div_mod_to_equations; lia) ]
  end.

Lemma decode_encoderune (r : rune) (s : string) :
  valid_rune r ->
  stringtoslicerune (encoderune r ++ s) = r :: stringtoslicerune s.
Proof.
  unfold valid_rune, maxRune, surrogateMin, surrogateMax. intros [Hr Hs].
  unfold encoderune.
  rewrite (Z.mod_small r) by lia.
  unfold rune1Max, rune2Max, rune3Max, maxRune, surrogateMin, surrogateMax.
  destruct (Z.leb_spec r 127) as [H1|H1].
  { (* one byte *)
    cbv iota. rewrite !append_cons, append_nil_l. rewrite stringtoslicerune_cons.
    rewrite byte_val_to_byte by lia. unfold runeSelf. decide_tests.
    reflexivity. }
  destruct (Z.leb_spec r 2047) as [H2|H2].
  { (* two bytes *)
    cbv iota. rewrite !append_cons, append_nil_l. rewrite stringtoslicerune_cons.
    unfold decoderune. cbn [byte_at String.get String.length].
    rewrite rune2_arith.
    rewrite enc2_lead, enc_cont by (unfold rune2Max; lia).
    unfold runeSelf, t2, t3, is_cont, locb, hicb, rune1Max.
    decide_tests. cbn [andb fst snd string_drop Nat.ltb Nat.leb].
    f_equal. Z.div_mod_to_equations; lia. }
  assert ((1114111 <? r) || (55296 <=? r) && (r <=? 57343) = false) as ->.
  { destruct (Z.ltb_spec 1114111 r); [lia|].
    destruct (Z.leb_spec 55296 r), (Z.leb_spec r 57343); simpl; try reflexivity.
    lia. }
  destruct (Z.leb_spec r 65535) as [H3|H3].
  { (* three bytes *)
    unfold encode3. rewrite !append_cons, append_nil_l.
    rewrite stringtoslicerune_cons.
    unfold decoderune. cbn [byte_at String.get String.length].
    rewrite rune3_arith.
    rewrite enc3_lead, !enc_cont by (unfold rune3Max; lia).
    rewrite (shiftr_div _ 6 64) by (reflexivity || lia).
    unfold runeSelf, t2, t3, t4, is_cont, locb, hicb, rune2Max, surrogateMin,
      surrogateMax.
    assert (Hrr : (224 + r / 4096) mod 16 * 4096 + (128 + r / 64 mod 64) mod 64 * 64
                  + (128 + r mod 64) mod 64 = r)
      by (Z.div_mod_to_equations; lia).
    rewrite Hrr.
    decide_tests.
    assert ((55296 <=? r) && (r <=? 57343) = false) as ->.
    { destruct (Z.leb_spec 55296 r), (Z.leb_spec r 57343); simpl;
        try reflexivity. lia. }
    reflexivity. }
  (* four bytes *)
  unfold encode4. rewrite !append_cons, append_nil_l.
  rewrite stringtoslicerune_cons.
  unfold decoderune. cbn [byte_at String.get String.length].
  rewrite rune4_arith.
  rewrite enc4_lead, !enc_cont by (unfold maxRune; lia).
  rewrite (shiftr_div _ 6 64), (shiftr_div _ 12 4096) by (reflexivity || lia).
  unfold runeSelf, t2, t3, t4, t5, is_cont, locb, hicb, rune3Max, maxRune.
  assert (Hrr : (240 + r / 262144) mod 8 * 262144
                + (128 + r / 4096 mod 64) mod 64 * 4096
                + (128 + r / 64 mod 64) mod 64 * 64
                + (128 + r mod 64) mod 64 = r)
    by (Z.div_mod_to_equations; lia).
  rewrite Hrr.
  decide_tests. reflexivity.
Qed.

Lemma decode_encode (rs : list rune) :
  Forall valid_rune rs ->
  stringtoslicerune (slicerunetostring rs) = rs.
Proof.
  induction 1 as [|r rs Hr _ IH]; [reflexivity|].
  cbn [slicerunetostring]. rewrite decode_encoderune by assumption.
  f_equal. exact IH.
Qed.

(** ** Sorting *)

Lemma slices_Sort_Permutation (l : list rune) : slices_Sort l ≡ₚ l.
Proof. apply merge_sort_Permutation. Qed.

Lemma slices_Sort_Sorted (l : list rune) : Sorted Z.le (slices_Sort l).
Proof. apply (Sorted_merge_sort Z.le). Qed.

Lemma slices_Sort_sorted_id (l : list rune) :
  Sorted Z.le l -> slices_Sort l = l.
Proof.
  intros Hl. apply (Sorted_unique Z.le); auto using slices_Sort_Sorted.
  apply slices_Sort_Permutation.
Qed.

Lemma slices_Sort_idemp (l : list rune) :
  slices_Sort (slices_Sort l) = slices_Sort l.
Proof. apply slices_Sort_sorted_id, slices_Sort_Sorted. Qed.

Lemma slices_Sort_valid (l : list rune) :
  Forall valid_rune l -> Forall valid_rune (slices_Sort l).
Proof.
  intros Hl. eapply Permutation_Forall; [|exact Hl].
  symmetry. apply slices_Sort_Permutation.
Qed.

(** ** NormalizeCharset *)

(** C9: NormalizeCharset is idempotent: normalising a normalised charset
    returns it unchanged, for every string (whether or not it is well-formed
    UTF-8). *)
Theorem NormalizeCharset_idempotent (x : string) :
  NormalizeCharset (NormalizeCharset x) = NormalizeCharset x.
Proof.
  unfold NormalizeCharset.
  rewrite decode_encode
    by (apply slices_Sort_valid, stringtoslicerune_valid).
  rewrite slices_Sort_idemp. reflexivity.
Qed.

(** C2: NormalizeCharset sorts but does not remove duplicates, against its
    own documentation: ["aab"] keeps both ["a"], so it does not normalise to
    the same alphabet as ["ba"]. *)
Theorem NormalizeCharset_keeps_duplicates :
  NormalizeCharset "aab" = "aab" /\ NormalizeCharset "ba" = "ab".
Proof. split; reflexivity. Qed.

(** ** Drawing from the entropy source *)

Lemma SetBytes_acc_nonneg (bytes : list ascii) (acc : Z) :
  0 <= acc -> 0 <= fold_left (fun acc c => acc * 256 + byte_val c) bytes acc.
Proof.
  revert acc. induction bytes as [|c t IH]; intros acc Hacc; simpl; [lia|].
  apply IH. pose proof (byte_val_range c). lia.
Qed.

Lemma SetBytes_nonneg (bytes : list ascii) : 0 <= SetBytes bytes.
Proof. apply SetBytes_acc_nonneg. lia. Qed.

Lemma BitLen_zero (x : Z) : 0 <= x -> BitLen x = 0 -> x = 0.
Proof.
  unfold BitLen. intros Hx. destruct (Z.eqb_spec x 0); [auto|].
  pose proof (Z.log2_nonneg (Z.abs x)). lia.
Qed.

Lemma Ok_inj {A : Type} (a b : A) : Ok a = Ok b -> a = b.
Proof. intros [= H]. exact H. Qed.

Lemma rand_Int_loop_range (fuel k : nat) (b max : Z) (rd rd' : Reader) (n : Z) :
  rand_Int_loop fuel k b max rd = (inl n, rd') -> 0 <= n < max.
Proof.
  revert rd. induction fuel as [|fuel IH]; intros rd; simpl; [discriminate|].
  destruct (io_ReadFull k rd) as [[bytes|err] rd1]; [|discriminate].
  destruct (Z.ltb_spec (SetBytes (mask_first b bytes)) max) as [Hlt|Hge].
  - intros [= <- <-]. pose proof (SetBytes_nonneg (mask_first b bytes)). lia.
  - apply IH.
Qed.

(** The fuel of the sampling loop is never used up: any two amounts beyond
    the length of the source give the same draw. *)
Lemma rand_Int_loop_fuel (fuel1 fuel2 k : nat) (b max : Z) (rd : Reader) :
  (1 <= k)%nat -> (List.length rd < fuel1)%nat -> (List.length rd < fuel2)%nat ->
  rand_Int_loop fuel1 k b max rd = rand_Int_loop fuel2 k b max rd.
Proof.
  intros Hk. revert fuel2 rd.
  induction fuel1 as [|fuel1 IH]; intros fuel2 rd H1 H2; [lia|].
  destruct fuel2 as [|fuel2]; [lia|]. cbn [rand_Int_loop].
  unfold io_ReadFull. destruct (decide (k <= List.length rd)%nat) as [Hle|Hgt];
    [|destruct rd; reflexivity].
  destruct (SetBytes (mask_first b (take k rd)) <? max); [reflexivity|].
  apply IH; rewrite length_drop; lia.
Qed.

Lemma rand_Int_range (max : Z) (rd rd' : Reader) (j : Z) :
  rand_Int max rd = Ok (inl j, rd') -> 0 <= j < max.
Proof.
  unfold rand_Int. destruct (Z.leb_spec max 0) as [|Hmax]; [discriminate|].
  destruct (Z.eqb_spec (BitLen (max - 1)) 0) as [Hz|Hnz].
  - intros [= <- <-]. apply BitLen_zero in Hz; lia.
  - intros H. apply Ok_inj in H. eapply rand_Int_loop_range. exact H.
Qed.

Lemma rand_Int_positive (max : Z) (rd : Reader) :
  0 < max -> exists r, rand_Int max rd = Ok r.
Proof.
  intros Hmax. unfold rand_Int.
  destruct (Z.leb_spec max 0); [lia|].
  destruct (BitLen (max - 1) =? 0); eauto.
Qed.

Lemma rand_Int_nonpositive (max : Z) (rd : Reader) :
  max <= 0 -> rand_Int max rd = Panic "crypto/rand: argument to Int is <= 0".
Proof.
  intros Hmax. unfold rand_Int. destruct (Z.leb_spec max 0); [reflexivity|lia].
Qed.

(** ** Generate *)

(** The loop keeps the length of the slice, leaves the positions it does
    not visit alone, and fills every position it visits from [chars]. *)
Lemma Generate_loop_ok (n i : nat) (chars password password' : list rune)
    (rd rd' : Reader) :
  Generate_loop n i chars (Z.of_nat (List.length chars)) password rd
    = Ok (password', rd') ->
  List.length password' = List.length password /\
  forall idx : nat,
    ((idx < i \/ i + n <= idx)%nat -> password' !! idx = password !! idx) /\
    ((i <= idx < i + n)%nat -> (idx < List.length password)%nat ->
     exists c, password' !! idx = Some c /\ c ∈ chars).
Proof.
  revert i password rd. induction n as [|n IH]; intros i password rd; simpl.
  - intros [= <- <-]. split; [reflexivity|]. intros idx. split; [auto|lia].
  - destruct (rand_Int (Z.of_nat (List.length chars)) rd) as [[[j|err] rd1]|msg] eqn:Hj;
      try discriminate.
    destruct (chars !! Z.to_nat j) as [c|] eqn:Hc; [|discriminate].
    intros H. apply IH in H as [Hlen H]. rewrite length_insert in Hlen.
    split; [exact Hlen|]. intros idx. destruct (H idx) as [Hout Hin].
    rewrite length_insert in Hin. split.
    + intros Hidx. rewrite Hout by lia. apply list_lookup_insert_ne. lia.
    + intros Hidx Hlt. destruct (decide (idx = i)) as [->|Hne].
      * exists c. split; [|eapply list_elem_of_lookup_2; exact Hc].
        rewrite Hout by lia. apply list_lookup_insert_eq. exact Hlt.
      * apply Hin; lia.
Qed.

(** With a charset that is not empty the loop panics on a failure of the
    entropy source only; with an empty one, on the first draw. *)
Lemma Generate_loop_panic (n i : nat) (chars password : list rune)
    (rd : Reader) (msg : string) :
  Generate_loop n i chars (Z.of_nat (List.length chars)) password rd = Panic msg ->
  (chars <> [] /\ (msg = "EOF" \/ msg = "unexpected EOF")) \/
  (chars = [] /\ msg = "crypto/rand: argument to Int is <= 0").
Proof.
  revert i password rd. induction n as [|n IH]; intros i password rd; simpl;
    [discriminate|].
  destruct chars as [|c0 chars'] eqn:Hchars.
  - rewrite rand_Int_nonpositive by (simpl; lia). intros [= <-]. auto.
  - rewrite <- Hchars in *.
    assert (chars <> []) as Hne by (rewrite Hchars; discriminate).
    destruct (rand_Int (Z.of_nat (List.length chars)) rd) as [[[j|err] rd1]|msg'] eqn:Hj.
    + apply rand_Int_range in Hj.
      destruct (lookup_lt_is_Some_2 chars (Z.to_nat j)) as [c ->]; [lia|].
      intros H. apply IH in H. exact H.
    + intros [= <-]. destruct err; auto.
    + destruct (rand_Int_positive (Z.of_nat (List.length chars)) rd) as [r Hr];
        [rewrite Hchars; simpl; lia|congruence].
Qed.

(** *** A source of zero bytes always succeeds *)



Lemma io_ReadFull_app (k : nat) (bytes rest : Reader) :
  List.length bytes = k -> io_ReadFull k (bytes ++ rest)%list = (inl bytes, rest).
Proof.
  intros <-. unfold io_ReadFull.
  rewrite decide_True by (rewrite length_app; lia).
  rewrite take_app_length, drop_app_length. reflexivity.
Qed.



(** [make] lets the lengths from 0 to a quarter of [maxAlloc] through. *)
Lemma make_accepts (length : Z) :
  0 <= length -> 4 * length <= maxAlloc ->
  (length <? 0) || (maxAlloc <? 4 * length) = false.
Proof.
  intros H0 H1. destruct (Z.ltb_spec length 0); [lia|].
  destruct (Z.ltb_spec maxAlloc (4 * length)); [lia|reflexivity].
Qed.

Lemma make_refuses (length : Z) :
  length < 0 \/ maxAlloc < 4 * length ->
  (length <? 0) || (maxAlloc <? 4 * length) = true.
Proof.
  intros H. destruct (Z.ltb_spec length 0); [reflexivity|].
  destruct (Z.ltb_spec maxAlloc (4 * length)); [reflexivity|lia].
Qed.


Lemma slices_Sort_length (l : list rune) :
  List.length (slices_Sort l) = List.length l.
Proof. apply Permutation_length, slices_Sort_Permutation. Qed.

Lemma slices_Sort_elem_of (l : list rune) (r : rune) :
  r ∈ slices_Sort l <-> r ∈ l.
Proof. rewrite (slices_Sort_Permutation l). reflexivity. Qed.

(** What the loop of [Generate] returns, entered as [Generate] enters it. *)
Lemma Generate_loop_members (n : nat) (chars password' : list rune)
    (rd rd' : Reader) :
  Generate_loop n 0 chars (Z.of_nat (List.length chars)) (replicate n 0) rd
    = Ok (password', rd') ->
  List.length password' = n /\ Forall (fun r => r ∈ chars) password'.
Proof.
  intros H. apply Generate_loop_ok in H as [Hlen H].
  rewrite length_replicate in Hlen. split; [exact Hlen|].
  apply Forall_lookup_2. intros idx r Hr.
  pose proof (lookup_lt_Some _ _ _ Hr) as Hidx.
  destruct (H idx) as [_ Hin].
  destruct Hin as (c & Hc & Hmem); [lia|rewrite length_replicate; lia|].
  congruence.
Qed.




(** ** FormatDuration *)

(** Decimal numerals start with a digit or a sign, never with a letter. *)
Lemma pretty_N_go_head (x : N) (s : string) :
  (0 < x)%N ->
  exists d t, pretty_N_go x s = String (pretty_N_char d) t.
Proof.
  revert s. induction (N.lt_wf_0 x) as [x _ IH]. intros s Hx.
  rewrite pretty_N_go_step by assumption.
  destruct (N.eq_dec (x / 10)%N 0%N) as [->|Hne].
  - rewrite pretty_N_go_0. eauto.
  - apply IH; [apply N.div_lt; lia|]. apply N.neq_0_lt_0. exact Hne.
Qed.

Lemma pretty_N_char_not_a (d : N) : pretty_N_char d <> "a"%char.
Proof. unfold pretty_N_char. repeat case_match; discriminate. Qed.

Lemma pretty_Z_not_eternity (z : Z) (rest : string) :
  pretty z +:+ rest <> "an eternity".
Proof.
  unfold pretty, pretty_Z. destruct z as [|p|p].
  - discriminate.
  - unfold pretty, pretty_positive, pretty, pretty_N.
    destruct (decide (N.pos p = 0%N)); [discriminate|].
    destruct (pretty_N_go_head (N.pos p) "") as (d & t & ->); [lia|].
    rewrite append_cons. intros [= H _]. exact (pretty_N_char_not_a d H).
  - discriminate.
Qed.

(** The table [units] is strictly increasing and starts at one second. *)
Lemma units_sorted : StronglySorted Z.lt (value <$> units).
Proof.
  apply Sorted_StronglySorted; [intros x y z; lia|].
  repeat constructor.
Qed.

Lemma StronglySorted_lookup_lt (l : list Z) (i j : nat) (x y : Z) :
  StronglySorted Z.lt l -> (i < j)%nat ->
  l !! i = Some x -> l !! j = Some y -> x < y.
Proof.
  intros Hl. revert i j. induction Hl as [|a l Hl IH Ha]; intros i j Hij Hi Hj.
  - discriminate.
  - destruct j as [|j]; [lia|]. destruct i as [|i]; simpl in *.
    + injection Hi as <-. rewrite Forall_forall in Ha. apply Ha.
      eapply list_elem_of_lookup_2. exact Hj.
    + eapply IH; [|eassumption..]. lia.
Qed.

Lemma units_lookup_le (i j : nat) (u u' : durationUnit) :
  (i <= j)%nat -> units !! i = Some u -> units !! j = Some u' ->
  value u <= value u'.
Proof.
  intros Hij Hi Hj. destruct (decide (i = j)) as [->|Hne].
  - assert (u = u') as -> by congruence. lia.
  - apply Z.lt_le_incl.
    apply (StronglySorted_lookup_lt (value <$> units) i j);
      [apply units_sorted|lia|..]; rewrite list_lookup_fmap.
    + rewrite Hi. reflexivity.
    + rewrite Hj. reflexivity.
Qed.

Lemma units_value_pos (u : durationUnit) : u ∈ units -> 1 <= value u.
Proof.
  intros Hu. apply list_elem_of_lookup_1 in Hu as [j Hj].
  apply (units_lookup_le 0 j {| name := "second"; value := 1 |} u);
    [lia|reflexivity|exact Hj].
Qed.

(** The loop stops at the last entry, among the first [n], that is not
    above [seconds]. *)
Lemma FormatDuration_loop_spec (n : nat) (seconds : Z) :
  (FormatDuration_loop n seconds = "less than a second" /\
   forall i u, (i < n)%nat -> units !! i = Some u -> seconds < value u)
  \/
  (exists i u,
      (i < n)%nat /\ units !! i = Some u /\ value u <= seconds /\
      (forall j u', (i < j < n)%nat -> units !! j = Some u' ->
                    seconds < value u') /\
      FormatDuration_loop n seconds = formatUnit seconds u).
Proof.
  induction n as [|n IH]; simpl.
  - left. split; [reflexivity|]. intros i u Hi. lia.
  - destruct (units !! n) as [u|] eqn:Hu.
    + destruct (Z.leb_spec (value u) seconds) as [Hle|Hgt].
      * right. exists n, u. repeat split; auto with lia.
      * destruct IH as [[Heq Hall]|(i & u0 & Hi & Hu0 & Hle & Habove & Heq)].
        -- left. split; [exact Heq|]. intros i u' Hi Hu'.
           destruct (decide (i = n)) as [->|Hne]; [congruence|].
           apply (Hall i); [lia|exact Hu'].
        -- right. exists i, u0. repeat split; auto with lia.
           intros j u' Hj Hu'.
           destruct (decide (j = n)) as [->|Hne]; [congruence|].
           apply (Habove j); [lia|exact Hu'].
    + destruct IH as [[Heq Hall]|(i & u0 & Hi & Hu0 & Hle & Habove & Heq)].
      * left. split; [exact Heq|]. intros i u' Hi Hu'.
        destruct (decide (i = n)) as [->|Hne]; [congruence|].
        apply (Hall i); [lia|exact Hu'].
      * right. exists i, u0. repeat split; auto with lia.
        intros j u' Hj Hu'.
        destruct (decide (j = n)) as [->|Hne]; [congruence|].
        apply (Habove j); [lia|exact Hu'].
Qed.

Lemma big_Div_pos (x y : Z) : 0 < y -> big_Div x y = x / y.
Proof.
  intros Hy. unfold big_Div. rewrite Z.sgn_pos, Z.abs_eq by lia. lia.
Qed.

Lemma append_nil_r (s : string) : s +:+ "" = s.
Proof. induction s as [|c s IH]; [reflexivity|]. rewrite append_cons, IH. reflexivity. Qed.

Lemma formatUnit_shape (seconds : Z) (u : durationUnit) :
  0 < value u ->
  exists sfx, (sfx = "" \/ sfx = "s") /\
    formatUnit seconds u
    = pretty (seconds / value u) +:+ " " +:+ name u +:+ sfx.
Proof.
  intros Hu. unfold formatUnit. rewrite big_Div_pos by assumption.
  destruct (negb (strings_Contains (name u) " ")).
  - destruct (seconds / value u =? 1).
    + exists "s". auto.
    + exists "". rewrite append_nil_r. auto.
  - exists "". rewrite append_nil_r. auto.
Qed.

Lemma FormatDuration_below_limit (seconds : Z) :
  seconds < log10years 100 * 999 ->
  FormatDuration seconds = FormatDuration_loop (List.length units) seconds.
Proof.
  intros Hlt. unfold FormatDuration.
  destruct (Z.leb_spec (log10years 100 * 999) seconds); [lia|reflexivity].
Qed.

(** C1: the test that appends the plural ["s"] is inverted: a single-word
    unit gets its ["s"] exactly when the quotient is 1.  The four values
    the claim lists come out as the opposite forms. *)
Theorem FormatDuration_plural_inverted :
  FormatDuration 1 = "1 seconds" /\
  FormatDuration 2 = "2 second" /\
  FormatDuration 31536000 = "1 years" /\
  FormatDuration 63072000 = "2 year".
Proof. repeat split; vm_compute; reflexivity. Qed.





(** C7: [FormatDuration] answers ["an eternity"] exactly from 999 googol
    years on: for every [s] at or above [999 * (10^100 * 31536000)]
    seconds, and for no [s] below. *)
Theorem FormatDuration_eternity (s : Z) :
  (999 * (10 ^ 100 * 31536000) <= s -> FormatDuration s = "an eternity") /\
  (s < 999 * (10 ^ 100 * 31536000) -> FormatDuration s <> "an eternity").
Proof.
  assert (log10years 100 * 999 = 999 * (10 ^ 100 * 31536000)) as Hlimit
    by reflexivity.
  split.
  - intros Hge. unfold FormatDuration. rewrite Hlimit.
    destruct (Z.leb_spec (999 * (10 ^ 100 * 31536000)) s); [reflexivity|lia].
  - intros Hlt. rewrite FormatDuration_below_limit by (rewrite Hlimit; exact Hlt).
    destruct (FormatDuration_loop_spec (List.length units) s)
      as [[-> _]|(i & u & _ & _ & _ & _ & ->)]; [discriminate|].
    unfold formatUnit. apply pretty_Z_not_eternity.
Qed.

(** ** GetCollisionSeconds *)

(** C3: the estimate is truncated, not rounded up as the documentation of
    [GetCollisionSeconds] says: [Float.Int] drops the fraction.  With the
    logarithm that double arithmetic gives, one possible password yields
    [0] where the ceiling of [sqrt (2 * 1 * ln (1 / 0.99)) = 0.1417...] is
    [1]; ten yield [0] (ceiling of [0.4483...]), and [26 ^ 8] yield [64788]
    (ceiling of [64788.61...] is [64789]). *)
Theorem GetCollisionSeconds_truncates :
  GetCollisionSeconds lnFactor_double 1 = Ok 0 /\
  GetCollisionSecondsFromLength lnFactor_double 10 1 = Ok 0 /\
  GetCollisionSecondsFromLength lnFactor_double 26 8 = Ok 64788.
Proof. repeat split; vm_compute; reflexivity. Qed.

(** A zero space passes through the estimate as a zero [big.Float]. *)
Lemma GetCollisionSeconds_zero_Ok (lnFactor : float64) :
  GetCollisionSeconds lnFactor 0 = Ok 0.
Proof.
  unfold GetCollisionSeconds, Float_SetFloat64, f64_double. simpl.
  destruct (f64_mant lnFactor =? 0); reflexivity.
Qed.

(** C4 (as the code has it): a space of zero passwords is not rejected:
    [GetCollisionSeconds] computes with it and returns [0], whatever the
    value of the logarithm, without a panic. *)
Theorem GetCollisionSeconds_zero_returns (lnFactor : float64) :
  GetCollisionSeconds lnFactor 0 = Ok 0 /\
  ~ (exists msg, GetCollisionSeconds lnFactor 0 = Panic msg).
Proof.
  rewrite GetCollisionSeconds_zero_Ok. split; [reflexivity|].
  intros [msg H]. discriminate.
Qed.

(** C4 (as stated) fails: the call with [M = 0] returns a number. *)
Lemma GetCollisionSeconds_zero_no_fault :
  GetCollisionSeconds lnFactor_double 0 = Ok 0.
Proof. reflexivity. Qed.

(** ** Dyadic numbers *)

Lemma pow2_pos (e : Z) : (0 < powerRZ 2 e)%R.
Proof. apply powerRZ_lt. lra. Qed.

Lemma pow2_add (a b : Z) : (powerRZ 2 (a + b) = powerRZ 2 a * powerRZ 2 b)%R.
Proof. apply powerRZ_add. lra. Qed.

Lemma pow2_IZR (a : Z) : 0 <= a -> powerRZ 2 a = IZR (2 ^ a).
Proof.
  intros Ha. rewrite <- (Z2Nat.id a) by assumption.
  rewrite <- pow_powerRZ, <- pow_IZR. reflexivity.
Qed.

Lemma pow2_le (a b : Z) : a <= b -> (powerRZ 2 a <= powerRZ 2 b)%R.
Proof.
  intros Hab. replace b with (a + (b - a)) by lia. rewrite pow2_add.
  rewrite (pow2_IZR (b - a)) by lia.
  assert (1 <= IZR (2 ^ (b - a)))%R.
  { apply IZR_le. pose proof (Z.pow_pos_nonneg 2 (b - a)). lia. }
  pose proof (pow2_pos a). nra.
Qed.

Lemma val_shift (m e k : Z) : 0 <= k -> val (m * 2 ^ k) (e - k) = val m e.
Proof.
  intros Hk. unfold val. rewrite mult_IZR, <- pow2_IZR by assumption.
  replace e with ((e - k) + k) at 2 by lia. rewrite pow2_add. ring.
Qed.

Lemma val_pos (m e : Z) : 0 < m -> (0 < val m e)%R.
Proof.
  intros Hm. unfold val. apply Rmult_lt_0_compat; [|apply pow2_pos].
  apply IZR_lt. exact Hm.
Qed.

Lemma val_le_same_exp (m1 m2 e : Z) : m1 <= m2 -> (val m1 e <= val m2 e)%R.
Proof.
  intros H. unfold val. apply Rmult_le_compat_r; [left; apply pow2_pos|].
  apply IZR_le. exact H.
Qed.

Lemma val_le_same_exp_inv (m1 m2 e : Z) : (val m1 e <= val m2 e)%R -> m1 <= m2.
Proof.
  unfold val. intros H. apply le_IZR.
  pose proof (pow2_pos e). nra.
Qed.

(** ** Rounding to nearest, ties to even *)

Lemma rnd_shift_arith (d n : Z) :
  1 <= d ->
  rnd_shift d n =
  if (2 ^ (d - 1) <? n mod 2 ^ d)
     || ((n mod 2 ^ d =? 2 ^ (d - 1)) && Z.odd (n / 2 ^ d))
  then n / 2 ^ d + 1 else n / 2 ^ d.
Proof.
  intros Hd. unfold rnd_shift.
  rewrite Z.shiftr_div_pow2, !Z.shiftl_mul_pow2 by lia.
  rewrite Z.mul_1_l.
  replace (n - n / 2 ^ d * 2 ^ d) with (n mod 2 ^ d)
    by (rewrite Z.mod_eq by (apply Z.pow_nonzero; lia); lia).
  reflexivity.
Qed.

(** Quotient, remainder and half of the divisor, with what ties them. *)
Lemma pow2_half (d : Z) : 1 <= d -> 2 ^ d = 2 * 2 ^ (d - 1) /\ 0 < 2 ^ (d - 1).
Proof.
  intros Hd. split; [|apply Z.pow_pos_nonneg; lia].
  replace d with (1 + (d - 1)) at 1 by lia.
  rewrite Z.pow_add_r by lia. reflexivity.
Qed.

Lemma rnd_shift_cases (d n : Z) :
  1 <= d ->
  exists q r h,
    n = q * (2 * h) + r /\ 0 <= r < 2 * h /\ 0 < h /\ h = 2 ^ (d - 1) /\
    q = n / 2 ^ d /\
    ((rnd_shift d n = q /\ (r < h \/ (r = h /\ Z.even q = true))) \/
     (rnd_shift d n = q + 1 /\ (h < r \/ (r = h /\ Z.odd q = true)))).
Proof.
  intros Hd. destruct (pow2_half d Hd) as [H2 Hh].
  exists (n / 2 ^ d), (n mod 2 ^ d), (2 ^ (d - 1)).
  pose proof (Z.div_mod n (2 ^ d) ltac:(lia)) as Hdm.
  pose proof (Z.mod_pos_bound n (2 ^ d) ltac:(lia)) as Hr.
  rewrite rnd_shift_arith by assumption.
  split; [lia|]. split; [lia|]. split; [lia|]. split; [reflexivity|].
  split; [reflexivity|].
  destruct (Z.ltb_spec (2 ^ (d - 1)) (n mod 2 ^ d)) as [Hlt|Hge]; simpl.
  - right. split; [reflexivity|]. left. lia.
  - destruct (Z.eqb_spec (n mod 2 ^ d) (2 ^ (d - 1))) as [Heq|Hne]; simpl.
    + destruct (Z.odd (n / 2 ^ d)) eqn:Hodd.
      * right. split; [reflexivity|]. right. auto.
      * left. split; [reflexivity|]. right. split; [assumption|].
        rewrite <- Z.negb_odd, Hodd. reflexivity.
    + left. split; [reflexivity|]. left. lia.
Qed.

Lemma rnd_shift_exact (d a : Z) : 1 <= d -> rnd_shift d (a * 2 ^ d) = a.
Proof.
  intros Hd. rewrite rnd_shift_arith by assumption.
  destruct (pow2_half d Hd) as [H2 Hh].
  rewrite Z.mod_mul, Z.div_mul by lia.
  destruct (Z.ltb_spec (2 ^ (d - 1)) 0); [lia|].
  destruct (Z.eqb_spec 0 (2 ^ (d - 1))); [lia|]. reflexivity.
Qed.

Lemma rnd_shift_mono (d n1 n2 : Z) :
  1 <= d -> n1 <= n2 -> rnd_shift d n1 <= rnd_shift d n2.
Proof.
  intros Hd Hn.
  destruct (rnd_shift_cases d n1 Hd)
    as (q1 & r1 & h & Hn1 & Hr1 & Hh & Hhd & Hq1 & Hc1).
  destruct (rnd_shift_cases d n2 Hd)
    as (q2 & r2 & h' & Hn2 & Hr2 & _ & Hhd' & Hq2 & Hc2).
  assert (h' = h) as -> by congruence.
  assert (q1 <= q2) by nia.
  destruct (Z.eq_dec q1 q2) as [->|Hne].
  - assert (r1 <= r2) by lia.
    destruct Hc1 as [[-> Hc1]|[-> Hc1]], Hc2 as [[-> Hc2]|[-> Hc2]]; try lia.
    destruct Hc1 as [?|[? Ho]], Hc2 as [?|[? He]]; try lia.
    rewrite <- Z.negb_odd, Ho in He. discriminate.
  - destruct Hc1 as [[-> _]|[-> _]], Hc2 as [[-> _]|[-> _]]; lia.
Qed.

Lemma rnd_shift_bounds (d n : Z) :
  1 <= d ->
  n - 2 ^ (d - 1) <= rnd_shift d n * 2 ^ d <= n + 2 ^ (d - 1).
Proof.
  intros Hd.
  destruct (rnd_shift_cases d n Hd)
    as (q & r & h & Hn & Hr & Hh & Hhd & Hq & Hc).
  destruct (pow2_half d Hd) as [H2 _]. rewrite H2, <- Hhd.
  destruct Hc as [[-> Hc]|[-> Hc]]; nia.
Qed.

Lemma rnd_shift_scale (d k n : Z) :
  1 <= d -> 0 <= k -> rnd_shift (d + k) (n * 2 ^ k) = rnd_shift d n.
Proof.
  intros Hd Hk. rewrite !rnd_shift_arith by lia.
  assert (0 < 2 ^ k) by (apply Z.pow_pos_nonneg; lia).
  assert (0 < 2 ^ d) by (apply Z.pow_pos_nonneg; lia).
  destruct (pow2_half d Hd) as [H2 Hh].
  replace (d + k - 1) with ((d - 1) + k) by lia.
  rewrite !Z.pow_add_r by lia.
  rewrite Z.div_mul_cancel_r by lia.
  rewrite Z.mul_mod_distr_r by lia.
  assert ((2 ^ (d - 1) * 2 ^ k <? n mod 2 ^ d * 2 ^ k)
          = (2 ^ (d - 1) <? n mod 2 ^ d)) as ->.
  { destruct (Z.ltb_spec (2 ^ (d - 1)) (n mod 2 ^ d)),
      (Z.ltb_spec (2 ^ (d - 1) * 2 ^ k) (n mod 2 ^ d * 2 ^ k)); nia. }
  assert ((n mod 2 ^ d * 2 ^ k =? 2 ^ (d - 1) * 2 ^ k)
          = (n mod 2 ^ d =? 2 ^ (d - 1))) as ->.
  { destruct (Z.eqb_spec (n mod 2 ^ d) (2 ^ (d - 1))),
      (Z.eqb_spec (n mod 2 ^ d * 2 ^ k) (2 ^ (d - 1) * 2 ^ k)); nia. }
  reflexivity.
Qed.

(** One more bit behind an odd numerator does not change the rounding. *)
Lemma rnd_shift_refine_odd (d T T' : Z) :
  2 <= d -> Z.odd T = true -> T' = 2 * T - 1 \/ T' = 2 * T + 1 ->
  rnd_shift (d + 1) T' = rnd_shift d T.
Proof.
  intros Hd Hodd HT'.
  apply Z.odd_spec in Hodd as [t Ht].
  destruct (rnd_shift_cases d T ltac:(lia))
    as (q & r & h & Hn & Hr & Hh & Hhd & Hq & Hc).
  destruct (rnd_shift_cases (d + 1) T' ltac:(lia))
    as (q' & r' & h' & Hn' & Hr' & Hh' & Hhd' & Hq' & Hc').
  replace (d + 1 - 1) with d in Hhd' by lia.
  destruct (pow2_half d ltac:(lia)) as [H2 _].
  destruct (pow2_half (d - 1) ltac:(lia)) as [H3 _].
  assert (h' = 2 * h) as -> by lia.
  set (h2 := 2 ^ (d - 1 - 1)) in *.
  assert (h = 2 * h2) as Hh2 by lia.
  assert (1 <= r <= 2 * h - 1) as Hrodd by lia.
  assert (q' = q /\ (r' = 2 * r - 1 \/ r' = 2 * r + 1)) as [-> Hr''].
  { destruct HT' as [->| ->].
    - destruct (Z.div_mod_unique (2 * (2 * h)) q' q r' (2 * r - 1));
        [lia|lia|lia|auto].
    - destruct (Z.div_mod_unique (2 * (2 * h)) q' q r' (2 * r + 1));
        [lia|lia|lia|auto]. }
  destruct Hc as [[-> Hc]|[-> Hc]], Hc' as [[-> Hc']|[-> Hc']]; lia.
Qed.

(** ** Bit lengths *)

Lemma BitLen_pos (m : Z) : 0 < m -> BitLen m = Z.log2 m + 1.
Proof.
  intros Hm. unfold BitLen. destruct (Z.eqb_spec m 0); [lia|].
  rewrite Z.abs_eq by lia. reflexivity.
Qed.

Lemma BitLen_spec (m : Z) :
  0 < m -> 1 <= BitLen m /\ 2 ^ (BitLen m - 1) <= m < 2 ^ BitLen m.
Proof.
  intros Hm. rewrite BitLen_pos by assumption.
  pose proof (Z.log2_nonneg m). pose proof (Z.log2_spec m Hm) as Hs.
  replace (Z.log2 m + 1 - 1) with (Z.log2 m) by lia.
  replace (Z.log2 m + 1) with (Z.succ (Z.log2 m)) by lia.
  split; [lia|exact Hs].
Qed.

Lemma BitLen_unique (m L : Z) :
  1 <= L -> 2 ^ (L - 1) <= m < 2 ^ L -> BitLen m = L.
Proof.
  intros HL Hm.
  assert (0 < m) by (pose proof (Z.pow_pos_nonneg 2 (L - 1)); lia).
  rewrite BitLen_pos by assumption.
  rewrite (Z.log2_unique m (L - 1)); [lia|lia|].
  replace (Z.succ (L - 1)) with L by lia. exact Hm.
Qed.

Lemma BitLen_mul_pow2 (m k : Z) :
  0 < m -> 0 <= k -> BitLen (m * 2 ^ k) = BitLen m + k.
Proof.
  intros Hm Hk. destruct (BitLen_spec m Hm) as [HL Hb].
  assert (0 < 2 ^ k) by (apply Z.pow_pos_nonneg; lia).
  apply BitLen_unique; [lia|].
  replace (BitLen m + k - 1) with ((BitLen m - 1) + k) by lia.
  rewrite !Z.pow_add_r by lia. nia.
Qed.

(** The binade of a positive number. *)
Lemma val_binade (m e : Z) :
  0 < m ->
  (powerRZ 2 (BitLen m + e - 1) <= val m e < powerRZ 2 (BitLen m + e))%R.
Proof.
  intros Hm. destruct (BitLen_spec m Hm) as [HL [Hlo Hhi]].
  unfold val.
  replace (BitLen m + e - 1) with ((BitLen m - 1) + e) by lia.
  rewrite !pow2_add, (pow2_IZR (BitLen m - 1)), (pow2_IZR (BitLen m)) by lia.
  pose proof (pow2_pos e).
  apply IZR_le in Hlo. apply IZR_lt in Hhi. split; nra.
Qed.

Lemma pow2_lt_inv (a b : Z) : (powerRZ 2 a < powerRZ 2 b)%R -> a < b.
Proof.
  intros H. destruct (Z_lt_le_dec a b) as [|Hge]; [assumption|].
  apply pow2_le in Hge. lra.
Qed.

Lemma val_le_binade (m1 e1 m2 e2 : Z) :
  0 < m1 -> 0 < m2 -> (val m1 e1 <= val m2 e2)%R ->
  BitLen m1 + e1 <= BitLen m2 + e2.
Proof.
  intros H1 H2 Hle.
  pose proof (val_binade m1 e1 H1). pose proof (val_binade m2 e2 H2).
  assert (BitLen m1 + e1 - 1 < BitLen m2 + e2); [|lia].
  apply pow2_lt_inv. lra.
Qed.

(** ** Rounding a number to a precision *)

Lemma round_lo (p m e : Z) : BitLen m <= p -> round p m e = (m, e).
Proof.
  intros H. unfold round. destruct (Z.leb_spec (BitLen m - p) 0); [reflexivity|lia].
Qed.

Lemma round_hi_val (p m e : Z) :
  1 <= p -> p < BitLen m ->
  val' (round p m e) = val (rnd_shift (BitLen m - p) m) (e + (BitLen m - p)).
Proof.
  intros Hp H. unfold round.
  destruct (Z.leb_spec (BitLen m - p) 0); [lia|].
  destruct (Z.eqb_spec (rnd_shift (BitLen m - p) m) (2 ^ p)) as [->|Hne];
    [|reflexivity].
  unfold val', val. simpl.
  replace (e + (BitLen m - p) + 1) with (1 + (e + (BitLen m - p))) by lia.
  rewrite pow2_add.
  destruct (pow2_half p Hp) as [-> _]. rewrite mult_IZR. simpl. ring_simplify.
  change (powerRZ 2 1) with (2 * 1)%R. ring.
Qed.

(** The numerator of a rounding stays between the powers of two around it. *)
Lemma rnd_shift_binade (p m : Z) :
  1 <= p -> 0 < m -> p < BitLen m ->
  2 ^ (p - 1) <= rnd_shift (BitLen m - p) m <= 2 ^ p.
Proof.
  intros Hp Hm H. destruct (BitLen_spec m Hm) as [_ [Hlo Hhi]].
  set (d := BitLen m - p) in *.
  replace (BitLen m - 1) with ((p - 1) + d) in Hlo by lia.
  replace (BitLen m) with (p + d) in Hhi by lia.
  rewrite Z.pow_add_r in Hlo, Hhi by lia.
  split.
  - transitivity (rnd_shift d (2 ^ (p - 1) * 2 ^ d));
      [rewrite rnd_shift_exact; lia|apply rnd_shift_mono; lia].
  - transitivity (rnd_shift d (2 ^ p * 2 ^ d));
      [apply rnd_shift_mono; lia|rewrite rnd_shift_exact; lia].
Qed.

Lemma round_bitlen (p m e : Z) :
  1 <= p -> 0 < m ->
  0 < (round p m e).1 /\ BitLen (round p m e).1 <= p.
Proof.
  intros Hp Hm. destruct (Z_le_gt_dec (BitLen m) p) as [Hle|Hgt].
  - rewrite round_lo by assumption. simpl. auto.
  - pose proof (rnd_shift_binade p m Hp Hm ltac:(lia)) as Hq.
    assert (0 < 2 ^ (p - 1)) by (apply Z.pow_pos_nonneg; lia).
    unfold round. destruct (Z.leb_spec (BitLen m - p) 0); [lia|].
    destruct (Z.eqb_spec (rnd_shift (BitLen m - p) m) (2 ^ p)) as [Heq|Hne];
      simpl.
    + split; [lia|]. rewrite (BitLen_unique (2 ^ (p - 1)) p); [lia|lia|].
      destruct (pow2_half p Hp). lia.
    + split; [lia|]. rewrite (BitLen_unique _ p); lia.
Qed.

Lemma round_binade (p m e : Z) :
  1 <= p -> 0 < m ->
  (powerRZ 2 (BitLen m + e - 1) <= val' (round p m e)
   <= powerRZ 2 (BitLen m + e))%R.
Proof.
  intros Hp Hm. destruct (Z_le_gt_dec (BitLen m) p) as [Hle|Hgt].
  - rewrite round_lo by assumption. pose proof (val_binade m e Hm).
    unfold val'. simpl. lra.
  - rewrite round_hi_val by lia.
    pose proof (rnd_shift_binade p m Hp Hm ltac:(lia)) as [Hlo Hhi].
    set (d := BitLen m - p) in *. unfold val.
    replace (BitLen m + e - 1) with ((p - 1) + (e + d)) by lia.
    replace (BitLen m + e) with (p + (e + d)) by lia.
    set (x := e + d).
    rewrite !pow2_add, (pow2_IZR (p - 1)), (pow2_IZR p) by lia.
    pose proof (pow2_pos x).
    apply IZR_le in Hlo. apply IZR_le in Hhi. split; nra.
Qed.

Lemma round_scale (p m e k : Z) :
  1 <= p -> 0 < m -> 0 <= k ->
  val' (round p (m * 2 ^ k) (e - k)) = val' (round p m e).
Proof.
  intros Hp Hm Hk.
  assert (0 < m * 2 ^ k) by (pose proof (Z.pow_pos_nonneg 2 k); nia).
  pose proof (BitLen_mul_pow2 m k Hm Hk) as HL.
  destruct (Z_le_gt_dec (BitLen m) p) as [Hle|Hgt].
  - rewrite (round_lo p m) by assumption.
    destruct (Z_le_gt_dec (BitLen (m * 2 ^ k)) p) as [Hle'|Hgt'].
    + rewrite round_lo by assumption. apply val_shift. exact Hk.
    + rewrite round_hi_val by lia. rewrite HL.
      set (d := BitLen m + k - p).
      replace (m * 2 ^ k) with (m * 2 ^ (k - d) * 2 ^ d)
        by (rewrite <- Z.mul_assoc, <- Z.pow_add_r by lia; do 2 f_equal; lia).
      rewrite rnd_shift_exact by lia.
      replace (e - k + d) with (e - (k - d)) by lia.
      apply val_shift. lia.
  - rewrite !round_hi_val by lia. rewrite HL.
    replace (BitLen m + k - p) with ((BitLen m - p) + k) by lia.
    rewrite rnd_shift_scale by lia. f_equal. lia.
Qed.

(** Rounding is monotone. *)
Lemma round_mono_same_exp (p m1 m2 e : Z) :
  1 <= p -> 0 < m1 -> m1 <= m2 -> BitLen m1 = BitLen m2 ->
  (val' (round p m1 e) <= val' (round p m2 e))%R.
Proof.
  intros Hp Hm1 Hle HL.
  destruct (Z_le_gt_dec (BitLen m1) p) as [Hlo|Hhi].
  - rewrite !round_lo by lia. apply val_le_same_exp. exact Hle.
  - rewrite !round_hi_val by lia. rewrite <- HL.
    apply val_le_same_exp. apply rnd_shift_mono; lia.
Qed.

Lemma round_mono (p m1 e1 m2 e2 : Z) :
  1 <= p -> 0 < m1 -> 0 < m2 -> (val m1 e1 <= val m2 e2)%R ->
  (val' (round p m1 e1) <= val' (round p m2 e2))%R.
Proof.
  intros Hp Hm1 Hm2 Hle.
  pose proof (val_le_binade m1 e1 m2 e2 Hm1 Hm2 Hle) as HE.
  destruct (Z.eq_dec (BitLen m1 + e1) (BitLen m2 + e2)) as [Heq|Hne].
  - (* same binade: compare on a common exponent *)
    set (e0 := Z.min e1 e2).
    rewrite <- (round_scale p m1 e1 (e1 - e0)) by lia.
    rewrite <- (round_scale p m2 e2 (e2 - e0)) by lia.
    replace (e1 - (e1 - e0)) with e0 by lia.
    replace (e2 - (e2 - e0)) with e0 by lia.
    assert (0 < 2 ^ (e1 - e0)) by (apply Z.pow_pos_nonneg; lia).
    assert (0 < 2 ^ (e2 - e0)) by (apply Z.pow_pos_nonneg; lia).
    apply round_mono_same_exp; [assumption|nia| |].
    + apply (val_le_same_exp_inv _ _ e0).
      assert (val (m1 * 2 ^ (e1 - e0)) e0 = val m1 e1) as ->
        by (rewrite <- (val_shift m1 e1 (e1 - e0)) by lia; f_equal; lia).
      assert (val (m2 * 2 ^ (e2 - e0)) e0 = val m2 e2) as ->
        by (rewrite <- (val_shift m2 e2 (e2 - e0)) by lia; f_equal; lia).
      exact Hle.
    + rewrite !BitLen_mul_pow2 by lia. lia.
  - (* different binades: a power of two lies between *)
    pose proof (round_binade p m1 e1 Hp Hm1) as [_ H1].
    pose proof (round_binade p m2 e2 Hp Hm2) as [H2 _].
    pose proof (pow2_le (BitLen m1 + e1) (BitLen m2 + e2 - 1) ltac:(lia)).
    lra.
Qed.

(** Rounding exceeds the number by at most the fraction [2 ^ -p] of it. *)
Lemma round_upper (p m e : Z) :
  1 <= p -> 0 < m ->
  (val' (round p m e) <= val m e * (1 + powerRZ 2 (- p)))%R.
Proof.
  intros Hp Hm. pose proof (val_pos m e Hm). pose proof (pow2_pos (- p)).
  destruct (Z_le_gt_dec (BitLen m) p) as [Hle|Hgt].
  - rewrite round_lo by assumption. unfold val'. simpl. nra.
  - rewrite round_hi_val by lia.
    destruct (BitLen_spec m Hm) as [_ [Hlo _]].
    set (d := BitLen m - p) in *.
    pose proof (rnd_shift_bounds d m ltac:(lia)) as [_ Hq].
    unfold val in *. rewrite pow2_add, (pow2_IZR d) by lia.
    apply IZR_le in Hq. rewrite mult_IZR, plus_IZR in Hq.
    assert (IZR (2 ^ (d - 1)) <= IZR m * powerRZ 2 (- p))%R as Hhalf.
    { replace (BitLen m - 1) with (p + (d - 1)) in Hlo by lia.
      rewrite Z.pow_add_r in Hlo by lia.
      apply IZR_le in Hlo. rewrite mult_IZR in Hlo.
      rewrite <- (pow2_IZR p) in Hlo by lia.
      assert (powerRZ 2 p * powerRZ 2 (- p) = 1)%R as Hinv.
      { rewrite <- pow2_add. replace (p + - p) with 0 by lia. reflexivity. }
      assert (0 <= IZR (2 ^ (d - 1)))%R
        by (apply IZR_le, Z.pow_nonneg; lia).
      nra. }
    pose proof (pow2_pos e). nra.
Qed.

(** ** Square roots *)

Lemma sqrt_sticky_cases (N : Z) :
  0 <= N ->
  exists root,
    root = Z.sqrt N /\ 0 <= root /\ root * root <= N < (root + 1) * (root + 1) /\
    ((N = root * root /\ sqrt_sticky N = 2 * root) \/
     (root * root < N /\ sqrt_sticky N = 2 * root + 1)).
Proof.
  intros HN. exists (Z.sqrt N). pose proof (Z.sqrt_spec N HN) as Hs.
  pose proof (Z.sqrt_nonneg N).
  split; [reflexivity|]. split; [assumption|].
  cbv zeta in Hs. unfold Z.succ in Hs.
  split; [lia|].
  unfold sqrt_sticky. destruct (Z.eqb_spec (Z.sqrt N * Z.sqrt N) N).
  - left. split; lia.
  - right. split; lia.
Qed.

Lemma sqrt_sticky_mono (N1 N2 : Z) :
  0 <= N1 -> N1 <= N2 -> sqrt_sticky N1 <= sqrt_sticky N2.
Proof.
  intros H1 Hle.
  destruct (sqrt_sticky_cases N1 H1) as (r1 & Hr1 & Hp1 & Hs1 & Hc1).
  destruct (sqrt_sticky_cases N2 ltac:(lia)) as (r2 & Hr2 & Hp2 & Hs2 & Hc2).
  assert (r1 <= r2) by (subst; apply Z.sqrt_le_mono; assumption).
  destruct Hc1 as [[? ->]|[? ->]], Hc2 as [[? ->]|[? ->]]; nia.
Qed.

(** Two more bits of the radicand refine the root by one bit. *)
Lemma sqrt_sticky_refine (N : Z) :
  0 < N ->
  sqrt_sticky (4 * N) = 2 * sqrt_sticky N \/
  (Z.odd (sqrt_sticky N) = true /\
   (sqrt_sticky (4 * N) = 2 * sqrt_sticky N - 1 \/
    sqrt_sticky (4 * N) = 2 * sqrt_sticky N + 1)).
Proof.
  intros HN.
  destruct (sqrt_sticky_cases N ltac:(lia)) as (r & Hr & Hp & Hs & Hc).
  destruct (sqrt_sticky_cases (4 * N) ltac:(lia)) as (r' & Hr' & Hp' & Hs' & Hc').
  assert (r' = 2 * r \/ r' = 2 * r + 1) as Hrr by nia.
  destruct Hc as [[HNr ->]|[HNr ->]].
  - left. destruct Hc' as [[? ->]|[? ->]]; nia.
  - right. split.
    + rewrite Z.add_comm, Z.odd_add_mul_2. reflexivity.
    + destruct Hc' as [[? ->]|[? ->]]; [nia|]. lia.
Qed.

Lemma sqrt_sticky_pos (N : Z) : 0 < N -> 0 < sqrt_sticky N.
Proof.
  intros HN.
  destruct (sqrt_sticky_cases N ltac:(lia)) as (r & Hr & Hp & Hs & Hc).
  destruct Hc as [[? ->]|[? ->]]; nia.
Qed.

Lemma BitLen_double (T : Z) : 0 < T -> BitLen (2 * T) = BitLen T + 1.
Proof.
  intros HT. replace (2 * T) with (T * 2 ^ 1) by lia.
  apply BitLen_mul_pow2; lia.
Qed.

Lemma BitLen_double_odd (T T' : Z) :
  0 < T -> Z.odd T = true -> T' = 2 * T - 1 \/ T' = 2 * T + 1 ->
  2 <= BitLen T -> BitLen T' = BitLen T + 1.
Proof.
  intros HT Hodd HT' HL. apply Z.odd_spec in Hodd as [t Ht].
  destruct (BitLen_spec T HT) as [_ [Hlo Hhi]].
  destruct (pow2_half (BitLen T) ltac:(lia)) as [H2 Hh].
  destruct (pow2_half (BitLen T - 1) ltac:(lia)) as [H3 Hh3].
  apply BitLen_unique; [lia|].
  replace (BitLen T + 1 - 1) with (BitLen T) by lia.
  rewrite Z.pow_add_r by lia. change (2 ^ 1) with 2.
  destruct HT' as [->| ->]; lia.
Qed.

(** Rounding the refined root gives the same number. *)
Lemma round_sqrt_refine (p N e : Z) :
  1 <= p -> 0 < N -> p + 2 <= BitLen (sqrt_sticky N) ->
  val' (round p (sqrt_sticky (4 * N)) (e - 1))
  = val' (round p (sqrt_sticky N) e)
  /\ p + 2 <= BitLen (sqrt_sticky (4 * N)).
Proof.
  intros Hp HN HL. pose proof (sqrt_sticky_pos N HN) as HT.
  destruct (sqrt_sticky_refine N HN) as [Heq|[Hodd HT']].
  - rewrite Heq. split.
    + replace (2 * sqrt_sticky N) with (sqrt_sticky N * 2 ^ 1) by lia.
      apply round_scale; lia.
    + rewrite BitLen_double by assumption. lia.
  - pose proof (BitLen_double_odd _ _ HT Hodd HT' ltac:(lia)) as HL'.
    split; [|lia].
    rewrite !round_hi_val by lia. rewrite HL'.
    replace (BitLen (sqrt_sticky N) + 1 - p)
      with ((BitLen (sqrt_sticky N) - p) + 1) by lia.
    rewrite (rnd_shift_refine_odd _ (sqrt_sticky N)) by (assumption || lia).
    f_equal. lia.
Qed.

Lemma round_sqrt_refine_iter (n : nat) (p N e : Z) :
  1 <= p -> 0 < N -> p + 2 <= BitLen (sqrt_sticky N) ->
  val' (round p (sqrt_sticky (N * 4 ^ Z.of_nat n)) (e - Z.of_nat n))
  = val' (round p (sqrt_sticky N) e)
  /\ p + 2 <= BitLen (sqrt_sticky (N * 4 ^ Z.of_nat n)).
Proof.
  intros Hp HN HL. induction n as [|n [IHv IHl]].
  - simpl. rewrite Z.mul_1_r, Z.sub_0_r. auto.
  - rewrite Nat2Z.inj_succ, Z.pow_succ_r by lia.
    assert (0 < 4 ^ Z.of_nat n) by (apply Z.pow_pos_nonneg; lia).
    replace (N * (4 * 4 ^ Z.of_nat n)) with (4 * (N * 4 ^ Z.of_nat n)) by lia.
    replace (e - Z.succ (Z.of_nat n)) with ((e - Z.of_nat n) - 1) by lia.
    destruct (round_sqrt_refine p (N * 4 ^ Z.of_nat n) (e - Z.of_nat n))
      as [Hv Hl]; [lia|nia|assumption|].
    split; [congruence|assumption].
Qed.

Lemma sqrt_round_unfold (p m e : Z) :
  sqrt_round p m e =
  round p (sqrt_sticky (m * 2 ^ sqrt_scale p m e))
        ((e - sqrt_scale p m e) / 2 - 1).
Proof. reflexivity. Qed.

Lemma BitLen_ge (T L : Z) : 0 < T -> 2 ^ (L - 1) <= T -> L <= BitLen T.
Proof.
  intros HT H. destruct (BitLen_spec T HT) as [H1 [_ Hhi]].
  destruct (Z_le_gt_dec L (BitLen T)) as [|Hgt]; [assumption|].
  assert (2 ^ BitLen T <= 2 ^ (L - 1)) by (apply Z.pow_le_mono_r; lia). lia.
Qed.

Lemma sqrt_scale_spec (p m e : Z) :
  1 <= p -> 0 < m -> BitLen m <= 2 * p + 2 ->
  exists j,
    0 <= sqrt_scale p m e /\ e - sqrt_scale p m e = 2 * j /\
    2 ^ (2 * p + 1) <= m * 2 ^ sqrt_scale p m e < 2 ^ (2 * p + 3).
Proof.
  intros Hp Hm HL. unfold sqrt_scale.
  rewrite Z.max_r by lia. set (k0 := 2 * p + 2 - BitLen m).
  assert (forall k, (k = k0 \/ k = k0 + 1) ->
                    2 ^ (2 * p + 1) <= m * 2 ^ k < 2 ^ (2 * p + 3)) as Hrange.
  { intros k Hk.
    assert (0 < m * 2 ^ k) as HN
      by (pose proof (Z.pow_pos_nonneg 2 k ltac:(lia) ltac:(lia)); nia).
    destruct (BitLen_spec _ HN) as [_ [Hlo Hhi]].
    rewrite BitLen_mul_pow2 in Hlo, Hhi by lia.
    assert (2 ^ (2 * p + 1) <= 2 ^ (BitLen m + k - 1))
      by (apply Z.pow_le_mono_r; lia).
    assert (2 ^ (BitLen m + k) <= 2 ^ (2 * p + 3))
      by (apply Z.pow_le_mono_r; lia).
    lia. }
  destruct (Z.odd (e - k0)) eqn:Hodd.
  - apply Z.odd_spec in Hodd as [j Hj]. exists j.
    split; [lia|]. split; [lia|]. apply Hrange. auto.
  - rewrite <- Z.negb_even in Hodd. apply negb_false_iff in Hodd.
    apply Z.even_spec in Hodd as [j Hj]. exists j.
    split; [lia|]. split; [lia|]. apply Hrange. auto.
Qed.

Lemma sqrt_sticky_bitlen (p N : Z) :
  1 <= p -> 2 ^ (2 * p + 1) <= N ->
  2 ^ p <= Z.sqrt N /\ p + 2 <= BitLen (sqrt_sticky N).
Proof.
  intros Hp HN.
  assert (0 < 2 ^ p) by (apply Z.pow_pos_nonneg; lia).
  assert (2 ^ (2 * p + 1) = 2 * (2 ^ p * 2 ^ p)) as H2
    by (rewrite <- Z.pow_add_r, <- Z.pow_succ_r by lia; f_equal; lia).
  assert (0 < N) by nia.
  assert (2 ^ p <= Z.sqrt N) as Hroot
    by (apply Z.sqrt_le_square; nia).
  split; [exact Hroot|].
  destruct (sqrt_sticky_cases N ltac:(lia)) as (r & Hr & Hp' & Hs & Hc).
  apply BitLen_ge; [apply sqrt_sticky_pos; assumption|].
  replace (p + 2 - 1) with (Z.succ p) by lia. rewrite Z.pow_succ_r by lia.
  subst r. destruct Hc as [[? ->]|[? ->]]; lia.
Qed.

(** [sqrt_round] through the scaled radicand [N] and the half exponent [j]. *)
Lemma sqrt_round_canon (p m e : Z) :
  1 <= p -> 0 < m -> BitLen m <= 2 * p + 2 ->
  exists N j,
    sqrt_round p m e = round p (sqrt_sticky N) (j - 1) /\
    val m e = val N (2 * j) /\
    2 ^ (2 * p + 1) <= N < 2 ^ (2 * p + 3) /\
    N = m * 2 ^ sqrt_scale p m e /\ e - sqrt_scale p m e = 2 * j.
Proof.
  intros Hp Hm HL.
  destruct (sqrt_scale_spec p m e Hp Hm HL) as (j & Hk & Hj & HN).
  exists (m * 2 ^ sqrt_scale p m e), j.
  split; [|split; [|split; [exact HN|split; [reflexivity|exact Hj]]]].
  - rewrite sqrt_round_unfold, Hj. do 2 f_equal.
    rewrite Z.mul_comm, Z.div_mul by lia. reflexivity.
  - rewrite <- Hj. symmetry. apply val_shift. exact Hk.
Qed.

Lemma sqrt_round_mono (p m1 e1 m2 e2 : Z) :
  1 <= p -> 0 < m1 -> 0 < m2 ->
  BitLen m1 <= 2 * p + 2 -> BitLen m2 <= 2 * p + 2 ->
  (val m1 e1 <= val m2 e2)%R ->
  (val' (sqrt_round p m1 e1) <= val' (sqrt_round p m2 e2))%R.
Proof.
  intros Hp Hm1 Hm2 HL1 HL2 Hle.
  destruct (sqrt_round_canon p m1 e1 Hp Hm1 HL1)
    as (N1 & j1 & -> & Hv1 & HN1 & _ & _).
  destruct (sqrt_round_canon p m2 e2 Hp Hm2 HL2)
    as (N2 & j2 & -> & Hv2 & HN2 & _ & _).
  rewrite Hv1, Hv2 in Hle.
  assert (0 < 2 ^ (2 * p + 1)) by (apply Z.pow_pos_nonneg; lia).
  assert (0 < N1) by lia. assert (0 < N2) by lia.
  assert (forall N, 2 ^ (2 * p + 1) <= N < 2 ^ (2 * p + 3) ->
                    2 * p + 2 <= BitLen N <= 2 * p + 3) as HBL.
  { intros N HN. assert (0 < N) as HNpos by lia.
    destruct (BitLen_spec N HNpos) as [_ [Hlo Hhi]]. split.
    - apply BitLen_ge; [assumption|].
      replace (2 * p + 2 - 1) with (2 * p + 1) by lia. lia.
    - destruct (Z_le_gt_dec (BitLen N) (2 * p + 3)) as [|Hgt]; [assumption|].
      assert (2 ^ (2 * p + 3) <= 2 ^ (BitLen N - 1))
        by (apply Z.pow_le_mono_r; lia). lia. }
  pose proof (val_le_binade N1 (2 * j1) N2 (2 * j2) ltac:(assumption)
                ltac:(assumption) Hle).
  pose proof (HBL N1 HN1). pose proof (HBL N2 HN2).
  assert (j1 <= j2) as Hj by lia.
  destruct (round_sqrt_refine_iter (Z.to_nat (j2 - j1)) p N2 (j2 - 1))
    as [Hv _]; [assumption|assumption| |].
  { apply (sqrt_sticky_bitlen p N2); lia. }
  rewrite Z2Nat.id in Hv by lia. rewrite <- Hv.
  replace (j2 - 1 - (j2 - j1)) with (j1 - 1) by lia.
  assert (0 < 4 ^ (j2 - j1)) by (apply Z.pow_pos_nonneg; lia).
  apply round_mono; [assumption|apply sqrt_sticky_pos; assumption
                    |apply sqrt_sticky_pos; nia|].
  apply val_le_same_exp. apply sqrt_sticky_mono; [lia|].
  apply (val_le_same_exp_inv _ _ (2 * j1)).
  assert (val (N2 * 4 ^ (j2 - j1)) (2 * j1) = val N2 (2 * j2)) as ->.
  { change 4 with (2 ^ 2). rewrite <- Z.pow_mul_r by lia.
    rewrite <- (val_shift N2 (2 * j2) (2 * (j2 - j1))) by lia.
    f_equal. lia. }
  exact Hle.
Qed.

Lemma BitLen_le (T L : Z) : 0 < T -> 0 <= L -> T < 2 ^ L -> BitLen T <= L.
Proof.
  intros HT HL H. destruct (BitLen_spec T HT) as [H1 [Hlo _]].
  destruct (Z_le_gt_dec (BitLen T) L) as [|Hgt]; [assumption|].
  assert (2 ^ L <= 2 ^ (BitLen T - 1)) by (apply Z.pow_le_mono_r; lia). lia.
Qed.

(** The rounded root of the square of a number that fits the precision
    is that number. *)
Lemma sqrt_round_square (p k : Z) :
  1 <= p -> 0 < k -> BitLen k <= p ->
  val' (sqrt_round p (k * k) 0) = IZR k.
Proof.
  intros Hp Hk HL.
  destruct (BitLen_spec k Hk) as [_ [_ Hhi]].
  assert (2 ^ BitLen k <= 2 ^ p) by (apply Z.pow_le_mono_r; lia).
  assert (2 ^ (2 * p) = 2 ^ p * 2 ^ p)
    by (rewrite <- Z.pow_add_r by lia; f_equal; lia).
  assert (BitLen (k * k) <= 2 * p + 2).
  { assert (BitLen (k * k) <= 2 * p); [|lia]. apply BitLen_le; nia. }
  destruct (sqrt_round_canon p (k * k) 0 Hp ltac:(nia) ltac:(assumption))
    as (N & j & -> & _ & _ & HN & Hj).
  destruct (sqrt_scale_spec p (k * k) 0 Hp ltac:(nia) ltac:(assumption))
    as (j' & Hs & _ & _).
  set (K := sqrt_scale p (k * k) 0) in *.
  assert (K = 2 * (- j)) as HK by lia.
  assert (0 <= - j) by lia.
  assert (0 < 2 ^ (- j)) by (apply Z.pow_pos_nonneg; lia).
  assert (N = (k * 2 ^ (- j)) * (k * 2 ^ (- j))) as HNsq.
  { rewrite HN, HK. replace (2 * - j) with (- j + - j) by lia.
    rewrite Z.pow_add_r by lia. ring. }
  assert (sqrt_sticky N = k * 2 ^ (- j + 1)) as ->.
  { destruct (sqrt_sticky_cases N ltac:(nia)) as (r & Hr & Hp' & Hsq & Hc).
    assert (r = k * 2 ^ (- j)) as Hrk by nia.
    rewrite Z.pow_add_r by lia. change (2 ^ 1) with 2.
    destruct Hc as [[? ->]|[? ->]]; nia. }
  replace (j - 1) with (0 - (- j + 1)) by lia.
  rewrite round_scale by lia. rewrite round_lo by assumption.
  unfold val', val. simpl. lra.
Qed.

(** A root is at least [k] as soon as the radicand is at least [k * k]. *)
Lemma sqrt_round_ge (p m e k : Z) :
  1 <= p -> 0 < m -> BitLen m <= 2 * p + 2 -> 0 < k -> BitLen k <= p ->
  (IZR (k * k) <= val m e)%R ->
  (IZR k <= val' (sqrt_round p m e))%R.
Proof.
  intros Hp Hm HL Hk HLk Hle.
  rewrite <- (sqrt_round_square p k) by assumption.
  destruct (BitLen_spec k Hk) as [_ [_ Hhi]].
  assert (2 ^ BitLen k <= 2 ^ p) by (apply Z.pow_le_mono_r; lia).
  assert (2 ^ (2 * p) = 2 ^ p * 2 ^ p)
    by (rewrite <- Z.pow_add_r by lia; f_equal; lia).
  apply sqrt_round_mono; try assumption; [nia| |].
  - assert (BitLen (k * k) <= 2 * p); [|lia]. apply BitLen_le; nia.
  - unfold val at 1. simpl. lra.
Qed.

(** The square of a rounded root exceeds the radicand by little. *)
Lemma sqrt_round_upper (p m e : Z) :
  1 <= p -> 0 < m -> BitLen m <= 2 * p + 2 ->
  (0 < val' (sqrt_round p m e) /\
   val' (sqrt_round p m e) * val' (sqrt_round p m e)
   <= val m e * ((1 + powerRZ 2 (- p)) * (1 + powerRZ 2 (- p))
                 * (1 + powerRZ 2 (- p))))%R.
Proof.
  intros Hp Hm HL.
  destruct (sqrt_round_canon p m e Hp Hm HL) as (N & j & -> & -> & HN & _ & _).
  assert (0 < 2 ^ (2 * p + 1)) by (apply Z.pow_pos_nonneg; lia).
  assert (0 < N) as HNpos by lia.
  pose proof (sqrt_sticky_pos N HNpos) as HT.
  destruct (sqrt_sticky_bitlen p N Hp ltac:(lia)) as [Hroot _].
  destruct (sqrt_sticky_cases N ltac:(lia)) as (r & Hr & Hr0 & Hsq & Hc).
  rewrite <- Hr in Hroot.
  set (T := sqrt_sticky N) in *.
  pose proof (round_upper p T (j - 1) Hp HT) as Hup.
  pose proof (round_binade p T (j - 1) Hp HT) as [Hlow _].
  pose proof (pow2_pos (BitLen T + (j - 1) - 1)) as Hpos.
  set (s := val' (round p T (j - 1))) in *.
  set (eps := powerRZ 2 (- p)) in *.
  assert (0 < eps)%R as Heps by apply pow2_pos.
  split; [lra|].
  (* the root with its extra bit, squared *)
  assert (T * T <= 4 * N + 4 * r) as HTT by (destruct Hc as [[? ->]|[? ->]]; nia).
  assert (r * 2 ^ p <= N) as Hrp by nia.
  apply IZR_le in HTT, Hrp.
  rewrite plus_IZR, !mult_IZR in HTT. rewrite mult_IZR in Hrp.
  rewrite <- (pow2_IZR p) in Hrp by lia.
  assert (powerRZ 2 p * eps = 1)%R as Hinv.
  { unfold eps. rewrite <- pow2_add. replace (p + - p) with 0 by lia.
    reflexivity. }
  assert (0 <= IZR r)%R as Hr0' by (apply IZR_le; assumption).
  assert (IZR r <= IZR N * eps)%R as Hreps.
  { pose proof (pow2_pos p). 
    assert (IZR r = IZR r * powerRZ 2 p * eps)%R as -> by (rewrite Rmult_assoc, Hinv; ring).
    apply Rmult_le_compat_r; lra. }
  assert (0 < IZR N)%R as HNR by (apply IZR_lt; assumption).
  assert (0 < IZR T)%R as HTR by (apply IZR_lt; assumption).
  set (z := val T (j - 1)) in *.
  assert (z * z <= val N (2 * j) * (1 + eps))%R as Hz.
  { unfold z, val.
    replace (2 * j) with ((j - 1) + (j - 1) + 2) by lia.
    rewrite !pow2_add. change (powerRZ 2 2) with (2 * (2 * 1))%R.
    pose proof (pow2_pos (j - 1)) as Hq.
    set (q := powerRZ 2 (j - 1)) in *.
    assert (0 < q * q)%R by nra.
    assert (IZR T * IZR T <= 4 * IZR N * (1 + eps))%R by nra.
    replace (IZR T * q * (IZR T * q))%R with (IZR T * IZR T * (q * q))%R by ring.
    replace (IZR N * (q * q * (2 * (2 * 1))) * (1 + eps))%R
      with (4 * IZR N * (1 + eps) * (q * q))%R by ring.
    apply Rmult_le_compat_r; lra. }
  assert (0 < z)%R as Hzpos by (apply val_pos; assumption).
  assert (0 < s)%R as Hspos by lra.
  assert (s * s <= z * z * ((1 + eps) * (1 + eps)))%R.
  { replace (z * z * ((1 + eps) * (1 + eps)))%R
      with ((z * (1 + eps)) * (z * (1 + eps)))%R by ring.
    apply Rmult_le_compat; lra. }
  assert (z * z * ((1 + eps) * (1 + eps))
          <= val N (2 * j) * (1 + eps) * ((1 + eps) * (1 + eps)))%R.
  { apply Rmult_le_compat_r; [nra|exact Hz]. }
  lra.
Qed.

(** ** Truncation *)

Lemma trunc_spec (m e : Z) :
  0 < m -> (IZR (trunc m e) <= val m e < IZR (trunc m e) + 1)%R.
Proof.
  intros Hm. unfold trunc, val. destruct (Z.leb_spec 0 e) as [He|He].
  - rewrite mult_IZR, <- pow2_IZR by assumption. lra.
  - assert (0 < 2 ^ (- e)) as Hpos by (apply Z.pow_pos_nonneg; lia).
    pose proof (Z.div_mod m (2 ^ (- e)) ltac:(lia)) as Hdm.
    pose proof (Z.mod_pos_bound m (2 ^ (- e)) Hpos) as Hr.
    set (q := m / 2 ^ (- e)) in *. set (r := m mod 2 ^ (- e)) in *.
    assert (powerRZ 2 (- e) * powerRZ 2 e = 1)%R as Hinv.
    { rewrite <- pow2_add. replace (- e + e) with 0 by lia. reflexivity. }
    rewrite pow2_IZR in Hinv by lia.
    assert (IZR m = IZR (2 ^ (- e)) * IZR q + IZR r)%R as HmR
      by (rewrite <- mult_IZR, <- plus_IZR; f_equal; exact Hdm).
    assert (0 <= IZR r < IZR (2 ^ (- e)))%R as HrR
      by (split; [apply IZR_le|apply IZR_lt]; lia).
    pose proof (pow2_pos e) as Hq.
    set (u := powerRZ 2 e) in *. set (P := IZR (2 ^ (- e))) in *.
    assert (IZR m * u = IZR q + IZR r * u)%R as ->
      by (rewrite HmR; replace ((P * IZR q + IZR r) * u)%R
            with (IZR q * (P * u) + IZR r * u)%R by ring; rewrite Hinv; ring).
    assert (0 <= IZR r * u)%R by nra.
    assert (IZR r * u < P * u)%R by nra.
    lra.
Qed.

Lemma trunc_mono (m1 e1 m2 e2 : Z) :
  0 < m1 -> 0 < m2 -> (val m1 e1 <= val m2 e2)%R ->
  trunc m1 e1 <= trunc m2 e2.
Proof.
  intros H1 H2 Hle.
  pose proof (trunc_spec m1 e1 H1). pose proof (trunc_spec m2 e2 H2).
  assert (IZR (trunc m1 e1) < IZR (trunc m2 e2) + 1)%R as Hlt by lra.
  rewrite <- plus_IZR in Hlt. apply lt_IZR in Hlt. lia.
Qed.

(** ** The range of the exponent *)

(** Rounding keeps the exponent of the fraction or raises it by one. *)
Lemma round_exponent (p m e : Z) :
  1 <= p -> 0 < m ->
  BitLen m + e <= BitLen (round p m e).1 + (round p m e).2 <= BitLen m + e + 1.
Proof.
  intros Hp Hm.
  pose proof (round_bitlen p m e Hp Hm) as [Hpos _].
  pose proof (round_binade p m e Hp Hm) as [Hlo Hhi].
  destruct (round p m e) as [m' e']. unfold val' in *. simpl in *.
  pose proof (val_binade m' e' Hpos) as [Hlo' Hhi'].
  assert (powerRZ 2 (BitLen m + e) < powerRZ 2 (BitLen m + e + 1))%R as Hstep.
  { set (x := BitLen m + e). rewrite pow2_add.
    change (powerRZ 2 1) with (2 * 1)%R. pose proof (pow2_pos x). lra. }
  assert (BitLen m + e - 1 < BitLen m' + e') by (apply pow2_lt_inv; lra).
  assert (BitLen m' + e' - 1 < BitLen m + e + 1) by (apply pow2_lt_inv; lra).
  lia.
Qed.

(** What [setExpAndRound] makes of a positive mantissa. *)
Lemma finite_rounded_cases (p : Z) (sign : bool) (m e : Z) :
  1 <= p -> 0 < m ->
  (BitLen m + e < MinExp /\
   finite_rounded p sign m e = mkFloat p sign zero 0 0) \/
  (MaxExp <= BitLen m + e /\
   finite_rounded p sign m e = mkFloat p sign inf 0 0) \/
  (exists m' e',
      finite_rounded p sign m e = mkFloat p sign finite m' e' /\
      round p m e = (m', e') /\ 0 < m' /\ BitLen m' <= p /\
      MinExp <= BitLen m + e <= MaxExp /\
      BitLen m + e <= BitLen m' + e' <= MaxExp).
Proof.
  intros Hp Hm. unfold finite_rounded.
  pose proof (round_bitlen p m e Hp Hm) as [Hpos HL].
  pose proof (round_exponent p m e Hp Hm) as Hexp.
  destruct (Z.ltb_spec (BitLen m + e) MinExp) as [|Hmin]; [auto|].
  destruct (Z.ltb_spec MaxExp (BitLen m + e)) as [|Hmax]; [right; left; split; [lia|reflexivity]|].
  destruct (round p m e) as [m' e']. simpl in *.
  destruct (Z.ltb_spec MaxExp (BitLen m' + e')) as [Hover|Hin].
  - right. left. split; [lia|reflexivity].
  - right. right. exists m', e'. repeat split; auto; lia.
Qed.

(** Within the range the result is the rounded mantissa. *)
Lemma finite_rounded_in_range (p : Z) (sign : bool) (m e : Z) :
  1 <= p -> 0 < m -> MinExp <= BitLen m + e < MaxExp ->
  finite_rounded p sign m e
  = mkFloat p sign finite (round p m e).1 (round p m e).2.
Proof.
  intros Hp Hm He.
  destruct (finite_rounded_cases p sign m e Hp Hm)
    as [[? _]|[[? _]|(m' & e' & -> & -> & _)]]; [lia|lia|reflexivity].
Qed.

Lemma finite_rounded_exact (p : Z) (sign : bool) (m e : Z) :
  BitLen m <= p -> MinExp <= BitLen m + e <= MaxExp ->
  finite_rounded p sign m e = mkFloat p sign finite m e.
Proof.
  intros HL He. unfold finite_rounded. rewrite round_lo by assumption.
  destruct (Z.ltb_spec (BitLen m + e) MinExp); [lia|].
  destruct (Z.ltb_spec MaxExp (BitLen m + e)); [lia|reflexivity].
Qed.

(** The bit length of a product with a mantissa of 53 bits. *)
Lemma BitLen_mul_53 (M mc : Z) :
  0 < M -> 2 ^ 52 <= mc < 2 ^ 53 ->
  BitLen M + 52 <= BitLen (M * mc) <= BitLen M + 53.
Proof.
  intros HM Hmc. destruct (BitLen_spec M HM) as [HL [Hlo Hhi]].
  assert (0 < M * mc) as Hpos by nia.
  split.
  - apply BitLen_ge; [assumption|].
    replace (BitLen M + 52 - 1) with ((BitLen M - 1) + 52) by lia.
    rewrite Z.pow_add_r by lia. nia.
  - apply BitLen_le; [assumption|lia|].
    rewrite Z.pow_add_r by lia. nia.
Qed.

Lemma trunc_nonneg (m e : Z) : 0 < m -> 0 <= trunc m e.
Proof.
  intros Hm. pose proof (trunc_spec m e Hm) as [_ Hlt].
  pose proof (val_pos m e Hm).
  assert (0 < IZR (trunc m e) + 1)%R as H0 by lra.
  rewrite <- plus_IZR in H0. apply lt_IZR in H0. lia.
Qed.

Lemma sqrt_round_pos (p m e : Z) :
  1 <= p -> 0 < m -> BitLen m <= p -> 0 < (sqrt_round p m e).1.
Proof.
  intros Hp Hm HL.
  destruct (sqrt_round_canon p m e Hp Hm ltac:(lia))
    as (N & j & -> & _ & HN & _ & _).
  assert (0 < 2 ^ (2 * p + 1)) by (apply Z.pow_pos_nonneg; lia).
  apply round_bitlen; [assumption|]. apply sqrt_sticky_pos. lia.
Qed.

(** ** The estimate at a given precision *)

(** Short of 2^31 bits the space is taken as it is, and no later rounding
    leaves the range of the exponent. *)
Lemma GetCollisionSeconds_estimate (lnFactor : float64) (M : Z) :
  lnFactor_range lnFactor -> 0 < M -> BitLen M < 2 ^ 31 ->
  GetCollisionSeconds lnFactor M
  = Ok (estimate (f64_mant lnFactor) (Z.max (BitLen M) 64) M).
Proof.
  intros [He [Hlo Hhi]] HM HL.
  destruct (BitLen_spec M HM) as [HL1 _].
  pose proof (BitLen_mul_53 M (f64_mant lnFactor) HM ltac:(lia)) as HLp.
  unfold GetCollisionSeconds, Float_SetInt, Float_SetFloat64, f64_double, estimate.
  cbn [f64_mant f64_exp].
  destruct (Z.eqb_spec M 0) as [|_]; [lia|].
  destruct (Z.eqb_spec (f64_mant lnFactor) 0) as [|_]; [lia|].
  destruct (Z.ltb_spec M 0) as [|_]; [lia|].
  destruct (Z.ltb_spec (f64_mant lnFactor) 0) as [|_]; [lia|].
  rewrite (Z.mod_small (BitLen M)) by lia.
  rewrite !Z.abs_eq by lia.
  rewrite finite_rounded_exact by (unfold MinExp, MaxExp; lia).
  cbn [Float_Mul fform prec neg mant exp xorb bind].
  rewrite He.
  rewrite (Z.max_l _ 53) by lia.
  replace (BitLen M - BitLen M + (-59 + 1)) with (- 58) by lia.
  rewrite finite_rounded_in_range by (unfold MinExp, MaxExp; nia || lia).
  cbn [bind Float_Sqrt fform prec neg mant exp].
  destruct (round _ _ _) as [m1 e1]. cbn [fst snd].
  destruct (sqrt_round _ _ _) as [m2 e2].
  cbn [bind Float_Int fform prec neg mant exp].
  reflexivity.
Qed.

(** The estimate through the values of its stages. *)
Lemma estimate_stages (mc p M : Z) :
  1 <= p -> 0 < mc -> 0 < M ->
  exists m1 e1 m2 e2,
    round p (M * mc) (- 58) = (m1, e1) /\
    sqrt_round p m1 e1 = (m2, e2) /\
    estimate mc p M = trunc m2 e2 /\
    0 < m1 /\ BitLen m1 <= p /\ 0 < m2.
Proof.
  intros Hp Hmc HM. unfold estimate.
  pose proof (round_bitlen p (M * mc) (- 58) Hp ltac:(nia)) as [H1 H2].
  destruct (round p (M * mc) (- 58)) as [m1 e1] eqn:Hr. simpl in H1, H2.
  destruct (sqrt_round_canon p m1 e1 Hp H1 ltac:(lia))
    as (N & j & Hs & _ & HN & _ & _).
  assert (0 < 2 ^ (2 * p + 1)) by (apply Z.pow_pos_nonneg; lia).
  pose proof (round_bitlen p (sqrt_sticky N) (j - 1) Hp
                ltac:(apply sqrt_sticky_pos; lia)) as [H3 _].
  rewrite <- Hs in H3.
  destruct (sqrt_round p m1 e1) as [m2 e2] eqn:Hq. simpl in H3.
  exists m1, e1, m2, e2. auto 10.
Qed.

Lemma estimate_nonneg (mc p M : Z) :
  1 <= p -> 0 < mc -> 0 < M -> 0 <= estimate mc p M.
Proof.
  intros Hp Hmc HM.
  destruct (estimate_stages mc p M Hp Hmc HM)
    as (m1 & e1 & m2 & e2 & _ & _ & -> & _ & _ & Hm2).
  pose proof (trunc_spec m2 e2 Hm2) as [_ Hlt].
  pose proof (val_pos m2 e2 Hm2).
  assert (0 < IZR (trunc m2 e2) + 1)%R as H0 by lra.
  rewrite <- plus_IZR in H0. apply lt_IZR in H0. lia.
Qed.

(** At a fixed precision the estimate is monotone in the space. *)
Lemma estimate_mono (mc p M1 M2 : Z) :
  1 <= p -> 0 < mc -> 0 < M1 -> M1 <= M2 ->
  estimate mc p M1 <= estimate mc p M2.
Proof.
  intros Hp Hmc HM1 Hle.
  destruct (estimate_stages mc p M1 Hp Hmc HM1)
    as (m1 & e1 & m2 & e2 & Hr1 & Hs1 & -> & Hm1 & HL1 & Hm2).
  destruct (estimate_stages mc p M2 Hp Hmc ltac:(lia))
    as (m1' & e1' & m2' & e2' & Hr2 & Hs2 & -> & Hm1' & HL1' & Hm2').
  apply trunc_mono; [assumption|assumption|].
  change (val' (m2, e2) <= val' (m2', e2'))%R. rewrite <- Hs1, <- Hs2.
  apply sqrt_round_mono; try assumption; try lia.
  change (val' (m1, e1) <= val' (m1', e1'))%R. rewrite <- Hr1, <- Hr2.
  apply round_mono; [assumption|nia|nia|].
  apply val_le_same_exp. nia.
Qed.

(** A product that fits the precision is not rounded. *)
Lemma round_exact_pow2 (p mc t e : Z) :
  1 <= p -> 0 < mc -> BitLen mc <= p -> 0 <= t ->
  val' (round p (2 ^ t * mc) e) = val (2 ^ t * mc) e.
Proof.
  intros Hp Hmc HL Ht. rewrite (Z.mul_comm (2 ^ t) mc).
  replace e with ((e + t) - t) at 1 by lia.
  rewrite round_scale by lia. rewrite round_lo by assumption.
  unfold val'. simpl. rewrite <- (val_shift mc (e + t) t) by lia.
  f_equal. lia.
Qed.

(** One more bit of precision does not lower the estimate of a space that
    is a power of two. *)
Lemma estimate_prec_step (mc p : Z) :
  64 <= p -> 2 ^ 52 <= mc < 2 ^ 53 ->
  estimate mc p (2 ^ p) <= estimate mc (p + 1) (2 ^ p).
Proof.
  intros Hp Hmc.
  assert (0 < 2 ^ p) as H2p by (apply Z.pow_pos_nonneg; lia).
  assert (BitLen mc = 53) as HLmc by (apply BitLen_unique; lia).
  destruct (estimate_stages mc p (2 ^ p) ltac:(lia) ltac:(lia) H2p)
    as (m1 & e1 & m2 & e2 & Hr1 & Hs1 & -> & Hm1 & HL1 & Hm2).
  destruct (estimate_stages mc (p + 1) (2 ^ p) ltac:(lia) ltac:(lia) H2p)
    as (m1' & e1' & m2' & e2' & Hr2 & Hs2 & -> & Hm1' & HL1' & Hm2').
  set (B := mc * 2 ^ (p - 58)).
  assert (0 < 2 ^ (p - 58)) by (apply Z.pow_pos_nonneg; lia).
  assert (val (2 ^ p * mc) (- 58) = IZR B) as HB.
  { unfold B. rewrite (Z.mul_comm (2 ^ p) mc).
    replace (- 58) with ((p - 58) - p) by lia.
    rewrite val_shift by lia. unfold val.
    rewrite pow2_IZR by lia. rewrite <- mult_IZR. reflexivity. }
  assert (val m1 e1 = IZR B) as Hv1.
  { change (val' (m1, e1) = IZR B). rewrite <- Hr1, <- HB.
    apply round_exact_pow2; lia. }
  assert (val m1' e1' = IZR B) as Hv1'.
  { change (val' (m1', e1') = IZR B). rewrite <- Hr2, <- HB.
    apply round_exact_pow2; lia. }
  pose proof (trunc_spec m2 e2 Hm2) as [Hk _].
  pose proof (trunc_spec m2' e2' Hm2') as [_ Hk'].
  set (k := trunc m2 e2) in *.
  destruct (Z_le_gt_dec k 0) as [Hk0|Hkpos].
  { pose proof (val_pos m2' e2' Hm2').
    assert (0 < IZR (trunc m2' e2') + 1)%R as Hpos' by lra.
    rewrite <- plus_IZR in Hpos'. apply lt_IZR in Hpos'. lia. }
  (* the square of the estimate does not exceed the radicand *)
  pose proof (sqrt_round_upper p m1 e1 ltac:(lia) Hm1 ltac:(lia)) as [_ Hup].
  rewrite Hs1, Hv1 in Hup. unfold val' in Hup. simpl in Hup.
  set (eps := powerRZ 2 (- p)) in *.
  assert (0 < eps)%R as Heps by apply pow2_pos.
  assert (eps <= / 4)%R as Heps4.
  { unfold eps. replace (/ 4)%R with (powerRZ 2 (- 2)) by (simpl; lra).
    apply pow2_le. lia. }
  assert (IZR B * eps < / 32)%R as HBeps.
  { unfold B, eps. rewrite mult_IZR, <- (pow2_IZR (p - 58)) by lia.
    rewrite Rmult_assoc, <- pow2_add.
    replace (p - 58 + - p) with (- 58) by lia.
    assert (IZR mc < IZR (2 ^ 53))%R as Hmc' by (apply IZR_lt; lia).
    rewrite <- (pow2_IZR 53) in Hmc' by lia.
    pose proof (pow2_pos (- 58)) as Hq.
    assert (powerRZ 2 53 * powerRZ 2 (- 58) = / 32)%R as Hc
      by (rewrite <- pow2_add; simpl; lra).
    nra. }
  assert (0 < IZR B)%R as HBpos by (apply IZR_lt; unfold B; nia).
  assert (1 <= IZR k)%R as Hk1 by (apply IZR_le; lia).
  assert (IZR (k * k) < IZR (B + 1))%R as Hkk.
  { rewrite mult_IZR, plus_IZR.
    assert (IZR k * IZR k <= val m2 e2 * val m2 e2)%R
      by (apply Rmult_le_compat; lra).
    assert ((1 + eps) * (1 + eps) * (1 + eps) <= 1 + 4 * eps)%R by nra.
    assert (IZR B * ((1 + eps) * (1 + eps) * (1 + eps))
            <= IZR B * (1 + 4 * eps))%R
      by (apply Rmult_le_compat_l; lra).
    lra. }
  apply lt_IZR in Hkk.
  assert (k * k <= B) as HkB by lia.
  (* so the estimate at the larger precision reaches it *)
  assert (BitLen k <= p + 1) as HLk.
  { assert (BitLen k <= p); [|lia]. apply BitLen_le; [lia|lia|].
    destruct (Z_lt_le_dec k (2 ^ p)) as [|Hge]; [assumption|].
    assert (2 ^ (p - 58) <= 2 ^ p) by (apply Z.pow_le_mono_r; lia).
    assert (B < 2 ^ 53 * 2 ^ p) by (unfold B; nia).
    assert (2 ^ 53 < 2 ^ p) by (apply Z.pow_lt_mono_r; lia).
    nia. }
  pose proof (sqrt_round_ge (p + 1) m1' e1' k ltac:(lia) Hm1' ltac:(lia)
                ltac:(lia) HLk) as Hge.
  rewrite Hv1', Hs2 in Hge. unfold val' in Hge. simpl in Hge.
  specialize (Hge ltac:(apply IZR_le; exact HkB)).
  assert (IZR k < IZR (trunc m2' e2') + 1)%R as Hlt by lra.
  rewrite <- plus_IZR in Hlt. apply lt_IZR in Hlt. lia.
Qed.

Lemma estimate_prec_chain (mc p : Z) (n : nat) :
  64 <= p -> 2 ^ 52 <= mc < 2 ^ 53 ->
  estimate mc p (2 ^ p)
  <= estimate mc (p + 1 + Z.of_nat n) (2 ^ (p + Z.of_nat n)).
Proof.
  intros Hp Hmc. induction n as [|n IH].
  - simpl. rewrite !Z.add_0_r. apply estimate_prec_step; assumption.
  - rewrite Nat2Z.inj_succ.
    etransitivity; [exact IH|].
    etransitivity;
      [apply (estimate_mono mc _ _ (2 ^ (p + Z.of_nat n + 1)));
       [lia|lia|apply Z.pow_pos_nonneg; lia|apply Z.pow_le_mono_r; lia]|].
    replace (p + 1 + Z.of_nat n) with (p + Z.of_nat n + 1) by lia.
    replace (p + 1 + Z.succ (Z.of_nat n)) with (p + Z.of_nat n + 1 + 1) by lia.
    replace (p + Z.succ (Z.of_nat n)) with (p + Z.of_nat n + 1) by lia.
    apply estimate_prec_step; [lia|assumption].
Qed.

Lemma BitLen_mono (M1 M2 : Z) : 0 < M1 -> M1 <= M2 -> BitLen M1 <= BitLen M2.
Proof.
  intros H1 Hle. rewrite !BitLen_pos by lia.
  pose proof (Z.log2_le_mono M1 M2 Hle). lia.
Qed.

(** From 2^31 bits on the space overflows the exponent of [big.Float]:
    [SetInt] gives an infinity, which the product and the square root
    keep, and [Float.Int] leaves [n] at its zero. *)
Lemma GetCollisionSeconds_overflow (lnFactor : float64) (M : Z) :
  0 < f64_mant lnFactor -> 0 < M -> MaxExp < BitLen M mod 2 ^ 32 ->
  GetCollisionSeconds lnFactor M = Ok 0.
Proof.
  intros Hmc HM Hbits.
  unfold GetCollisionSeconds, Float_SetInt, Float_SetFloat64, f64_double.
  cbn [f64_mant f64_exp].
  destruct (Z.eqb_spec M 0) as [|_]; [lia|].
  destruct (Z.eqb_spec (f64_mant lnFactor) 0) as [|_]; [lia|].
  rewrite Z.abs_eq by lia.
  assert (finite_rounded (Z.max (BitLen M mod 2 ^ 32) 64) (M <? 0) M
            (BitLen M mod 2 ^ 32 - BitLen M)
          = mkFloat (Z.max (BitLen M mod 2 ^ 32) 64) (M <? 0) inf 0 0) as ->.
  { unfold finite_rounded.
    replace (BitLen M + (BitLen M mod 2 ^ 32 - BitLen M))
      with (BitLen M mod 2 ^ 32) by lia.
    destruct (Z.ltb_spec (BitLen M mod 2 ^ 32) MinExp) as [Hlt|_];
      [unfold MinExp, MaxExp in *; lia|].
    destruct (Z.ltb_spec MaxExp (BitLen M mod 2 ^ 32)); [reflexivity|lia]. }
  destruct (Z.ltb_spec M 0) as [|_]; [lia|].
  destruct (Z.ltb_spec (f64_mant lnFactor) 0) as [|_]; [lia|].
  reflexivity.
Qed.

Lemma BitLen_pow2 (k : Z) : 0 <= k -> BitLen (2 ^ k) = k + 1.
Proof.
  intros Hk. rewrite BitLen_pos by (apply Z.pow_pos_nonneg; lia).
  rewrite Z.log2_pow2 by assumption. reflexivity.
Qed.

Lemma GetCollisionSeconds_pow2_overflow (k : Z) :
  2 ^ 31 <= k < 2 ^ 32 - 1 ->
  GetCollisionSeconds lnFactor_double (2 ^ k) = Ok 0.
Proof.
  intros Hk. apply GetCollisionSeconds_overflow.
  - reflexivity.
  - apply Z.pow_pos_nonneg; lia.
  - rewrite BitLen_pow2, Z.mod_small by lia. unfold MaxExp. lia.
Qed.

(** C8 (as the code has it): [GetCollisionSeconds] is monotonically
    non-decreasing over the spaces of fewer than 2^31 bits, the ones whose
    [big.Float] is finite: for [0 <= M1 < M2 < 2 ^ (2 ^ 31 - 1)] (a negative
    space panics) both calls return and the estimate of [M1] is at most the
    estimate of [M2], whatever [float64] of its binade the logarithm
    is. *)
Theorem GetCollisionSeconds_monotone (lnFactor : float64) (M1 M2 : Z) :
  lnFactor_range lnFactor -> 0 <= M1 -> M1 < M2 -> BitLen M2 < 2 ^ 31 ->
  exists n1 n2,
    GetCollisionSeconds lnFactor M1 = Ok n1 /\
    GetCollisionSeconds lnFactor M2 = Ok n2 /\
    n1 <= n2.
Proof.
  intros Hf H1 Hlt HL2. pose proof Hf as [_ Hmc].
  set (mc := f64_mant lnFactor) in *.
  rewrite (GetCollisionSeconds_estimate lnFactor M2) by (assumption || lia).
  fold mc.
  destruct (Z.eq_dec M1 0) as [->|HM1].
  { rewrite GetCollisionSeconds_zero_Ok. eexists _, _.
    split; [reflexivity|]. split; [reflexivity|].
    apply estimate_nonneg; lia. }
  pose proof (BitLen_mono M1 M2 ltac:(lia) ltac:(lia)) as HL.
  rewrite (GetCollisionSeconds_estimate lnFactor M1) by (assumption || lia).
  fold mc. eexists _, _. split; [reflexivity|]. split; [reflexivity|].
  set (p1 := Z.max (BitLen M1) 64). set (p2 := Z.max (BitLen M2) 64).
  destruct (Z.eq_dec p1 p2) as [Heq|Hne].
  - rewrite Heq. apply estimate_mono; lia.
  - assert (p1 < p2) as Hp by lia.
    assert (p2 = BitLen M2) as Hp2 by lia.
    destruct (BitLen_spec M1 ltac:(lia)) as [_ [_ Hhi1]].
    destruct (BitLen_spec M2 ltac:(lia)) as [_ [Hlo2 _]].
    assert (2 ^ BitLen M1 <= 2 ^ p1) by (apply Z.pow_le_mono_r; lia).
    rewrite <- Hp2 in Hlo2.
    transitivity (estimate mc p1 (2 ^ p1)); [apply estimate_mono; lia|].
    transitivity (estimate mc p2 (2 ^ (p2 - 1)));
      [|apply estimate_mono; [lia|lia|apply Z.pow_pos_nonneg; lia|lia]].
    pose proof (estimate_prec_chain mc p1 (Z.to_nat (p2 - 1 - p1))
                  ltac:(lia) Hmc) as Hchain.
    rewrite Z2Nat.id in Hchain by lia.
    replace (p1 + 1 + (p2 - 1 - p1)) with p2 in Hchain by lia.
    replace (p1 + (p2 - 1 - p1)) with (p2 - 1) in Hchain by lia.
    exact Hchain.
Qed.

(** The claim with the logarithm of double arithmetic, between the spaces
    of seven and of eight lower-case letters. *)
Lemma GetCollisionSeconds_monotone_witness :
  lnFactor_range lnFactor_double /\ 0 <= 26 ^ 7 /\ 26 ^ 7 < 26 ^ 8 /\
  BitLen (26 ^ 8) < 2 ^ 31 /\
  exists n1 n2,
    GetCollisionSeconds lnFactor_double (26 ^ 7) = Ok n1 /\
    GetCollisionSeconds lnFactor_double (26 ^ 8) = Ok n2 /\
    n1 <= n2.
Proof.
  assert (lnFactor_range lnFactor_double) as Hf
    by (unfold lnFactor_range; simpl; lia).
  assert (0 <= 26 ^ 7) as H1 by lia.
  assert (26 ^ 7 < 26 ^ 8) as H2 by lia.
  assert (BitLen (26 ^ 8) < 2 ^ 31) as H3 by (vm_compute; reflexivity).
  split; [exact Hf|]. split; [exact H1|]. split; [exact H2|].
  split; [exact H3|].
  exact (GetCollisionSeconds_monotone lnFactor_double (26 ^ 7) (26 ^ 8)
           Hf H1 H2 H3).
Defined.

(** C8 (as stated) fails: the space [2 ^ (2 ^ 31)] is larger than [2 ^ 64]
    and its estimate is smaller.  It has [2 ^ 31 + 1] bits, one more than
    the exponent of a [big.Float] holds, and the estimate of an infinity
    is 0. *)
Lemma GetCollisionSeconds_not_monotone :
  2 ^ 64 < 2 ^ (2 ^ 31) /\
  GetCollisionSeconds lnFactor_double (2 ^ 64) = Ok 608926881 /\
  GetCollisionSeconds lnFactor_double (2 ^ (2 ^ 31)) = Ok 0.
Proof.
  split; [apply Z.pow_lt_mono_r; lia|].
  split; [vm_compute; reflexivity|].
  apply GetCollisionSeconds_pow2_overflow. lia.
Qed.

(** * Further properties *)

(** ** NormalizeCharset and Generate together *)

Lemma NormalizeCharset_runes (x : string) :
  stringtoslicerune (NormalizeCharset x) = slices_Sort (stringtoslicerune x).
Proof.
  unfold NormalizeCharset. apply decode_encode.
  apply slices_Sort_valid, stringtoslicerune_valid.
Qed.

(** X1: the runes of a normalised charset are the runes of the charset in
    ascending order: the same symbols, each as often as it was given. *)
Theorem NormalizeCharset_sorted_permutation (x : string) :
  Sorted Z.le (stringtoslicerune (NormalizeCharset x)) /\
  stringtoslicerune (NormalizeCharset x) ≡ₚ stringtoslicerune x.
Proof.
  rewrite NormalizeCharset_runes.
  split; [apply slices_Sort_Sorted|apply slices_Sort_Permutation].
Qed.

Lemma slices_Sort_permutation_eq (l1 l2 : list rune) :
  l1 ≡ₚ l2 -> slices_Sort l1 = slices_Sort l2.
Proof.
  intros Hp. apply (Sorted_unique Z.le); [apply slices_Sort_Sorted..|].
  rewrite !slices_Sort_Permutation. exact Hp.
Qed.

(** [Generate] looks at its charset through the sorted runes only. *)
Lemma Generate_sorted_runes (x y : string) (n : Z) (rd : Reader) :
  slices_Sort (stringtoslicerune x) = slices_Sort (stringtoslicerune y) ->
  Generate x n rd = Generate y n rd.
Proof. intros H. unfold Generate. rewrite H. reflexivity. Qed.

(** X2: two charsets normalise to the same string exactly when they hold
    the same symbols the same number of times, in whatever order. *)
Theorem NormalizeCharset_eq_iff_permutation (x y : string) :
  NormalizeCharset x = NormalizeCharset y
  <-> stringtoslicerune x ≡ₚ stringtoslicerune y.
Proof.
  split.
  - intros Heq.
    rewrite <- (slices_Sort_Permutation (stringtoslicerune x)).
    rewrite <- (slices_Sort_Permutation (stringtoslicerune y)).
    rewrite <- !NormalizeCharset_runes, Heq. reflexivity.
  - intros Hp. unfold NormalizeCharset. f_equal.
    apply slices_Sort_permutation_eq. exact Hp.
Qed.

(** X3: [Generate] sorts the charset itself, so it does the same on a
    charset and on its normalisation: the same password from the same
    entropy, and the same panics. *)
Theorem Generate_NormalizeCharset (charset : string) (n : Z) (rd : Reader) :
  Generate (NormalizeCharset charset) n rd = Generate charset n rd.
Proof.
  apply Generate_sorted_runes.
  rewrite NormalizeCharset_runes. apply slices_Sort_idemp.
Qed.

(** X4: the order in which the charset lists its symbols does not matter to
    [Generate]: charsets with the same symbols, as often, give the same
    result on the same entropy. *)
Theorem Generate_permutation (x y : string) (n : Z) (rd : Reader) :
  stringtoslicerune x ≡ₚ stringtoslicerune y ->
  Generate x n rd = Generate y n rd.
Proof.
  intros Hp. apply Generate_sorted_runes, slices_Sort_permutation_eq, Hp.
Qed.

(** The property for the hexadecimal digits, letters first or digits
    first. *)
Lemma Generate_permutation_witness :
  stringtoslicerune CharsetHex ≡ₚ stringtoslicerune "0123456789abcdef" /\
  forall n rd, Generate CharsetHex n rd = Generate "0123456789abcdef" n rd.
Proof.
  assert (stringtoslicerune CharsetHex ≡ₚ stringtoslicerune "0123456789abcdef")
    as Hp.
  { change (stringtoslicerune CharsetHex)
      with ([97; 98; 99; 100; 101; 102] ++ [48; 49; 50; 51; 52; 53; 54; 55; 56; 57])%list.
    change (stringtoslicerune "0123456789abcdef")
      with ([48; 49; 50; 51; 52; 53; 54; 55; 56; 57] ++ [97; 98; 99; 100; 101; 102])%list.
    apply Permutation_app_comm. }
  split; [exact Hp|].
  intros n rd. exact (Generate_permutation _ _ n rd Hp).
Defined.

(** ** The entropy Generate reads *)

Lemma rand_Int_loop_consumes (fuel k : nat) (b max : Z) (rd rd1 : Reader) (j : Z) :
  rand_Int_loop fuel k b max rd = (inl j, rd1) ->
  exists r : nat,
    (1 <= r)%nat /\ (r * k <= List.length rd)%nat /\ rd1 = drop (r * k) rd.
Proof.
  revert rd. induction fuel as [|fuel IH]; intros rd; simpl; [discriminate|].
  unfold io_ReadFull.
  destruct (decide (k <= List.length rd)%nat) as [Hle|Hgt];
    [|destruct rd; discriminate].
  destruct (SetBytes (mask_first b (take k rd)) <? max).
  - intros [= _ <-]. exists 1%nat. rewrite Nat.mul_1_l. auto with lia.
  - intros H. apply IH in H as (r & Hr & Hlen & ->).
    rewrite length_drop in Hlen. exists (S r).
    split; [lia|]. split; [lia|].
    rewrite drop_drop. f_equal; lia.
Qed.

Lemma rand_Int_consumes (max : Z) (rd rd1 : Reader) (j : Z) :
  rand_Int max rd = Ok (inl j, rd1) ->
  exists r : nat,
    (1 <= r)%nat /\ (r * draw_bytes max <= List.length rd)%nat /\
    rd1 = drop (r * draw_bytes max) rd.
Proof.
  unfold rand_Int, draw_bytes.
  destruct (max <=? 0); [discriminate|].
  destruct (BitLen (max - 1) =? 0).
  - intros [= _ <-]. exists 1%nat. simpl. auto with lia.
  - intros H. apply Ok_inj in H. eapply rand_Int_loop_consumes. exact H.
Qed.

Lemma Generate_loop_consumes (n i : nat) (chars password password' : list rune)
    (rd rd' : Reader) :
  Generate_loop n i chars (Z.of_nat (List.length chars)) password rd
    = Ok (password', rd') ->
  exists r : nat,
    (n <= r)%nat /\
    (r * draw_bytes (Z.of_nat (List.length chars)) <= List.length rd)%nat /\
    rd' = drop (r * draw_bytes (Z.of_nat (List.length chars))) rd.
Proof.
  set (k := draw_bytes (Z.of_nat (List.length chars))).
  revert i password rd. induction n as [|n IH]; intros i password rd; simpl.
  - intros [= _ <-]. exists 0%nat. simpl. auto with lia.
  - destruct (rand_Int (Z.of_nat (List.length chars)) rd)
      as [[[j|err] rd1]|msg] eqn:Hj; try discriminate.
    destruct (chars !! Z.to_nat j) as [c|]; [|discriminate].
    apply rand_Int_consumes in Hj as (r1 & Hr1 & Hlen1 & ->). fold k in Hlen1 |- *.
    intros H. apply IH in H as (r & Hr & Hlen & ->).
    rewrite length_drop in Hlen. exists (r1 + r)%nat.
    split; [lia|]. split; [lia|].
    rewrite drop_drop. f_equal; lia.
Qed.

(** X5: a password that is returned was paid for in entropy: [Generate]
    read whole draws from the front of the source, at least one per symbol,
    and hands back the rest of the source untouched. *)
Theorem Generate_consumes (charset password : string) (n : Z) (rd rd' : Reader) :
  Generate charset n rd = Ok (password, rd') ->
  exists rounds : nat,
    n <= Z.of_nat rounds /\
    (rounds * draw_bytes (Z.of_nat (List.length (stringtoslicerune charset)))
     <= List.length rd)%nat /\
    rd' = drop (rounds * draw_bytes
                           (Z.of_nat (List.length (stringtoslicerune charset))))
               rd.
Proof.
  unfold Generate.
  destruct (Z.ltb_spec n 0) as [|Hn]; [discriminate|]. cbn [orb].
  destruct (maxAlloc <? 4 * n); [discriminate|].
  rewrite <- (slices_Sort_length (stringtoslicerune charset)).
  destruct (Generate_loop _ _ _ _ _ _) as [[pw rd1]|msg] eqn:Hloop;
    [|discriminate].
  intros [= _ <-]. apply Generate_loop_consumes in Hloop as (r & Hr & Hlen & ->).
  exists r. split; [lia|]. auto.
Qed.

(** The property on four hexadecimal digits drawn from five bytes. *)
Lemma Generate_consumes_witness :
  Generate CharsetHex 4 ["255"; "3"; "9"; "0"; "A"]%char
    = Ok ("f390", ["A"%char]) /\
  exists rounds : nat,
    4 <= Z.of_nat rounds /\
    (rounds * draw_bytes (Z.of_nat (List.length (stringtoslicerune CharsetHex)))
     <= List.length ["255"; "3"; "9"; "0"; "A"]%char)%nat /\
    ["A"%char] = drop (rounds * draw_bytes
                           (Z.of_nat (List.length (stringtoslicerune CharsetHex))))
                      ["255"; "3"; "9"; "0"; "A"]%char.
Proof.
  assert (Generate CharsetHex 4 ["255"; "3"; "9"; "0"; "A"]%char
          = Ok ("f390", ["A"%char])) as H by (vm_compute; reflexivity).
  split; [exact H|]. exact (Generate_consumes _ _ _ _ _ H).
Defined.









(** ** Every password can be drawn *)

Lemma SetBytes_acc (bytes : list ascii) (acc : Z) :
  fold_left (fun acc c => acc * 256 + byte_val c) bytes acc
  = acc * 256 ^ Z.of_nat (List.length bytes) + SetBytes bytes.
Proof.
  unfold SetBytes. revert acc.
  induction bytes as [|c t IH]; intros acc; [simpl; lia|].
  cbn [fold_left List.length]. rewrite IH, (IH (0 * 256 + byte_val c)).
  rewrite Nat2Z.inj_succ, Z.pow_succ_r by lia. ring.
Qed.

Lemma SetBytes_cons (c : ascii) (t : list ascii) :
  SetBytes (c :: t)
  = byte_val c * 256 ^ Z.of_nat (List.length t) + SetBytes t.
Proof.
  unfold SetBytes at 1. cbn [fold_left]. rewrite SetBytes_acc. ring.
Qed.

Lemma SetBytes_bound (bytes : list ascii) :
  0 <= SetBytes bytes < 256 ^ Z.of_nat (List.length bytes).
Proof.
  induction bytes as [|c t IH]; [unfold SetBytes; simpl; lia|].
  rewrite SetBytes_cons. cbn [List.length].
  rewrite Nat2Z.inj_succ, Z.pow_succ_r by lia.
  pose proof (byte_val_range c). nia.
Qed.



(** Clearing the bits above [b] in the first of [k + 1] bytes keeps the
    number they stand for modulo [2 ^ b * 256 ^ k]. *)
Lemma SetBytes_mask_first (b : Z) (c : ascii) (t : list ascii) :
  0 <= b <= 8 ->
  SetBytes (mask_first b (c :: t))
  = SetBytes (c :: t) mod (2 ^ b * 256 ^ Z.of_nat (List.length t)).
Proof.
  intros Hb. cbn [mask_first]. rewrite !SetBytes_cons.
  pose proof (SetBytes_bound t) as Ht.
  pose proof (byte_val_range c) as Hc.
  assert (0 < 2 ^ b <= 256) as H2b.
  { split; [apply Z.pow_pos_nonneg; lia|].
    change 256 with (2 ^ 8). apply Z.pow_le_mono_r; lia. }
  rewrite Z.shiftl_1_l.
  rewrite (byte_val_to_byte (2 ^ b - 1)) by lia.
  rewrite land_low_mask by lia.
  rewrite byte_val_to_byte
    by (pose proof (Z.mod_pos_bound (byte_val c) (2 ^ b)); lia).
  set (P := 256 ^ Z.of_nat (List.length t)) in *.
  rewrite (Z.mul_comm (2 ^ b) P), Z.rem_mul_r by lia.
  assert ((byte_val c * P + SetBytes t) / P = byte_val c) as ->
    by (symmetry; apply Z.div_unique with (SetBytes t); lia).
  assert ((byte_val c * P + SetBytes t) mod P = SetBytes t) as ->
    by (symmetry; apply Z.mod_unique with (byte_val c); lia).
  ring.
Qed.





(** ** One draw after the other *)

(** A round of the loop of [rand.Int] on the bytes it reads. *)
Lemma rand_Int_block (max : Z) (block rest : Reader) :
  2 <= max -> List.length block = draw_bytes max ->
  let v := SetBytes block mod 2 ^ BitLen (max - 1) in
  rand_Int max (block ++ rest)%list
  = if v <? max then Ok (inl v, rest) else rand_Int max rest.
Proof.
  intros Hmax Hlen v. unfold rand_Int, draw_bytes in *.
  destruct (Z.leb_spec max 0); [lia|].
  destruct (BitLen_spec (max - 1) ltac:(lia)) as [HL _].
  fold (max - 1) in *. set (L := BitLen (max - 1)) in *.
  destruct (Z.eqb_spec L 0) as [|_]; [lia|].
  assert (1 <= (L + 7) / 8) as Hk1 by (Z.div_mod_to_equations; lia).
  destruct (Z.to_nat ((L + 7) / 8)) as [|k'] eqn:Hk; [lia|].
  assert (Z.of_nat (S k') = (L + 7) / 8) as Hk' by lia.
  set (b := if L mod 8 =? 0 then 8 else L mod 8).
  assert (1 <= b <= 8 /\ L = b + 8 * Z.of_nat k') as [Hb HLb].
  { subst b. destruct (Z.eqb_spec (L mod 8) 0);
      (split; [Z.div_mod_to_equations; lia|]);
      rewrite Nat2Z.inj_succ in Hk'; Z.div_mod_to_equations; lia. }
  cbn [rand_Int_loop]. rewrite io_ReadFull_app by assumption.
  destruct block as [|c t]; [discriminate|]. cbn [List.length] in Hlen.
  rewrite SetBytes_mask_first by lia.
  assert (2 ^ b * 256 ^ Z.of_nat (List.length t) = 2 ^ L) as ->.
  { assert (List.length t = k') as -> by lia.
    rewrite HLb, Z.pow_add_r, Z.pow_mul_r by lia. reflexivity. }
  fold v. destruct (v <? max); [reflexivity|].
  rewrite (rand_Int_loop_fuel (List.length ((c :: t) ++ rest)%list)
             (S (List.length rest)));
    [reflexivity|lia| |lia].
  rewrite length_app. simpl. lia.
Qed.

(** The loop on a slice with one more position in front. *)
Lemma Generate_loop_cons (n i : nat) (chars : list rune) (charsetLen : Z)
    (c : rune) (password : list rune) (rd : Reader) :
  Generate_loop n (S i) chars charsetLen (c :: password) rd
  = match Generate_loop n i chars charsetLen password rd with
    | Ok (p, rd') => Ok (c :: p, rd')
    | Panic msg => Panic msg
    end.
Proof.
  revert i password rd. induction n as [|n IH]; intros i password rd;
    [reflexivity|].
  cbn [Generate_loop].
  destruct (rand_Int charsetLen rd) as [[[j|err] rd1]|msg]; try reflexivity.
  destruct (chars !! Z.to_nat j) as [c'|]; [|reflexivity].
  apply IH.
Qed.

(** X9: [Generate] draws its symbols one after the other, each from the
    bytes of its own draw.  The bytes of a draw, cut to the bit length of
    the largest index, are the index of the symbol in the sorted charset;
    the rest of the password is what [Generate] makes of the rest of the
    source.  A candidate that is not an index is dropped whole, and the
    draw starts again on the next bytes: no candidate is folded back into
    the range. *)
Theorem Generate_draw (charset : string) (n : Z) (block rest : Reader) :
  let chars := slices_Sort (stringtoslicerune charset) in
  let len := Z.of_nat (List.length chars) in
  let v := SetBytes block mod 2 ^ BitLen (len - 1) in
  2 <= len -> 0 <= n -> List.length block = draw_bytes len ->
  (v < len -> 4 * (n + 1) <= maxAlloc ->
   exists c,
     chars !! Z.to_nat v = Some c /\
     Generate charset (n + 1) (block ++ rest)%list
     = match Generate charset n rest with
       | Ok (p, rd') => Ok (encoderune c +:+ p, rd')
       | Panic msg => Panic msg
       end) /\
  (len <= v ->
   Generate charset (n + 1) (block ++ rest)%list
   = Generate charset (n + 1) rest).
Proof.
  intros chars len v Hlen Hn Hblock.
  pose proof (rand_Int_block len block rest Hlen Hblock) as Hdraw.
  cbv zeta in Hdraw. fold v in Hdraw.
  unfold Generate. fold chars. fold len.
  replace (Z.to_nat (n + 1)) with (S (Z.to_nat n)) by lia.
  cbn [Generate_loop replicate]. rewrite Hdraw.
  assert (0 <= v) as Hv0.
  { apply Z.mod_pos_bound, Z.pow_pos_nonneg; [lia|].
    destruct (BitLen_spec (len - 1) ltac:(lia)). lia. }
  split.
  - intros Hv Hmax. rewrite !make_accepts by lia.
    destruct (Z.ltb_spec v len) as [_|]; [|lia].
    destruct (lookup_lt_is_Some_2 chars (Z.to_nat v)) as [c Hc];
      [unfold len in Hv; lia|].
    exists c. split; [exact Hc|]. rewrite Hc.
    cbn [insert list_insert]. rewrite Generate_loop_cons.
    destruct (Generate_loop _ _ _ _ _ rest) as [[p rd']|msg]; reflexivity.
  - intros Hv. destruct (Z.ltb_spec v len) as [|_]; [lia|]. reflexivity.
Qed.

(** The property on the hexadecimal digits: the byte [0x2f] draws the
    sixteenth of them, the byte [0x07] the eighth. *)
Lemma Generate_draw_witness :
  exists c,
    slices_Sort (stringtoslicerune CharsetHex) !! 15%nat = Some c /\
    Generate CharsetHex (1 + 1) (["047"%char] ++ ["007"%char])%list
    = match Generate CharsetHex 1 ["007"%char] with
      | Ok (p, rd') => Ok (encoderune c +:+ p, rd')
      | Panic msg => Panic msg
      end.
Proof.
  apply (proj1 (Generate_draw CharsetHex 1 ["047"%char] ["007"%char]
                  ltac:(vm_compute; congruence) ltac:(lia) eq_refl)).
  - vm_compute. reflexivity.
  - unfold maxAlloc. lia.
Defined.

(** ** More on FormatDuration *)

(** A decimal numeral does not start with the letter l. *)
Lemma pretty_Z_not_less (z : Z) (rest : string) :
  pretty z +:+ rest <> "less than a second".
Proof.
  unfold pretty, pretty_Z. destruct z as [|p|p].
  - discriminate.
  - unfold pretty, pretty_positive, pretty, pretty_N.
    destruct (decide (N.pos p = 0%N)); [discriminate|].
    destruct (pretty_N_go_head (N.pos p) "") as (d & t & ->); [lia|].
    rewrite append_cons. intros [= H _]. revert H.
    unfold pretty_N_char. repeat case_match; discriminate.
  - discriminate.
Qed.

(** X10: ["less than a second"] is the answer exactly for the durations that
    are not positive: zero, and the negative ones no entry of the table
    is below. *)
Theorem FormatDuration_less_than_a_second (s : Z) :
  FormatDuration s = "less than a second" <-> s <= 0.
Proof.
  assert (log10years 100 * 999 > 1) as Hlimit by reflexivity.
  split.
  - intros H. destruct (Z_le_gt_dec s 0) as [|Hpos]; [assumption|exfalso].
    revert H. unfold FormatDuration.
    destruct (Z.leb_spec (log10years 100 * 999) s); [discriminate|].
    destruct (FormatDuration_loop_spec (List.length units) s)
      as [[_ Hall]|(i & u & _ & _ & _ & _ & ->)].
    + specialize (Hall 0%nat {| name := "second"; value := 1 |}
                       ltac:(simpl; lia) eq_refl). simpl in Hall. lia.
    + unfold formatUnit. apply pretty_Z_not_less.
  - intros Hs. rewrite FormatDuration_below_limit by lia.
    destruct (FormatDuration_loop_spec (List.length units) s)
      as [[-> _]|(i & u & _ & Hu & Hle & _ & _)]; [reflexivity|].
    pose proof (units_value_pos u ltac:(eapply list_elem_of_lookup_2; exact Hu)).
    lia.
Qed.

(** Each entry of the table is at most a thousand times the one before, and
    from the sixth on the names are made of several words. *)
Lemma units_step (i : nat) (u u' : durationUnit) :
  units !! i = Some u -> units !! S i = Some u' ->
  value u' <= 1000 * value u.
Proof.
  do 39 (destruct i as [|i];
         [intros [= <-] [= <-]; vm_compute; congruence|]).
  intros _ H. discriminate H.
Qed.

Lemma units_several_words (i : nat) (u : durationUnit) :
  (5 <= i)%nat -> units !! i = Some u ->
  strings_Contains (name u) " " = true /\
  strings_Contains (name u) " years" = true.
Proof.
  intros Hi. do 5 (destruct i as [|i]; [lia|]). clear Hi.
  do 34 (destruct i as [|i]; [intros [= <-]; split; reflexivity|]).
  intros H. discriminate H.
Qed.

Lemma units_one_word (i : nat) (u : durationUnit) :
  (i < 5)%nat -> units !! i = Some u ->
  strings_Contains (name u) " " = false.
Proof.
  intros Hi. do 5 (destruct i as [|i]; [intros [= <-]; reflexivity|]). lia.
Qed.

(** The entry [FormatDuration] settles on, with what the loop knows of it. *)
Lemma FormatDuration_chosen (s : Z) :
  1 <= s -> s < log10years 100 * 999 ->
  exists i u,
    units !! i = Some u /\ value u <= s /\
    (forall j u', (i < j)%nat -> units !! j = Some u' -> s < value u') /\
    FormatDuration s = formatUnit s u.
Proof.
  intros H1 Hlim. rewrite FormatDuration_below_limit by assumption.
  destruct (FormatDuration_loop_spec (List.length units) s)
    as [[_ Hall]|(i & u & Hi & Hu & Hle & Habove & ->)].
  - specialize (Hall 0%nat {| name := "second"; value := 1 |}
                     ltac:(simpl; lia) eq_refl). simpl in Hall. lia.
  - exists i, u. repeat split; try assumption.
    intros j u' Hj Hu'. apply (Habove j); [|assumption].
    pose proof (lookup_lt_Some _ _ _ Hu'). lia.
Qed.

(** X11: the number [FormatDuration] prints is never below 1 nor above 999:
    the chosen unit is the largest that fits, the next one is at most a
    thousand times larger, and the cutoff caps the last. *)
Theorem FormatDuration_quotient_range (s : Z) :
  1 <= s -> s < log10years 100 * 999 ->
  exists u sfx,
    u ∈ units /\ 1 <= s / value u <= 999 /\
    FormatDuration s = pretty (s / value u) +:+ " " +:+ name u +:+ sfx.
Proof.
  intros H1 Hlim.
  destruct (FormatDuration_chosen s H1 Hlim) as (i & u & Hu & Hle & Habove & ->).
  pose proof (units_value_pos u ltac:(eapply list_elem_of_lookup_2; exact Hu))
    as Hpos.
  destruct (formatUnit_shape s u ltac:(lia)) as (sfx & _ & ->).
  exists u, sfx. split; [eapply list_elem_of_lookup_2; exact Hu|].
  split; [|reflexivity]. split.
  - apply Z.div_le_lower_bound; lia.
  - assert (s < 1000 * value u) as Hlt.
    { destruct (units !! S i) as [u'|] eqn:Hnext.
      - pose proof (units_step i u u' Hu Hnext).
        specialize (Habove (S i) u' ltac:(lia) Hnext). lia.
      - apply lookup_ge_None_1 in Hnext.
        pose proof (lookup_lt_Some _ _ _ Hu) as Hi. simpl in Hnext, Hi.
        assert (i = 38%nat) as -> by lia.
        injection Hu as <-. simpl. lia. }
    assert (s / value u < 1000); [|lia].
    apply Z.div_lt_upper_bound; lia.
Qed.

(** The property at two minutes. *)
Lemma FormatDuration_quotient_range_witness :
  exists u sfx,
    u ∈ units /\ 1 <= 120 / value u <= 999 /\
    FormatDuration 120 = pretty (120 / value u) +:+ " " +:+ name u +:+ sfx.
Proof.
  apply FormatDuration_quotient_range; [lia|vm_compute; reflexivity].
Defined.

(** X12: from a thousand years on, the names of several words are printed
    as the table has them, with no plural added: the result is the
    quotient, a space and the name, and the name ends in ["years"]
    already. *)
Theorem FormatDuration_several_words (s : Z) :
  log10years 3 <= s -> s < log10years 100 * 999 ->
  exists u,
    u ∈ units /\ value u <= s /\
    strings_Contains (name u) " years" = true /\
    FormatDuration s = pretty (s / value u) +:+ " " +:+ name u.
Proof.
  intros H3 Hlim.
  assert (1 <= log10years 3) by (vm_compute; congruence).
  destruct (FormatDuration_chosen s ltac:(lia) Hlim)
    as (i & u & Hu & Hle & Habove & ->).
  assert (5 <= i)%nat as Hi.
  { destruct (le_lt_dec 5 i) as [|Hlt]; [assumption|exfalso].
    specialize (Habove 5%nat {| name := "thousand years"; value := log10years 3 |}
                       Hlt eq_refl). simpl in Habove. lia. }
  destruct (units_several_words i u Hi Hu) as [Hsp Hyears].
  pose proof (units_value_pos u ltac:(eapply list_elem_of_lookup_2; exact Hu)).
  exists u. split; [eapply list_elem_of_lookup_2; exact Hu|].
  split; [assumption|]. split; [assumption|].
  unfold formatUnit. rewrite Hsp, big_Div_pos by lia. reflexivity.
Qed.

(** The property at three million years and a bit. *)
Lemma FormatDuration_several_words_witness :
  exists u,
    u ∈ units /\ value u <= 3 * log10years 6 + 5 /\
    strings_Contains (name u) " years" = true /\
    FormatDuration (3 * log10years 6 + 5)
    = pretty ((3 * log10years 6 + 5) / value u) +:+ " " +:+ name u.
Proof.
  apply FormatDuration_several_words; vm_compute; congruence.
Defined.

(** X13: below a thousand years the unit is one of the five of a single
    word, and its name gets the ["s"] exactly when the quotient is 1. *)
Theorem FormatDuration_one_word (s : Z) :
  1 <= s -> s < log10years 3 ->
  exists u,
    u ∈ units /\ value u <= s /\
    strings_Contains (name u) " " = false /\
    FormatDuration s
    = pretty (s / value u) +:+ " " +:+ name u
      +:+ (if s / value u =? 1 then "s" else "").
Proof.
  intros H1 H3.
  assert (log10years 3 < log10years 100 * 999) by (vm_compute; reflexivity).
  destruct (FormatDuration_chosen s H1 ltac:(lia))
    as (i & u & Hu & Hle & _ & ->).
  assert (i < 5)%nat as Hi.
  { destruct (le_lt_dec 5 i) as [Hge|]; [exfalso|assumption].
    pose proof (units_lookup_le 5 i
                  {| name := "thousand years"; value := log10years 3 |} u
                  Hge eq_refl Hu) as Hv. simpl in Hv. lia. }
  pose proof (units_one_word i u Hi Hu) as Hsp.
  pose proof (units_value_pos u ltac:(eapply list_elem_of_lookup_2; exact Hu)).
  exists u. split; [eapply list_elem_of_lookup_2; exact Hu|].
  split; [assumption|]. split; [assumption|].
  unfold formatUnit. rewrite Hsp, big_Div_pos by lia. cbn [negb].
  destruct (s / value u =? 1); [reflexivity|].
  rewrite append_nil_r. reflexivity.
Qed.

(** The property at an hour and a half. *)
Lemma FormatDuration_one_word_witness :
  exists u,
    u ∈ units /\ value u <= 5400 /\
    strings_Contains (name u) " " = false /\
    FormatDuration 5400
    = pretty (5400 / value u) +:+ " " +:+ name u
      +:+ (if 5400 / value u =? 1 then "s" else "").
Proof.
  apply FormatDuration_one_word; [lia|vm_compute; reflexivity].
Defined.

(** ** More on the collision estimate *)

Lemma pow2_inv (p : Z) : (powerRZ 2 p * powerRZ 2 (- p) = 1)%R.
Proof.
  rewrite <- pow2_add. replace (p + - p) with 0 by lia. reflexivity.
Qed.

Lemma pow2_neg_le_half (p : Z) : 1 <= p -> (powerRZ 2 (- p) <= / 2)%R.
Proof.
  intros Hp. pose proof (pow2_le (- p) (- 1) ltac:(lia)) as H.
  change (powerRZ 2 (- 1)) with (/ (2 * 1))%R in H. rewrite Rmult_1_r in H.
  exact H.
Qed.

(** Rounding to [p] bits loses at most the fraction [2 ^ - p]. *)
Lemma round_lower (p m e : Z) :
  1 <= p -> 0 < m ->
  (val m e * (1 - powerRZ 2 (- p)) <= val' (round p m e))%R.
Proof.
  intros Hp Hm. pose proof (val_pos m e Hm). pose proof (pow2_pos (- p)).
  destruct (Z_le_gt_dec (BitLen m) p) as [Hle|Hgt].
  - rewrite round_lo by assumption. unfold val'. simpl. nra.
  - rewrite round_hi_val by lia.
    destruct (BitLen_spec m Hm) as [_ [Hlo _]].
    set (d := BitLen m - p) in *.
    pose proof (rnd_shift_bounds d m ltac:(lia)) as [Hq _].
    unfold val in *. rewrite pow2_add, (pow2_IZR d) by lia.
    apply IZR_le in Hq. rewrite mult_IZR, minus_IZR in Hq.
    assert (IZR (2 ^ (d - 1)) <= IZR m * powerRZ 2 (- p))%R as Hhalf.
    { replace (BitLen m - 1) with (p + (d - 1)) in Hlo by lia.
      rewrite Z.pow_add_r in Hlo by lia.
      apply IZR_le in Hlo. rewrite mult_IZR in Hlo.
      rewrite <- (pow2_IZR p) in Hlo by lia.
      pose proof (pow2_inv p) as Hinv.
      assert (0 <= IZR (2 ^ (d - 1)))%R
        by (apply IZR_le, Z.pow_nonneg; lia).
      nra. }
    pose proof (pow2_pos e). nra.
Qed.

(** The square of a rounded root falls short of the radicand by little. *)
Lemma sqrt_round_lower (p m e : Z) :
  1 <= p -> 0 < m -> BitLen m <= 2 * p + 2 ->
  (val m e * ((1 - powerRZ 2 (- p)) * (1 - powerRZ 2 (- p))
              * (1 - powerRZ 2 (- p)))
   <= val' (sqrt_round p m e) * val' (sqrt_round p m e))%R.
Proof.
  intros Hp Hm HL.
  destruct (sqrt_round_canon p m e Hp Hm HL) as (N & j & -> & -> & HN & _ & _).
  assert (0 < 2 ^ (2 * p + 1)) by (apply Z.pow_pos_nonneg; lia).
  assert (0 < N) as HNpos by lia.
  pose proof (sqrt_sticky_pos N HNpos) as HT.
  destruct (sqrt_sticky_bitlen p N Hp ltac:(lia)) as [Hroot _].
  destruct (sqrt_sticky_cases N ltac:(lia)) as (r & Hr & Hr0 & Hsq & Hc).
  rewrite <- Hr in Hroot.
  set (T := sqrt_sticky N) in *.
  pose proof (round_lower p T (j - 1) Hp HT) as Hlow.
  set (s := val' (round p T (j - 1))) in *.
  pose proof (pow2_neg_le_half p Hp) as Hhalf.
  set (eps := powerRZ 2 (- p)) in *.
  assert (0 < eps)%R as Heps by apply pow2_pos.
  assert (4 * N - 4 * r <= T * T) as HTT
    by (destruct Hc as [[? ->]|[? ->]]; nia).
  assert (r * 2 ^ p <= N) as Hrp by nia.
  apply IZR_le in HTT, Hrp.
  rewrite minus_IZR, !mult_IZR in HTT. rewrite mult_IZR in Hrp.
  rewrite <- (pow2_IZR p) in Hrp by lia.
  pose proof (pow2_inv p) as Hinv. fold eps in Hinv.
  assert (0 <= IZR r)%R as Hr0' by (apply IZR_le; assumption).
  assert (IZR r <= IZR N * eps)%R as Hreps.
  { pose proof (pow2_pos p).
    assert (IZR r = IZR r * powerRZ 2 p * eps)%R as ->
      by (rewrite Rmult_assoc, Hinv; ring).
    apply Rmult_le_compat_r; lra. }
  assert (0 < IZR N)%R as HNR by (apply IZR_lt; assumption).
  assert (0 < IZR T)%R as HTR by (apply IZR_lt; assumption).
  set (z := val T (j - 1)) in *.
  assert (val N (2 * j) * (1 - eps) <= z * z)%R as Hz.
  { unfold z, val.
    replace (2 * j) with ((j - 1) + (j - 1) + 2) by lia.
    rewrite !pow2_add. change (powerRZ 2 2) with (2 * (2 * 1))%R.
    pose proof (pow2_pos (j - 1)) as Hq.
    set (q := powerRZ 2 (j - 1)) in *.
    assert (0 < q * q)%R by nra.
    assert (4 * IZR N * (1 - eps) <= IZR T * IZR T)%R by nra.
    replace (IZR T * q * (IZR T * q))%R with (IZR T * IZR T * (q * q))%R by ring.
    replace (IZR N * (q * q * (2 * (2 * 1))) * (1 - eps))%R
      with (4 * IZR N * (1 - eps) * (q * q))%R by ring.
    apply Rmult_le_compat_r; lra. }
  assert (0 < z)%R as Hzpos by (apply val_pos; assumption).
  assert (z * z * ((1 - eps) * (1 - eps)) <= s * s)%R.
  { replace (z * z * ((1 - eps) * (1 - eps)))%R
      with ((z * (1 - eps)) * (z * (1 - eps)))%R by ring.
    apply Rmult_le_compat; nra. }
  assert (val N (2 * j) * (1 - eps) * ((1 - eps) * (1 - eps))
          <= z * z * ((1 - eps) * (1 - eps)))%R.
  { apply Rmult_le_compat_r; [nra|exact Hz]. }
  lra.
Qed.

(** Both roundings of the estimate together: its square, and the square of
    the next integer, against the radicand. *)
Lemma estimate_accuracy (mc p M : Z) :
  1 <= p -> 0 < mc -> 0 < M ->
  let n := IZR (estimate mc p M) in
  let x := val (M * mc) (- 58) in
  let up := (1 + powerRZ 2 (- p))%R in
  let dn := (1 - powerRZ 2 (- p))%R in
  (0 <= n /\ n * n <= x * (up * up * (up * up)) /\
   x * (dn * dn * (dn * dn)) < (n + 1) * (n + 1))%R.
Proof.
  intros Hp Hmc HM n x up dn.
  pose proof (estimate_nonneg mc p M Hp Hmc HM) as Hn0. apply IZR_le in Hn0.
  subst n.
  destruct (estimate_stages mc p M Hp Hmc HM)
    as (m1 & e1 & m2 & e2 & Hr1 & Hs1 & Hest & Hm1 & HL1 & Hm2).
  rewrite Hest in *. clear Hest.
  assert (0 < M * mc) as HMmc by nia.
  pose proof (round_upper p (M * mc) (- 58) Hp HMmc) as Hru.
  pose proof (round_lower p (M * mc) (- 58) Hp HMmc) as Hrl.
  rewrite Hr1 in Hru, Hrl. unfold val' in Hru, Hrl. simpl in Hru, Hrl.
  pose proof (sqrt_round_upper p m1 e1 Hp Hm1 ltac:(lia)) as [_ Hsu].
  pose proof (sqrt_round_lower p m1 e1 Hp Hm1 ltac:(lia)) as Hsl.
  rewrite Hs1 in Hsu, Hsl. unfold val' in Hsu, Hsl. simpl in Hsu, Hsl.
  pose proof (trunc_spec m2 e2 Hm2) as [Ht1 Ht2].
  pose proof (val_pos m2 e2 Hm2) as Hs0.
  pose proof (val_pos m1 e1 Hm1) as Hy0.
  pose proof (val_pos (M * mc) (- 58) HMmc) as Hx0. fold x in Hx0, Hru, Hrl.
  pose proof (pow2_neg_le_half p Hp) as Hhalf.
  pose proof (pow2_pos (- p)) as Heps.
  fold up in Hru, Hsu. fold dn in Hrl, Hsl.
  assert (0 < dn)%R by (unfold dn; lra).
  assert (1 < up)%R by (unfold up; lra).
  set (t := IZR (trunc m2 e2)) in *.
  set (s := val m2 e2) in *. set (y := val m1 e1) in *.
  split; [assumption|]. split.
  - assert (t * t <= s * s)%R by (apply Rmult_le_compat; lra).
    assert (y * (up * up * up) <= x * up * (up * up * up))%R
      by (apply Rmult_le_compat_r; [nra|lra]).
    replace (x * (up * up * (up * up)))%R with (x * up * (up * up * up))%R
      by ring.
    lra.
  - assert (s * s < (t + 1) * (t + 1))%R by (apply Rmult_le_0_lt_compat; lra).
    assert (x * dn * (dn * dn * dn) <= y * (dn * dn * dn))%R
      by (apply Rmult_le_compat_r; [nra|lra]).
    replace (x * (dn * dn * (dn * dn)))%R with (x * dn * (dn * dn * dn))%R
      by ring.
    lra.
Qed.

(** Four roundings of at least 64 bits cost less than [2 ^ - 61]. *)
Lemma four_roundings (p : Z) :
  64 <= p ->
  let up := (1 + powerRZ 2 (- p))%R in
  let dn := (1 - powerRZ 2 (- p))%R in
  (up * up * (up * up) <= 1 + powerRZ 2 (- 61) /\
   1 - powerRZ 2 (- 61) <= dn * dn * (dn * dn))%R.
Proof.
  intros Hp up dn. subst up dn.
  pose proof (pow2_le (- p) (- 64) ltac:(lia)) as Hle.
  pose proof (pow2_pos (- p)) as Hpos.
  assert (powerRZ 2 (- 61) = 8 * powerRZ 2 (- 64))%R as ->.
  { replace (- 61) with (3 + - 64) by lia. rewrite pow2_add.
    change (powerRZ 2 3) with (2 * (2 * (2 * 1)))%R. ring. }
  assert (powerRZ 2 (- 64) <= / 16)%R as H16.
  { pose proof (pow2_le (- 64) (- 4) ltac:(lia)) as H.
    change (powerRZ 2 (- 4)) with (/ (2 * (2 * (2 * (2 * 1)))))%R in H.
    replace (2 * (2 * (2 * (2 * 1))))%R with 16%R in H by ring. exact H. }
  set (e := powerRZ 2 (- p)) in *. set (d := powerRZ 2 (- 64)) in *.
  assert (e * e <= e * / 16)%R by (apply Rmult_le_compat_l; lra).
  assert (0 <= e * e)%R by nra.
  split.
  - replace ((1 + e) * (1 + e) * ((1 + e) * (1 + e)))%R
      with (1 + 4 * e + (e * e) * (6 + 4 * e + e * e))%R by ring.
    assert ((e * e) * (6 + 4 * e + e * e) <= (e * / 16) * 8)%R
      by (apply Rmult_le_compat; nra).
    lra.
  - replace ((1 - e) * (1 - e) * ((1 - e) * (1 - e)))%R
      with (1 - 4 * e + (e * e) * (6 - 4 * e + e * e))%R by ring.
    assert (0 <= (e * e) * (6 - 4 * e + e * e))%R
      by (apply Rmult_le_pos; nra).
    lra.
Qed.

(** *** Every outcome of the estimate *)

Lemma BitLen_abs (x : Z) : BitLen (Z.abs x) = BitLen x.
Proof.
  unfold BitLen. rewrite Z.abs_idemp.
  destruct (Z.eqb_spec x 0) as [->|Hx]; [reflexivity|].
  destruct (Z.eqb_spec (Z.abs x) 0); [lia|reflexivity].
Qed.

(** The product with the factor, by the form of the other operand. *)
Lemma Float_Mul_factor (x : Float) (mc e : Z) :
  Float_Mul x (mkFloat 53 false finite mc e)
  = Ok match fform x with
       | finite =>
         finite_rounded (Z.max (prec x) 53) (xorb (neg x) false)
           (mant x * mc) (exp x + e)
       | inf => mkFloat (Z.max (prec x) 53) (xorb (neg x) false) inf 0 0
       | zero => mkFloat (Z.max (prec x) 53) (xorb (neg x) false) zero 0 0
       end.
Proof. unfold Float_Mul. cbn [fform prec neg mant exp]. destruct (fform x); reflexivity. Qed.

(** The square root and its integer part, for an operand that is not
    negative and for one that is. *)
Lemma Sqrt_Int_nonneg (x : Float) :
  neg x = false ->
  (fform x = finite -> 1 <= prec x /\ 0 < mant x /\ BitLen (mant x) <= prec x) ->
  exists n,
    bind (Float_Sqrt x) (fun sqrt => Ok (Float_Int sqrt 0)) = Ok n /\ 0 <= n.
Proof.
  intros Hneg Hfin. unfold Float_Sqrt. rewrite Hneg.
  destruct (fform x) eqn:Hform.
  - exists 0. split; [reflexivity|lia].
  - destruct (Hfin eq_refl) as (Hp & Hm & HL).
    pose proof (sqrt_round_pos (prec x) (mant x) (exp x) Hp Hm HL) as Hpos.
    destruct (sqrt_round _ _ _) as [m2 e2]. simpl in Hpos.
    eexists. split; [reflexivity|].
    cbn [Float_Int fform neg mant exp]. apply trunc_nonneg. exact Hpos.
  - exists 0. split; [reflexivity|lia].
Qed.

Lemma Sqrt_Int_negative (x : Float) :
  neg x = true -> fform x <> zero ->
  bind (Float_Sqrt x) (fun sqrt => Ok (Float_Int sqrt 0))
  = Panic "square root of negative operand".
Proof.
  intros Hneg Hform. unfold Float_Sqrt. rewrite Hneg.
  destruct (fform x); [congruence|reflexivity|reflexivity].
Qed.

(** The estimate of a space that is not zero, through its stages. *)
Lemma GetCollisionSeconds_stages (lnFactor : float64) (M : Z) :
  lnFactor_range lnFactor -> M <> 0 ->
  exists x,
    GetCollisionSeconds lnFactor M
    = bind (Float_Sqrt x) (fun sqrt => Ok (Float_Int sqrt 0)) /\
    neg x = (M <? 0) /\ fform x <> zero /\
    (fform x = finite ->
     1 <= prec x /\ 0 < mant x /\ BitLen (mant x) <= prec x).
Proof.
  intros [He Hmc] HM.
  unfold GetCollisionSeconds, Float_SetInt, Float_SetFloat64, f64_double.
  cbn [f64_mant f64_exp].
  destruct (Z.eqb_spec M 0) as [|_]; [contradiction|].
  destruct (Z.eqb_spec (f64_mant lnFactor) 0) as [|_]; [lia|].
  destruct (Z.ltb_spec (f64_mant lnFactor) 0) as [|_]; [lia|].
  rewrite (Z.abs_eq (f64_mant lnFactor)) by lia.
  set (mc := f64_mant lnFactor) in *.
  set (bits := BitLen M mod 2 ^ 32).
  assert (0 <= bits < 2 ^ 32) as Hbits by (apply Z.mod_pos_bound; lia).
  set (p := Z.max bits 64).
  rewrite Float_Mul_factor. cbn [bind].
  assert (0 < Z.abs M) as Habs by lia.
  destruct (finite_rounded_cases p (M <? 0) (Z.abs M) (bits - BitLen M)
              ltac:(lia) Habs)
    as [[Hlow _]|[[_ ->]|(m0 & e0 & -> & _ & Hm0 & HL0 & _ & Hexp0)]].
  - rewrite BitLen_abs in Hlow. unfold MinExp in Hlow. lia.
  - eexists. split; [reflexivity|]. cbn [fform neg].
    rewrite xorb_false_r. split; [reflexivity|]. split; discriminate.
  - cbn [fform prec neg mant exp]. rewrite xorb_false_r.
    rewrite BitLen_abs in Hexp0.
    pose proof (BitLen_mul_53 m0 mc Hm0 Hmc) as HLp.
    destruct (finite_rounded_cases (Z.max p 53) (M <? 0) (m0 * mc)
                (e0 + (f64_exp lnFactor + 1)) ltac:(lia) ltac:(nia))
      as [[Hlow _]|[[_ ->]|(m1 & e1 & -> & _ & Hm1 & HL1 & _)]].
    + rewrite He in Hlow. unfold MinExp in Hlow. lia.
    + eexists. split; [reflexivity|]. cbn [fform neg].
      split; [reflexivity|]. split; discriminate.
    + eexists. split; [reflexivity|]. cbn [fform prec neg mant].
      split; [reflexivity|]. split; [discriminate|]. intros _. lia.
Qed.

(** A positive space, of whatever size, gets an estimate. *)
Lemma GetCollisionSeconds_returns (lnFactor : float64) (M : Z) :
  lnFactor_range lnFactor -> 0 < M ->
  exists n, GetCollisionSeconds lnFactor M = Ok n /\ 0 <= n.
Proof.
  intros Hf HM.
  destruct (GetCollisionSeconds_stages lnFactor M Hf ltac:(lia))
    as (x & -> & Hneg & _ & Hfin).
  apply Sqrt_Int_nonneg; [|exact Hfin].
  rewrite Hneg. destruct (Z.ltb_spec M 0); [lia|reflexivity].
Qed.

(** X14: [GetCollisionSeconds] returns for every space that is not
    negative, and what it returns is not negative either; a negative space
    panics in [big.Float.Sqrt]. *)
Theorem GetCollisionSeconds_outcome (lnFactor : float64) (M : Z) :
  lnFactor_range lnFactor ->
  (0 <= M -> exists n, GetCollisionSeconds lnFactor M = Ok n /\ 0 <= n) /\
  (M < 0 ->
   GetCollisionSeconds lnFactor M = Panic "square root of negative operand").
Proof.
  intros Hf. split.
  - intros HM. destruct (Z.eq_dec M 0) as [->|HM0].
    + exists 0. rewrite GetCollisionSeconds_zero_Ok. split; [reflexivity|lia].
    + destruct (GetCollisionSeconds_stages lnFactor M Hf HM0)
        as (x & -> & Hneg & _ & Hfin).
      apply Sqrt_Int_nonneg; [|exact Hfin].
      rewrite Hneg. destruct (Z.ltb_spec M 0); [lia|reflexivity].
  - intros HM.
    destruct (GetCollisionSeconds_stages lnFactor M Hf ltac:(lia))
      as (x & -> & Hneg & Hform & _).
    apply Sqrt_Int_negative; [|exact Hform].
    rewrite Hneg. destruct (Z.ltb_spec M 0); [reflexivity|lia].
Qed.

(** The property with the logarithm of double arithmetic, at the space of
    eight lower-case letters and at its opposite. *)
Lemma GetCollisionSeconds_outcome_witness :
  (exists n, GetCollisionSeconds lnFactor_double (26 ^ 8) = Ok n /\ 0 <= n) /\
  GetCollisionSeconds lnFactor_double (- 26 ^ 8)
  = Panic "square root of negative operand".
Proof.
  assert (lnFactor_range lnFactor_double) as Hf
    by (unfold lnFactor_range; simpl; lia).
  split.
  - apply (GetCollisionSeconds_outcome lnFactor_double (26 ^ 8) Hf). lia.
  - apply (GetCollisionSeconds_outcome lnFactor_double (- 26 ^ 8) Hf). lia.
Defined.

(** X15: for a space of fewer than 2^31 bits, the ones a [big.Float]
    holds, the estimate is the integer part of
    [sqrt (2 * M * lnFactor)] up to the roundings of [big.Float]: its
    square is at most the radicand and the square of the next integer is
    more than the radicand, each within the fraction [2 ^ - 61]. *)
Theorem GetCollisionSeconds_accuracy (lnFactor : float64) (M : Z) :
  lnFactor_range lnFactor -> 0 < M -> BitLen M < 2 ^ 31 ->
  exists n,
    GetCollisionSeconds lnFactor M = Ok n /\ 0 <= n /\
    (IZR n * IZR n
     <= 2 * IZR M * f64_val lnFactor * (1 + powerRZ 2 (- 61)))%R /\
    (2 * IZR M * f64_val lnFactor * (1 - powerRZ 2 (- 61))
     < (IZR n + 1) * (IZR n + 1))%R.
Proof.
  intros Hf HM HL. pose proof Hf as [He Hmc].
  rewrite (GetCollisionSeconds_estimate lnFactor M Hf HM HL).
  set (mc := f64_mant lnFactor) in *. set (p := Z.max (BitLen M) 64).
  eexists. split; [reflexivity|].
  assert (2 * IZR M * f64_val lnFactor = val (M * mc) (- 58))%R as ->.
  { unfold f64_val, val. fold mc. rewrite He, mult_IZR.
    replace (- 58) with (1 + - 59) by lia. rewrite pow2_add.
    change (powerRZ 2 1) with (2 * 1)%R. ring. }
  pose proof (estimate_accuracy mc p M ltac:(lia) ltac:(lia) HM)
    as (H0 & Hup & Hdn).
  pose proof (four_roundings p ltac:(lia)) as [H4u H4d].
  cbv zeta in Hup, Hdn, H4u, H4d.
  pose proof (val_pos (M * mc) (- 58) ltac:(nia)) as Hx.
  set (x := val (M * mc) (- 58)) in *.
  split; [apply estimate_nonneg; lia|]. split.
  - eapply Rle_trans; [exact Hup|]. apply Rmult_le_compat_l; lra.
  - eapply Rle_lt_trans; [|exact Hdn]. apply Rmult_le_compat_l; lra.
Qed.

(** The property with the logarithm of double arithmetic, at the space of
    eight lower-case letters. *)
Lemma GetCollisionSeconds_accuracy_witness :
  exists n,
    GetCollisionSeconds lnFactor_double (26 ^ 8) = Ok n /\ 0 <= n /\
    (IZR n * IZR n
     <= 2 * IZR (26 ^ 8) * f64_val lnFactor_double * (1 + powerRZ 2 (- 61)))%R /\
    (2 * IZR (26 ^ 8) * f64_val lnFactor_double * (1 - powerRZ 2 (- 61))
     < (IZR n + 1) * (IZR n + 1))%R.
Proof.
  apply GetCollisionSeconds_accuracy;
    [unfold lnFactor_range; simpl; lia|lia|vm_compute; reflexivity].
Defined.

(** With the precision [SetInt] gives each space, the estimate is monotone
    across precisions too. *)
Lemma estimate_SetInt_mono (mc M1 M2 : Z) :
  2 ^ 52 <= mc < 2 ^ 53 -> 0 < M1 -> M1 <= M2 ->
  estimate mc (Z.max (BitLen M1) 64) M1
  <= estimate mc (Z.max (BitLen M2) 64) M2.
Proof.
  intros Hmc H1 Hle.
  pose proof (BitLen_mono M1 M2 H1 Hle) as HL.
  set (p1 := Z.max (BitLen M1) 64). set (p2 := Z.max (BitLen M2) 64).
  destruct (Z.eq_dec p1 p2) as [Heq|Hne].
  - rewrite Heq. apply estimate_mono; lia.
  - assert (p1 < p2) as Hp by lia.
    assert (p2 = BitLen M2) as Hp2 by lia.
    destruct (BitLen_spec M1 ltac:(lia)) as [_ [_ Hhi1]].
    destruct (BitLen_spec M2 ltac:(lia)) as [_ [Hlo2 _]].
    assert (2 ^ BitLen M1 <= 2 ^ p1) by (apply Z.pow_le_mono_r; lia).
    rewrite <- Hp2 in Hlo2.
    transitivity (estimate mc p1 (2 ^ p1)); [apply estimate_mono; lia|].
    transitivity (estimate mc p2 (2 ^ (p2 - 1)));
      [|apply estimate_mono; [lia|lia|apply Z.pow_pos_nonneg; lia|lia]].
    pose proof (estimate_prec_chain mc p1 (Z.to_nat (p2 - 1 - p1))
                  ltac:(lia) Hmc) as Hchain.
    rewrite Z2Nat.id in Hchain by lia.
    replace (p1 + 1 + (p2 - 1 - p1)) with p2 in Hchain by lia.
    replace (p1 + (p2 - 1 - p1)) with (p2 - 1) in Hchain by lia.
    exact Hchain.
Qed.

(** X16: [GetCollisionSecondsFromLength] grows with the charset and with
    the length, as long as the larger space has fewer than 2^31 bits: for
    charsets of at least one symbol, a larger charset or a longer password
    never gives a smaller estimate.  A length that is not positive counts
    as a space of one password. *)
Theorem GetCollisionSecondsFromLength_monotone
    (lnFactor : float64) (c1 l1 c2 l2 : Z) :
  lnFactor_range lnFactor -> 1 <= c1 -> c1 <= c2 -> l1 <= l2 ->
  BitLen (c2 ^ l2) < 2 ^ 31 ->
  exists n1 n2,
    GetCollisionSecondsFromLength lnFactor c1 l1 = Ok n1 /\
    GetCollisionSecondsFromLength lnFactor c2 l2 = Ok n2 /\
    n1 <= n2.
Proof.
  intros Hf Hc1 Hc Hl HL. pose proof Hf as [_ Hmc].
  unfold GetCollisionSecondsFromLength.
  set (M1 := if l1 <=? 0 then 1 else c1 ^ l1).
  set (M2 := if l2 <=? 0 then 1 else c2 ^ l2).
  assert (BitLen M2 < 2 ^ 31) as HL2.
  { subst M2. destruct (Z.leb_spec l2 0); [vm_compute; reflexivity|exact HL]. }
  assert (1 <= M1 /\ M1 <= M2) as [HM1 HM].
  { subst M1 M2.
    assert (forall c l, 1 <= c -> 0 <= l -> 1 <= c ^ l) as Hpow
      by (intros c l ? ?; pose proof (Z.pow_pos_nonneg c l); lia).
    destruct (Z.leb_spec l1 0), (Z.leb_spec l2 0); cbv beta iota.
    - lia.
    - split; [lia|]. apply Hpow; lia.
    - lia.
    - split; [apply Hpow; lia|].
      transitivity (c2 ^ l1);
        [apply Z.pow_le_mono_l; lia|apply Z.pow_le_mono_r; lia]. }
  pose proof (BitLen_mono M1 M2 ltac:(lia) HM) as HL1.
  rewrite (GetCollisionSeconds_estimate lnFactor M1) by (assumption || lia).
  rewrite (GetCollisionSeconds_estimate lnFactor M2) by (assumption || lia).
  eexists _, _. split; [reflexivity|]. split; [reflexivity|].
  apply estimate_SetInt_mono; [assumption|lia|assumption].
Qed.

(** The property between seven letters of one case and eight of both. *)
Lemma GetCollisionSecondsFromLength_monotone_witness :
  exists n1 n2,
    GetCollisionSecondsFromLength lnFactor_double 26 7 = Ok n1 /\
    GetCollisionSecondsFromLength lnFactor_double 52 8 = Ok n2 /\
    n1 <= n2.
Proof.
  apply GetCollisionSecondsFromLength_monotone;
    [unfold lnFactor_range; simpl; lia|lia|lia|lia|vm_compute; reflexivity].
Defined.

(** ** The command *)

(** Runes below [runeSelf] are written as the byte they are. *)
Lemma slicerunetostring_ascii (rs : list rune) :
  Forall (fun r => 0 <= r < 128) rs ->
  list_ascii_of_string (slicerunetostring rs) = to_byte <$> rs.
Proof.
  induction 1 as [|r rs Hr _ IH]; [reflexivity|].
  cbn [slicerunetostring fmap list_fmap]. unfold encoderune.
  rewrite Z.mod_small by lia.
  destruct (Z.leb_spec r rune1Max) as [_|Hgt]; [|unfold rune1Max in Hgt; lia].
  rewrite append_cons, append_nil_l. cbn [list_ascii_of_string].
  f_equal. exact IH.
Qed.

Lemma list_ascii_of_string_length (s : string) :
  List.length (list_ascii_of_string s) = String.length s.
Proof. induction s as [|c s IH]; simpl; congruence. Qed.

(** What a successful [Generate] returns, as runes. *)
Lemma Generate_Ok_runes (charset password : string) (n : Z) (rd rd' : Reader) :
  Generate charset n rd = Ok (password, rd') ->
  0 <= n /\
  exists pw,
    password = slicerunetostring pw /\ List.length pw = Z.to_nat n /\
    Forall (fun r => r ∈ stringtoslicerune charset) pw.
Proof.
  unfold Generate. destruct (Z.ltb_spec n 0) as [|Hn]; [discriminate|].
  cbn [orb]. destruct (maxAlloc <? 4 * n); [discriminate|].
  destruct (Generate_loop _ _ _ _ _ rd) as [[pw rd1]|msg] eqn:Hloop;
    [|discriminate].
  intros [= <- <-]. split; [assumption|]. exists pw.
  apply Generate_loop_members in Hloop as [Hlen Hmem].
  split; [reflexivity|]. split; [assumption|].
  eapply Forall_impl; [exact Hmem|]. intros r Hr.
  apply slices_Sort_elem_of. exact Hr.
Qed.

(** Why [Generate] panics. *)
Lemma Generate_Panic_cases (charset : string) (n : Z) (rd : Reader) (msg : string) :
  (1 <= List.length (stringtoslicerune charset))%nat ->
  Generate charset n rd = Panic msg ->
  ((n < 0 \/ maxAlloc < 4 * n) /\
   msg = "runtime error: makeslice: len out of range") \/
  (0 <= n /\ 4 * n <= maxAlloc /\ (msg = "EOF" \/ msg = "unexpected EOF")).
Proof.
  intros Hsize. unfold Generate.
  destruct (Z.ltb_spec n 0) as [Hn|Hn]; [intros [= <-]; auto|].
  cbn [orb].
  destruct (Z.ltb_spec maxAlloc (4 * n)) as [Hbig|Hfit];
    [intros [= <-]; auto|].
  destruct (Generate_loop _ _ _ _ _ rd) as [[pw rd1]|msg'] eqn:Hloop;
    [discriminate|].
  intros [= <-]. right. split; [assumption|]. split; [assumption|].
  apply Generate_loop_panic in Hloop as [[_ H]|[Hnil _]]; [exact H|].
  pose proof (slices_Sort_length (stringtoslicerune charset)) as Hl.
  rewrite Hnil in Hl. simpl in Hl. lia.
Qed.

(** The charsets of the command are made of ASCII and are never empty, so
    that their length in bytes is their number of symbols. *)
Lemma main_charset_ascii (f : flags) :
  let cs := stringtoslicerune (NormalizeCharset (main_charset f)) in
  (1 <= List.length cs)%nat /\
  Forall (fun r => 0 <= r < 128) cs /\
  String.length (NormalizeCharset (main_charset f)) = List.length cs /\
  cs ≡ₚ stringtoslicerune (main_charset f).
Proof.
  intros cs.
  assert (cs = slices_Sort (stringtoslicerune (main_charset f))) as Hcs.
  { unfold cs, NormalizeCharset. apply decode_encode.
    apply slices_Sort_valid, stringtoslicerune_valid. }
  assert ((1 <=? Z.of_nat (List.length cs))
          && forallb (fun r => (0 <=? r) && (r <? 128)) cs
          && (Z.of_nat (String.length (NormalizeCharset (main_charset f)))
              =? Z.of_nat (List.length cs)) = true) as Hb.
  { subst cs. destruct f as [[] [] [] [] [] [] ? ? ? ?]; vm_compute; reflexivity. }
  apply andb_prop in Hb as [Hb H3]. apply andb_prop in Hb as [H1 H2].
  split; [lia|]. split; [|split; [lia|]].
  - apply Forall_forall. intros r Hr.
    rewrite forallb_forall in H2. specialize (H2 r).
    rewrite <- list_elem_of_In in H2. specialize (H2 Hr). lia.
  - rewrite Hcs. apply slices_Sort_Permutation.
Qed.

Lemma list_pair_ind {A : Type} (P : list A -> Prop) :
  P [] -> (forall a, P [a]) -> (forall a b l, P l -> P (a :: b :: l)) ->
  forall l, P l.
Proof.
  intros H0 H1 H2 l.
  assert (P l /\ forall a, P (a :: l)) as [H _]; [|exact H].
  induction l as [|b l [IH1 IH2]]; [auto|].
  split; [apply IH2|]. intros a. apply H2. exact IH1.
Qed.

(** [hex.Decode] does not run past a destination of half the length of the
    source. *)
Lemma hex_Decode_loop_returns (src : list ascii) :
  forall (i k : nat) (dst : list ascii),
    (List.length src <= 2 * k)%nat -> (i + k <= List.length dst)%nat ->
    exists r, hex_Decode_loop src i dst = Ok r.
Proof.
  induction src as [|p|p q src IH] using list_pair_ind; intros i k dst Hk Hi.
  - simpl. eauto.
  - simpl. destruct (fromHexChar p); eauto.
  - cbn [hex_Decode_loop]. cbn [List.length] in Hk.
    destruct (fromHexChar p) as [a|]; [|eauto].
    destruct (fromHexChar q) as [b|]; [|eauto].
    destruct (decide (i < List.length dst)%nat) as [_|Hge]; [|lia].
    apply (IH (S i) (k - 1)%nat); [lia|]. rewrite length_insert. lia.
Qed.



(** The password [main] prints, when [Generate] returns one: as long as the
    length, in bytes too, and made of the charset. *)
Lemma main_Generate_Ok (f : flags) (length : Z) (password : string)
    (rd rd' : Reader) :
  Generate (NormalizeCharset (main_charset f)) length rd = Ok (password, rd') ->
  0 <= length /\
  String.length password = Z.to_nat length /\
  Z.of_nat (List.length (stringtoslicerune password)) = length /\
  Forall (fun r => r ∈ stringtoslicerune (main_charset f))
         (stringtoslicerune password) /\
  exists pw,
    list_ascii_of_string password = to_byte <$> pw /\
    Forall (fun r => r ∈ stringtoslicerune (NormalizeCharset (main_charset f)))
           pw.
Proof.
  intros HG. apply Generate_Ok_runes in HG as (Hn & pw & -> & Hlen & Hmem).
  destruct (main_charset_ascii f) as (_ & Hascii & _ & Hperm).
  assert (Forall (fun r => 0 <= r < 128) pw) as Hpw.
  { eapply Forall_impl; [exact Hmem|]. intros r Hr.
    rewrite Forall_forall in Hascii. apply Hascii. exact Hr. }
  assert (Forall valid_rune pw) as Hvalid.
  { eapply Forall_impl; [exact Hpw|]. intros r Hr.
    cbv beta in Hr.
    unfold valid_rune, maxRune, surrogateMin, surrogateMax. lia. }
  split; [assumption|]. split; [|split; [|split]].
  - rewrite <- list_ascii_of_string_length, slicerunetostring_ascii by assumption.
    rewrite length_fmap. exact Hlen.
  - rewrite decode_encode by assumption. lia.
  - rewrite decode_encode by assumption.
    eapply Forall_impl; [exact Hmem|]. intros r Hr.
    rewrite <- Hperm. exact Hr.
  - exists pw. split; [|exact Hmem].
    apply slicerunetostring_ascii. exact Hpw.
Qed.

(** The block of base64 on a password of an even length [length >= 0]:
    it prints its line or ends the run with status 1; it does not panic. *)
Lemma main_base64_returns (length : Z) (password : string) :
  0 <= length -> Z.rem length 2 = 0 ->
  String.length password = Z.to_nat length ->
  exists line,
    main_base64 length password = inl line \/
    main_base64 length password = inr (Exited 1, line).
Proof.
  intros Hn Heven Hbytes. unfold main_base64, hex_Decode.
  pose proof (Z.quot_rem' length 2) as Hq. rewrite Heven in Hq.
  destruct (hex_Decode_loop_returns (list_ascii_of_string password) 0
              (Z.to_nat (Z.quot length 2))
              (replicate (Z.to_nat (Z.quot length 2)) (to_byte 0)))
    as [[buf [e|]] ->]; eauto.
  - rewrite list_ascii_of_string_length, Hbytes. lia.
  - rewrite length_replicate. lia.
Qed.


(** X17: [main] panics for two reasons only, and before it prints
    anything: [make] refuses the length, which is then negative or beyond
    what the runtime allocates, or the entropy source fails, with the
    error of the read that came short.  The charset is never empty, the
    decoding of the hexadecimal digits stays within its buffer and the
    collision estimate is asked about one password at least.  A length
    that [make] refuses is not rejected before: the run panics in [make],
    unless the test of [-hex -base64] on odd lengths ends it first. *)
Theorem main_panics (lnFactor : float64) (entropy_line : Z -> Z -> string)
    (f : flags) (args : list string) (rd : Reader) :
  lnFactor_range lnFactor ->
  (forall msg,
      result (main lnFactor entropy_line f args rd) = Panicked msg ->
      stdout (main lnFactor entropy_line f args rd) = [] /\
      exists length,
        main_length f args = Some length /\
        (((length < 0 \/ maxAlloc < 4 * length) /\
          msg = "runtime error: makeslice: len out of range") \/
         (0 <= length /\ 4 * length <= maxAlloc /\
          (msg = "EOF" \/ msg = "unexpected EOF")))) /\
  (forall length,
      main_length f args = Some length ->
      length < 0 \/ maxAlloc < 4 * length ->
      stdout (main lnFactor entropy_line f args rd) = [] /\
      (result (main lnFactor entropy_line f args rd)
       = Panicked "runtime error: makeslice: len out of range" \/
       result (main lnFactor entropy_line f args rd) = Exited 1)).
Proof.
  intros Hf. split.
  - intros msg. unfold main.
    destruct (main_length f args) as [length|]; [|discriminate].
    destruct (flagBase64 f && flagHex f && negb (Z.rem length 2 =? 0)) eqn:Hodd;
      [discriminate|].
    destruct (main_charset_ascii f) as (Hsize & _ & Hlen & _).
    destruct (Generate _ length rd) as [[password rd1]|msg'] eqn:HG.
    + intros H. exfalso. revert H.
      apply main_Generate_Ok in HG as (Hn & Hbytes & _ & _ & _).
      cbv zeta.
      assert (exists line,
        (if flagBase64 f && flagHex f then main_base64 length password
         else inl []) = inl line \/
        (if flagBase64 f && flagHex f then main_base64 length password
         else inl []) = inr (Exited 1, line)) as [line [-> | ->]].
      { destruct (flagBase64 f && flagHex f) eqn:Hb; [|eauto].
        simpl in Hodd. apply negb_false_iff, Z.eqb_eq in Hodd.
        apply main_base64_returns; assumption. }
      * destruct (flagCollisions f); [|destruct (flagEntropy f); discriminate].
        set (M := if length <=? 0 then 1
                  else Z.of_nat
                         (String.length (NormalizeCharset (main_charset f)))
                       ^ length).
        assert (0 < M) as HM.
        { subst M. destruct (Z.leb_spec length 0); [lia|].
          apply Z.pow_pos_nonneg; lia. }
        destruct (GetCollisionSeconds_returns lnFactor M Hf HM) as (n & -> & _).
        discriminate.
      * discriminate.
    + cbn [result stdout]. intros [= ->]. split; [reflexivity|].
      exists length. split; [reflexivity|].
      exact (Generate_Panic_cases _ _ _ _ Hsize HG).
  - intros length Hlength Hbad. unfold main. rewrite Hlength.
    destruct (flagBase64 f && flagHex f && negb (Z.rem length 2 =? 0));
      [cbn [result stdout]; auto|].
    unfold Generate. rewrite make_refuses by assumption.
    cbn [result stdout]. auto.
Qed.

(** The property on a length of [-3], with no flag. *)
Lemma main_panics_witness :
  let f := {| flagHex := false; flagAlpha := false; flagLower := false;
              flagUpper := false; flagNumber := false; flagSpecial := false;
              flagBytes := false; flagBase64 := false; flagEntropy := false;
              flagCollisions := false |} in
  stdout (main lnFactor_double (fun _ _ => "") f ["-3"] []) = [] /\
  (result (main lnFactor_double (fun _ _ => "") f ["-3"] [])
   = Panicked "runtime error: makeslice: len out of range" \/
   result (main lnFactor_double (fun _ _ => "") f ["-3"] []) = Exited 1).
Proof.
  intros f.
  assert (lnFactor_range lnFactor_double) as Hf
    by (unfold lnFactor_range; simpl; lia).
  apply (proj2 (main_panics lnFactor_double (fun _ _ => "") f ["-3"] [] Hf)
               (- 3)); [reflexivity|lia].
Defined.

(** X18: when [main] returns, the first line it printed is the password: as
    many symbols as the length asked for, which is 16 by default and is
    doubled under [-bytes -hex], every one of them a symbol of the charset
    the flags select; the symbols are ASCII, one byte each. *)
Theorem main_password (lnFactor : float64) (entropy_line : Z -> Z -> string)
    (f : flags) (args : list string) (rd : Reader) :
  result (main lnFactor entropy_line f args rd) = Returned ->
  exists length password rest,
    main_length f args = Some length /\ 0 <= length /\
    stdout (main lnFactor entropy_line f args rd) = (password +:+ nl) :: rest /\
    String.length password = Z.to_nat length /\
    Z.of_nat (List.length (stringtoslicerune password)) = length /\
    Forall (fun r => r ∈ stringtoslicerune (main_charset f))
           (stringtoslicerune password).
Proof.
  unfold main.
  destruct (main_length f args) as [length|]; [|discriminate].
  destruct (flagBase64 f && flagHex f && negb (Z.rem length 2 =? 0));
    [discriminate|].
  destruct (Generate _ length rd) as [[password rd1]|msg'] eqn:HG;
    [|discriminate].
  apply main_Generate_Ok in HG as (Hn & Hbytes & Hrunes & Hmem & _).
  cbv zeta.
  destruct (if flagBase64 f && flagHex f then main_base64 length password
            else inl []) as [line|[st err]];
    [destruct (flagCollisions f), (flagEntropy f);
     try destruct (GetCollisionSeconds _ _)|];
    cbn [result stdout app negb]; intros H; try discriminate H;
    exists length, password; eexists; (split; [reflexivity|]);
    (split; [assumption|]); (split; [reflexivity|]); auto.
Qed.

(** The property on four hexadecimal digits. *)
Lemma main_password_witness :
  let f := {| flagHex := true; flagAlpha := false; flagLower := false;
              flagUpper := false; flagNumber := false; flagSpecial := false;
              flagBytes := false; flagBase64 := false; flagEntropy := false;
              flagCollisions := true |} in
  let rd := ["255"; "003"; "009"; "000"]%char in
  exists length password rest,
    main_length f ["4"] = Some length /\ 0 <= length /\
    stdout (main lnFactor_double (fun _ _ => "") f ["4"] rd)
    = (password +:+ nl) :: rest /\
    String.length password = Z.to_nat length /\
    Z.of_nat (List.length (stringtoslicerune password)) = length /\
    Forall (fun r => r ∈ stringtoslicerune (main_charset f))
           (stringtoslicerune password).
Proof.
  intros f rd.
  apply (main_password lnFactor_double (fun _ _ => "") f ["4"] rd).
  vm_compute. reflexivity.
Defined.



